(** * The DocBook atom-stream interpreter of qdoc

    A shallow embedding of [src/qdoc/docbookgenerator.cpp]: the walk over the
    atom chain ([generateText], [generateAtomList]), the dispatcher
    [generateAtom] with its section, list, table and link handlers, and the
    end-of-text flush [closeTextSections].

    The [QXmlStreamWriter] is modelled by the sequence of calls made on it,
    the members of [DocBookGenerator] by one record that is threaded through
    every function, and a dereference of a null [Atom] or [Node] pointer by
    an explicit outcome. *)

From stdpp Require Import gmap strings list.
From Stdlib Require Import ZArith Lia Ascii String Bool.

Local Open Scope string_scope.
Local Open Scope list_scope.
Local Open Scope Z_scope.

(** ** QString operations used by the generator *)

Module QString.

Definition isEmpty (s : string) : bool :=
  match s with EmptyString => true | _ => false end.

(** [QChar::isSpace] on the Latin-1 range. *)
Definition isSpace (c : ascii) : bool :=
  let n := nat_of_ascii c in
  Nat.eqb n 32 || (Nat.leb 9 n && Nat.leb n 13).

Fixpoint dropLeadingSpaces (s : string) : string :=
  match s with
  | EmptyString => EmptyString
  | String c r => if isSpace c then dropLeadingSpaces r else s
  end.

Fixpoint dropTrailingSpaces (s : string) : string :=
  match s with
  | EmptyString => EmptyString
  | String c r =>
      match dropTrailingSpaces r with
      | EmptyString => if isSpace c then EmptyString else String c EmptyString
      | r' => String c r'
      end
  end.

Definition trimmed (s : string) : string :=
  dropTrailingSpaces (dropLeadingSpaces s).

Definition digit (c : ascii) : option Z :=
  let n := nat_of_ascii c in
  if Nat.leb 48 n && Nat.leb n 57 then Some (Z.of_nat (n - 48)) else None.

Fixpoint digits (s : string) (acc : Z) : option Z :=
  match s with
  | EmptyString => Some acc
  | String c r =>
      match digit c with
      | Some d => digits r (10 * acc + d)
      | None => None
      end
  end.

Definition INT_MIN : Z := - 2 ^ 31.
Definition INT_MAX : Z := 2 ^ 31 - 1.

(** [QString::toInt()] in base 10: the value of an optionally signed
    decimal numeral surrounded by optional white space, and 0 when the
    conversion fails or the value does not fit an [int]. *)
Definition toInt (s : string) : Z :=
  match trimmed s with
  | EmptyString => 0
  | String c r =>
      let '(negative, body) :=
        if Ascii.eqb c "-" then (true, r)
        else if Ascii.eqb c "+" then (false, r)
        else (false, String c r) in
      match body with
      | EmptyString => 0
      | _ =>
          match digits body 0 with
          | Some v =>
              let v := if negative then - v else v in
              if (INT_MIN <=? v) && (v <=? INT_MAX) then v else 0
          | None => 0
          end
      end
  end.

(** [QString::split(sep)] with the default [Qt::KeepEmptyParts]. *)
Fixpoint split (sep : ascii) (s : string) : list string :=
  match s with
  | EmptyString => [EmptyString]
  | String c r =>
      if Ascii.eqb c sep then EmptyString :: split sep r
      else match split sep r with
           | h :: t => String c h :: t
           | [] => [String c EmptyString]
           end
  end.

(** [QString::split(sep, Qt::SkipEmptyParts)]. *)
Definition splitSkipEmptyParts (sep : ascii) (s : string) : list string :=
  List.filter (fun p => negb (isEmpty p)) (split sep s).

Fixpoint contains (c : ascii) (s : string) : bool :=
  match s with
  | EmptyString => false
  | String d r => Ascii.eqb d c || contains c r
  end.

Definition left (n : nat) (s : string) : string := String.substring 0 n s.

Definition mid (n : nat) (s : string) : string :=
  String.substring n (String.length s - n) s.

(** [QString::chopped(n)]: the string without its last [n] characters. *)
Definition chopped (n : nat) (s : string) : string :=
  String.substring 0 (String.length s - n) s.

(** [QList::at(i)] on a string list; the empty string stands for an index
    out of range. *)
Definition at_ (l : list string) (i : nat) : string := List.nth i l EmptyString.

End QString.

(** The regular expression [\S(\()] of [generateLink]: the offset of the
    first opening parenthesis that directly follows a character that is not
    white space ([QRegExp::indexIn] followed by [pos(1)]). *)
Fixpoint funcLeftParen (s : string) : option nat :=
  match s with
  | String c (String d _ as r) =>
      if negb (QString.isSpace c) && Ascii.eqb d "("
      then Some 1%nat
      else option_map S (funcLeftParen r)
  | _ => None
  end.

Definition newline : string := String "010" EmptyString.
Definition doubleQuote : ascii := "034".

(** ** Atoms

    An atom has a type and a list of strings; [Atom::string()] is the first
    of them.  A chain of atoms ([Atom::next()]) is a list: the empty list is
    the null pointer, and the atoms after an atom are the tail. *)

Module Atom.

(** The enumerators that the switch of [generateAtom] names.  [Unlisted]
    stands for every other enumerator of [Atom::AtomType]: those reach the
    default branch of the switch. *)
Inductive AtomType : Set :=
| AnnotatedList | AutoLink | BaseName | BR | BriefLeft | BriefRight | C
| CaptionLeft | CaptionRight | Code | CodeBad | CodeNew | CodeOld
| CodeQuoteArgument | CodeQuoteCommand | DivLeft | DivRight | EndQmlText
| FootnoteLeft | FootnoteRight | FormatElse | FormatEndif | FormatIf
| FormattingLeft | FormattingRight | GeneratedList | HR | Image | ImageText
| ImportantLeft | ImportantRight | InlineImage | JavaScript | Keyword
| LegaleseLeft | LegaleseRight | LineBreak | Link | LinkNode | ListLeft
| ListItemNumber | ListTagLeft | ListTagRight | ListItemLeft | ListItemRight
| ListRight | NavAutoLink | NavLink | Nop | NoteLeft | NoteRight | ParaLeft
| ParaRight | Qml | QmlText | QuotationLeft | QuotationRight | RawString
| SectionLeft | SectionRight | SectionHeadingLeft | SectionHeadingRight
| SidebarLeft | SidebarRight | SinceList | SinceTagRight | SnippetCommand
| SnippetIdentifier | SnippetLocation | String | TableLeft | TableRight
| TableHeaderLeft | TableHeaderRight | TableRowLeft | TableRowRight
| TableItemLeft | TableItemRight | TableOfContents | Target
| UnhandledFormat | UnknownCommand | Unlisted.

Record Atom : Set := mk { type : AtomType; strs : list string }.

Definition count (a : Atom) : nat := List.length (strs a).
Definition string_at (a : Atom) (i : nat) : string := QString.at_ (strs a) i.

(** The constructor [Atom(type, string)]. *)
Definition make (t : AtomType) (s : string) : Atom := mk t [s].

Definition string (a : Atom) : String.string := QString.at_ (strs a) 0.

Definition is_type (t : AtomType) (a : Atom) : Prop := type a = t.

End Atom.

Global Instance AtomType_eq_dec : EqDecision Atom.AtomType.
Proof. solve_decision. Defined.

(** Modelled from the spec: the list-kind and formatting-kind strings, which
    are macros of atom.h.  The spec names the list kinds bullet, numbered
    (arabic, upper-alpha, lower-alpha, upper-roman, lower-roman), tag and
    value, and the formatting kinds by their markup. *)
Definition ATOM_LIST_BULLET : string := "bullet".
Definition ATOM_LIST_TAG : string := "tag".
Definition ATOM_LIST_VALUE : string := "value".
Definition ATOM_LIST_LOWERALPHA : string := "loweralpha".
Definition ATOM_LIST_LOWERROMAN : string := "lowerroman".
Definition ATOM_LIST_NUMERIC : string := "numeric".
Definition ATOM_LIST_UPPERALPHA : string := "upperalpha".
Definition ATOM_LIST_UPPERROMAN : string := "upperroman".

Definition ATOM_FORMATTING_BOLD : string := "bold".
Definition ATOM_FORMATTING_ITALIC : string := "italic".
Definition ATOM_FORMATTING_LINK : string := "link".
Definition ATOM_FORMATTING_PARAMETER : string := "parameter".
Definition ATOM_FORMATTING_SUBSCRIPT : string := "subscript".
Definition ATOM_FORMATTING_SUPERSCRIPT : string := "superscript".
Definition ATOM_FORMATTING_TELETYPE : string := "teletype".
Definition ATOM_FORMATTING_UNDERLINE : string := "underline".

(** Modelled from the spec: [Generator::matchAhead], which is declared in the
    base class.  "Immediately followed by its own end marker": the atom after
    this one exists and has the expected type. *)
Definition matchAhead (next : list Atom.Atom) (expectedAtomType : Atom.AtomType) : bool :=
  match next with
  | n :: _ => bool_decide (Atom.type n = expectedAtomType)
  | [] => false
  end.

(** ** Documentation nodes

    The read interface of [Node] that the interpreter uses.  A node carries
    its chain of ancestors; two node pointers are equal when they designate
    the same identity. *)

Module Node.

Inductive Status : Set := Active | Preliminary | Deprecated | Obsolete | Internal.

Inductive NodeType : Set :=
| NoType | Namespace | Class | Enum | Function | Property | Page | Group.

Inductive Node : Set :=
  mk { id : N; name : string; nodeType : NodeType; status : Status;
       parent : option Node }.

Definition isObsolete (n : Node) : bool :=
  match status n with Obsolete => true | _ => false end.

Definition isEnumType (n : Node) : bool :=
  match nodeType n with Enum => true | _ => false end.

Definition status_eqb (s1 s2 : Status) : bool :=
  match s1, s2 with
  | Active, Active | Preliminary, Preliminary | Deprecated, Deprecated
  | Obsolete, Obsolete | Internal, Internal => true
  | _, _ => false
  end.

(** Equality of two [const Node *], either of which may be null. *)
Definition same (p q : option Node) : bool :=
  match p, q with
  | Some a, Some b => N.eqb (id a) (id b)
  | None, None => true
  | _, _ => false
  end.

End Node.

(** ** The XML writer

    The writer is the list of the calls made on it, oldest first.
    [QXmlStreamWriter::writeEndElement] takes no argument; [EndElement]
    carries the element that the source names in the comment on that call
    ([// section], [// para], ...), so that calls can be counted per element
    type.  [GeneratedListing] stands for the calls of the listing generators
    ([generateList], [generateAnnotatedList], [generateCompactList], ...),
    which query the documentation database and to which the interpreter
    hands over for an annotated or generated list. *)

Inductive Namespace : Set := dbNamespace | xlinkNamespace.

Inductive WriterCall : Set :=
| StartElement (ns : Namespace) (name : string)
| EmptyElement (ns : Namespace) (name : string)
| TextElement (ns : Namespace) (name text : string)
| Attribute (qualifiedName value : string)
| AttributeNS (ns : Namespace) (name value : string)
| Characters (text : string)
| EndElement (closes : string)
| GeneratedListing (selector : string).

(** ** Diagnostics *)

Inductive Location : Set :=
| NodeLocation (n : Node.Node)      (* relative->location() *)
| DocLocation (n : Node.Node).      (* relative->doc().location() *)

Inductive Message : Set :=
| OutputFormatNotHandled (format outFile : string)
| TableAttributesError (attributes : string)
| UnknownAtomType (t : Atom.AtomType).

Inductive Diagnostic : Set :=
| Warning (loc : Location) (msg : Message)
| InternalError (msg : Message).

(** ** The generator state *)

(** The text-output flags that the [Generator] base class owns and that its
    [initializeTextOutput] resets. *)
Record TextOutputFlags : Set := mkFlags {
  inContents_ : bool;
  inSectionHeading_ : bool;
  inTableHeader_ : bool;
  numTableRows_ : Z;
  threeColumnEnumValueTable_ : bool
}.

(** The writer, the diagnostics reported so far, the members of the
    generator, and [inPara], the static local variable of [generateAtom].
    The top of the stack [sectionLevels] is the head of the list. *)
Record Generator : Type := mkGenerator {
  writer : list WriterCall;
  diagnostics : list Diagnostic;
  flags : TextOutputFlags;
  inLink : bool;
  inListItemLineOpen : bool;
  currentSectionLevel : Z;
  sectionLevels : list Z;
  refMap : gmap string string;
  imageFileNames : list (Node.Node * string);
  inPara : bool
}.

Definition set_writer (w : list WriterCall) (g : Generator) : Generator :=
  mkGenerator w (diagnostics g) (flags g) (inLink g) (inListItemLineOpen g)
    (currentSectionLevel g) (sectionLevels g) (refMap g) (imageFileNames g) (inPara g).
Definition set_diagnostics (d : list Diagnostic) (g : Generator) : Generator :=
  mkGenerator (writer g) d (flags g) (inLink g) (inListItemLineOpen g)
    (currentSectionLevel g) (sectionLevels g) (refMap g) (imageFileNames g) (inPara g).
Definition set_flags (f : TextOutputFlags) (g : Generator) : Generator :=
  mkGenerator (writer g) (diagnostics g) f (inLink g) (inListItemLineOpen g)
    (currentSectionLevel g) (sectionLevels g) (refMap g) (imageFileNames g) (inPara g).
Definition set_inLink (b : bool) (g : Generator) : Generator :=
  mkGenerator (writer g) (diagnostics g) (flags g) b (inListItemLineOpen g)
    (currentSectionLevel g) (sectionLevels g) (refMap g) (imageFileNames g) (inPara g).
Definition set_inListItemLineOpen (b : bool) (g : Generator) : Generator :=
  mkGenerator (writer g) (diagnostics g) (flags g) (inLink g) b
    (currentSectionLevel g) (sectionLevels g) (refMap g) (imageFileNames g) (inPara g).
Definition set_currentSectionLevel (l : Z) (g : Generator) : Generator :=
  mkGenerator (writer g) (diagnostics g) (flags g) (inLink g) (inListItemLineOpen g)
    l (sectionLevels g) (refMap g) (imageFileNames g) (inPara g).
Definition set_sectionLevels (s : list Z) (g : Generator) : Generator :=
  mkGenerator (writer g) (diagnostics g) (flags g) (inLink g) (inListItemLineOpen g)
    (currentSectionLevel g) s (refMap g) (imageFileNames g) (inPara g).
Definition set_refMap (m : gmap string string) (g : Generator) : Generator :=
  mkGenerator (writer g) (diagnostics g) (flags g) (inLink g) (inListItemLineOpen g)
    (currentSectionLevel g) (sectionLevels g) m (imageFileNames g) (inPara g).
Definition set_imageFileNames (i : list (Node.Node * string)) (g : Generator) : Generator :=
  mkGenerator (writer g) (diagnostics g) (flags g) (inLink g) (inListItemLineOpen g)
    (currentSectionLevel g) (sectionLevels g) (refMap g) i (inPara g).
Definition set_inPara (b : bool) (g : Generator) : Generator :=
  mkGenerator (writer g) (diagnostics g) (flags g) (inLink g) (inListItemLineOpen g)
    (currentSectionLevel g) (sectionLevels g) (refMap g) (imageFileNames g) b.

Definition set_inSectionHeading_ (b : bool) (f : TextOutputFlags) : TextOutputFlags :=
  mkFlags (inContents_ f) b (inTableHeader_ f) (numTableRows_ f) (threeColumnEnumValueTable_ f).
Definition set_inTableHeader_ (b : bool) (f : TextOutputFlags) : TextOutputFlags :=
  mkFlags (inContents_ f) (inSectionHeading_ f) b (numTableRows_ f) (threeColumnEnumValueTable_ f).
Definition set_numTableRows_ (n : Z) (f : TextOutputFlags) : TextOutputFlags :=
  mkFlags (inContents_ f) (inSectionHeading_ f) (inTableHeader_ f) n (threeColumnEnumValueTable_ f).
Definition set_threeColumnEnumValueTable_ (b : bool) (f : TextOutputFlags) : TextOutputFlags :=
  mkFlags (inContents_ f) (inSectionHeading_ f) (inTableHeader_ f) (numTableRows_ f) b.

(** ** Outcomes and the generator monad

    A call either returns, or dereferences a null pointer (the atom chain or
    the parent chain of a node ended where the code reads on), or, for the
    walk over the chain only, exhausts the recursion budget of the model. *)

Inductive outcome (A : Type) : Type :=
| Done (a : A)
| NullDeref
| OutOfFuel.
Arguments Done {A} a.
Arguments NullDeref {A}.
Arguments OutOfFuel {A}.

Definition M (A : Type) : Type := Generator -> outcome (A * Generator).

Global Instance M_ret : MRet M := fun A a g => Done (a, g).
Global Instance M_bind : MBind M := fun A B f m g =>
  match m g with
  | Done (a, g') => f a g'
  | NullDeref => NullDeref
  | OutOfFuel => OutOfFuel
  end.

Definition get {A : Type} (field : Generator -> A) : M A := fun g => Done (field g, g).
Definition modify (f : Generator -> Generator) : M unit := fun g => Done (tt, f g).
Definition nullDeref {A : Type} : M A := fun _ => NullDeref.
Definition when (b : bool) (m : M unit) : M unit := if b then m else mret tt.

Definition emit (c : WriterCall) : M unit :=
  modify (fun g => set_writer (writer g ++ [c]) g).
Definition report (d : Diagnostic) : M unit :=
  modify (fun g => set_diagnostics (diagnostics g ++ [d]) g).
Definition modifyFlags (f : TextOutputFlags -> TextOutputFlags) : M unit :=
  modify (fun g => set_flags (f (flags g)) g).

Definition writeStartElement (ns : Namespace) (name : string) : M unit :=
  emit (StartElement ns name).
Definition writeEmptyElement (ns : Namespace) (name : string) : M unit :=
  emit (EmptyElement ns name).
Definition writeTextElement (ns : Namespace) (name text : string) : M unit :=
  emit (TextElement ns name text).
Definition writeAttribute (qualifiedName value : string) : M unit :=
  emit (Attribute qualifiedName value).
Definition writeAttributeNS (ns : Namespace) (name value : string) : M unit :=
  emit (AttributeNS ns name value).
Definition writeCharacters (text : string) : M unit := emit (Characters text).
Definition writeEndElement (closes : string) : M unit := emit (EndElement closes).

Definition newLine : M unit := writeCharacters newline.

Definition endSection : M unit :=
  writeEndElement "section";; newLine.

(** [writeAnchor] *)
Definition writeAnchor (id : string) : M unit :=
  writeEmptyElement dbNamespace "anchor";;
  writeAttribute "xml:id" id;;
  newLine.

(** ** Collaborators

    What the interpreter consumes from the documentation database, from the
    [Generator] base class and from [Doc], [Text], [CodeMarker] and
    [EnumNode]: their code is outside this file, and the interpreter is
    verified for every behaviour of theirs.  Functions of the atom take the
    atom and the atoms after it. *)

Record Collaborators : Type := mkCollaborators {
  hasBrief : Node.Node -> bool;
  skipAtoms : Atom.Atom -> list Atom.Atom -> Atom.AtomType -> nat;
  plainCode : string -> string;
  getAutoLink : Atom.Atom -> Node.Node -> string * option Node.Node;
  getLink : Atom.Atom -> Node.Node -> string * option Node.Node;
  linkForNode : option Node.Node -> option Node.Node -> string;
  nodeForString : string -> option Node.Node;
  imageFileName : Node.Node -> string -> string;
  isThreeColumnEnumValueTable : Atom.Atom -> list Atom.Atom -> bool;
  getAtomListValue : Atom.Atom -> list Atom.Atom -> string * nat;
  itemValue : Node.Node -> string -> string;
  getTableWidthAttr : Atom.Atom -> string * string;
  hOffset : Node.Node -> Z;
  canonicalTitle : string -> string;
  (* Text::sectionHeading(atom).toString() *)
  sectionHeading : Atom.Atom -> list Atom.Atom -> string;
  taggedNode : Node.Node -> string;
  outFileName : string;
  initializeTextOutputFlags : TextOutputFlags -> TextOutputFlags
}.

(** [DocBookGenerator::format] *)
Definition format : string := "DocBook".

(** ** Links *)

Section Links.

Variable env : Collaborators.

(** [DocBookGenerator::generateLink] *)
Definition generateLink (atom : Atom.Atom) : M unit :=
  match funcLeftParen (Atom.string atom) with
  | Some k =>
      (* hack for C++: move () outside of link *)
      writeCharacters (QString.left k (Atom.string atom));;
      writeEndElement "link";;
      modify (set_inLink false);;
      writeCharacters (QString.mid k (Atom.string atom))
  | None => writeCharacters (Atom.string atom)
  end.

(** [DocBookGenerator::beginLink]; [node] and [relative] may be null. *)
Definition beginLink (link : string) (node relative : option Node.Node) : M unit :=
  writeStartElement dbNamespace "link";;
  writeAttributeNS xlinkNamespace "href" link;;
  when (match node with
        | Some n =>
            negb (match relative with
                  | Some r => Node.status_eqb (Node.status n) (Node.status r)
                  | None => false
                  end)
            && Node.status_eqb (Node.status n) Node.Obsolete
        | None => false
        end)
    (writeAttribute "role" "obsolete");;
  modify (set_inLink true).

(** [DocBookGenerator::endLink] *)
Definition endLink : M unit :=
  l ← get inLink;
  when l (writeEndElement "link");;
  modify (set_inLink false).

(** [generateSimpleLink] *)
Definition generateSimpleLink (href text : string) : M unit :=
  writeStartElement dbNamespace "link";;
  writeAttributeNS xlinkNamespace "href" href;;
  writeCharacters text;;
  writeEndElement "link".

(** [DocBookGenerator::generateSynopsisName] *)
Definition generateSynopsisName (node relative : Node.Node) (generateNameLink : bool)
  : M unit :=
  let name := taggedNode env node in
  if negb generateNameLink then writeCharacters name
  else
    writeStartElement dbNamespace "emphasis";;
    writeAttribute "role" "bold";;
    generateSimpleLink (linkForNode env (Some node) (Some relative)) name;;
    writeEndElement "emphasis".

(** The loop of [generateEnumValue] that collects the enclosing nodes,
    outermost first.  It is entered with a non-null [node]. *)
Fixpoint enumValueParents (relative node : Node.Node) (parents : list Node.Node)
  : list Node.Node :=
  match node with
  | Node.mk _ _ _ _ None => parents
  | Node.mk _ _ _ _ (Some p) =>
      let parents := node :: parents in
      if Node.same (Some p) (Some relative) || QString.isEmpty (Node.name p)
      then parents
      else enumValueParents relative p parents
  end.

Fixpoint forEach {A : Type} (l : list A) (body : A -> M unit) : M unit :=
  match l with
  | [] => mret tt
  | x :: r => body x;; forEach r body
  end.

(** [DocBookGenerator::generateEnumValue] *)
Definition generateEnumValue (enumValue : string) (relative : Node.Node) : M unit :=
  if negb (Node.isEnumType relative) then writeCharacters enumValue
  else
    match Node.parent relative with
    | None => nullDeref
    | Some node =>
        let parents := enumValueParents relative node [] in
        writeStartElement dbNamespace "code";;
        forEach parents (fun parent =>
          generateSynopsisName parent relative true;;
          writeCharacters "::");;
        writeCharacters enumValue;;
        writeEndElement "code"
    end.

End Links.

(** ** The atom dispatcher *)

Section Interpreter.

Variable env : Collaborators.

(** The attribute loop of the [TableRowLeft] case:
    [for (i = 0; i + 1 < args.size(); i += 2)]. *)
Fixpoint tableRowAttributes (args : list string) : list WriterCall :=
  match args with
  | key :: value :: rest =>
      Attribute (QString.chopped 1 key) value :: tableRowAttributes rest
  | _ => []
  end.

(** The body of the attribute loop of the [TableItemLeft] case. *)
Definition tableItemAttributes (p : string) : list WriterCall :=
  if QString.contains "=" p then
    let lp := QString.split "=" p in
    [Attribute (QString.at_ lp 0) (QString.at_ lp 1)]
  else
    let spans := QString.split "," p in
    if Nat.eqb (List.length spans) 2 then
      (if negb (String.eqb (QString.at_ spans 0) "1")
       then [Attribute "colspan" (QString.at_ spans 0)] else [])
      ++ (if negb (String.eqb (QString.at_ spans 1) "1")
          then [Attribute "rowspan" (QString.at_ spans 1)] else [])
    else [].

Definition emitAll (calls : list WriterCall) : M unit := forEach calls emit.

(** Modelled from the spec: [Generator::unknownAtom], which is declared in
    the base class.  An unknown atom kind is reported as an internal error
    and rendering continues by skipping the atom. *)
Definition unknownAtom (atom : Atom.Atom) : M unit :=
  report (InternalError (UnknownAtomType (Atom.type atom))).

(** Modelled from the spec: [Generator::rewritePropertyBrief], which is
    declared in the base class.  It receives no writer, and atoms are
    read-only to the interpreter: it contributes no writer call and no
    change of the generator state. *)
Definition rewritePropertyBrief (atom : Atom.Atom) (relative : Node.Node) : M unit :=
  mret tt.

(** [DocBookGenerator::setImageFileName] *)
Definition setImageFileName (relative : Node.Node) (fileName : string) : M unit :=
  modify (fun g => set_imageFileNames (imageFileNames g ++ [(relative, fileName)]) g).

Definition programlisting (attributes : list WriterCall) (code : string) : M unit :=
  writeStartElement dbNamespace "programlisting";;
  emitAll attributes;;
  writeCharacters code;;
  writeEndElement "programlisting";;
  newLine.

(** The loop of the [SectionLeft] case that closes the sections at the
    same or a deeper level. *)
Fixpoint closeDeeperSections (levels : list Z) (level : Z) : M unit :=
  match levels with
  | top :: below =>
      when (level <=? top)
        (modify (set_sectionLevels below);;   (* sectionLevels.pop() *)
         writeEndElement "section";;
         newLine;;
         closeDeeperSections below level)
  | [] => mret tt
  end.

(** [DocBookGenerator::generateAtom]: [atom] is the atom to generate,
    [next] the atoms after it; the result is [skipAhead]. *)
Definition generateAtom (atom : Atom.Atom) (next : list Atom.Atom)
    (relative : Node.Node) : M nat :=
  let s := Atom.string atom in
  match Atom.type atom with
  | Atom.AutoLink | Atom.NavAutoLink =>
      l ← get inLink;
      f ← get flags;
      (if negb l && negb (inContents_ f) && negb (inSectionHeading_ f) then
         let '(link, node) := getAutoLink env atom relative in
         let link :=
           if negb (QString.isEmpty link)
              && match node with
                 | Some n =>
                     Node.status_eqb (Node.status n) Node.Obsolete
                     && negb (Node.same (Node.parent relative) node)
                 | None => false
                 end
              && negb (Node.isObsolete relative)
           then EmptyString else link in
         if QString.isEmpty link then writeCharacters s
         else
           beginLink link node (Some relative);;
           generateLink atom;;
           endLink
       else writeCharacters s);;
      mret 0%nat
  | Atom.BaseName => mret 0%nat
  | Atom.BriefLeft =>
      if negb (hasBrief env relative) then
        mret (skipAtoms env atom next Atom.BriefRight)
      else
        writeStartElement dbNamespace "para";;
        rewritePropertyBrief atom relative;;
        mret 0%nat
  | Atom.BriefRight =>
      when (hasBrief env relative) (writeEndElement "para";; newLine);;
      mret 0%nat
  | Atom.C =>
      (* This may at one time have been used to mark up C++ code but it is
         now widely used to write teletype text. *)
      writeTextElement dbNamespace "code" (plainCode env s);;
      mret 0%nat
  | Atom.CaptionLeft =>
      writeStartElement dbNamespace "title";;
      mret 0%nat
  | Atom.CaptionRight =>
      endLink;;
      writeEndElement "title";;
      newLine;;
      mret 0%nat
  | Atom.Qml =>
      programlisting [Attribute "language" "qml"] s;;
      mret 0%nat
  | Atom.JavaScript =>
      programlisting [Attribute "language" "js"] s;;
      mret 0%nat
  | Atom.CodeNew =>
      writeTextElement dbNamespace "para" "you can rewrite it as";;
      newLine;;
      programlisting [Attribute "language" "cpp"; Attribute "role" "new"] s;;
      mret 0%nat
  | Atom.Code =>
      programlisting [Attribute "language" "cpp"] s;;
      mret 0%nat
  | Atom.CodeOld =>
      writeTextElement dbNamespace "para" "For example, if you have code like";;
      newLine;;
      (* falls through to CodeBad *)
      programlisting [Attribute "language" "cpp"; Attribute "role" "bad"] s;;
      mret 0%nat
  | Atom.CodeBad =>
      programlisting [Attribute "language" "cpp"; Attribute "role" "bad"] s;;
      mret 0%nat
  | Atom.DivLeft | Atom.DivRight => mret 0%nat
  | Atom.FootnoteLeft =>
      writeStartElement dbNamespace "footnote";;
      newLine;;
      writeStartElement dbNamespace "para";;
      mret 0%nat
  | Atom.FootnoteRight =>
      writeEndElement "para";;
      newLine;;
      writeEndElement "footnote";;
      mret 0%nat
  | Atom.FormatElse | Atom.FormatEndif | Atom.FormatIf => mret 0%nat
  | Atom.FormattingLeft =>
      (if String.eqb s ATOM_FORMATTING_BOLD then
         writeStartElement dbNamespace "emphasis";;
         writeAttribute "role" "bold"
       else if String.eqb s ATOM_FORMATTING_ITALIC then
         writeStartElement dbNamespace "emphasis"
       else if String.eqb s ATOM_FORMATTING_UNDERLINE then
         writeStartElement dbNamespace "emphasis";;
         writeAttribute "role" "underline"
       else if String.eqb s ATOM_FORMATTING_SUBSCRIPT then
         writeStartElement dbNamespace "sub"
       else if String.eqb s ATOM_FORMATTING_SUPERSCRIPT then
         writeStartElement dbNamespace "sup"
       else if String.eqb s ATOM_FORMATTING_TELETYPE
               || String.eqb s ATOM_FORMATTING_PARAMETER then
         writeStartElement dbNamespace "code";;
         when (String.eqb s ATOM_FORMATTING_PARAMETER)
           (writeAttribute "role" "parameter")
       else mret tt);;
      mret 0%nat
  | Atom.FormattingRight =>
      (* the source puts no comment on this call *)
      when (String.eqb s ATOM_FORMATTING_BOLD || String.eqb s ATOM_FORMATTING_ITALIC
            || String.eqb s ATOM_FORMATTING_UNDERLINE
            || String.eqb s ATOM_FORMATTING_SUBSCRIPT
            || String.eqb s ATOM_FORMATTING_SUPERSCRIPT
            || String.eqb s ATOM_FORMATTING_TELETYPE
            || String.eqb s ATOM_FORMATTING_PARAMETER)
        (writeEndElement EmptyString);;
      when (String.eqb s ATOM_FORMATTING_LINK) endLink;;
      mret 0%nat
  | Atom.AnnotatedList | Atom.GeneratedList =>
      emit (GeneratedListing s);;
      mret 0%nat
  | Atom.SinceList =>
      (* Table of contents, should automatically be generated by the
         DocBook processor. *)
      mret 0%nat
  | Atom.LineBreak | Atom.BR | Atom.HR =>
      (* Not supported in DocBook. *)
      mret 0%nat
  | Atom.Image | Atom.InlineImage =>
      let isImage := bool_decide (Atom.type atom = Atom.Image) in
      let tag := if isImage then "mediaobject" else "inlinemediaobject" in
      writeStartElement dbNamespace tag;;
      newLine;;
      let fileName := imageFileName env relative s in
      (if QString.isEmpty fileName then
         writeStartElement dbNamespace "textobject";;
         newLine;;
         writeStartElement dbNamespace "para";;
         writeTextElement dbNamespace "emphasis" ("[Missing image " +:+ s +:+ "]");;
         writeEndElement "para";;
         newLine;;
         writeEndElement "textobject";;
         newLine
       else
         match next with
         | n :: _ =>
             when (negb (QString.isEmpty (Atom.string n)))
               (writeTextElement dbNamespace "alt" (Atom.string n))
         | [] => mret tt
         end;;
         writeStartElement dbNamespace "imageobject";;
         newLine;;
         writeEmptyElement dbNamespace "imagedata";;
         writeAttribute "fileref" fileName;;
         newLine;;
         writeEndElement "imageobject";;
         newLine;;
         setImageFileName relative fileName);;
      writeEndElement "[inline]mediaobject";;
      when isImage newLine;;
      mret 0%nat
  | Atom.ImageText => mret 0%nat
  | Atom.ImportantLeft | Atom.NoteLeft =>
      let tag := if bool_decide (Atom.type atom = Atom.ImportantLeft)
                 then "important" else "note" in
      writeStartElement dbNamespace tag;;
      newLine;;
      writeStartElement dbNamespace "para";;
      mret 0%nat
  | Atom.ImportantRight | Atom.NoteRight =>
      writeEndElement "para";;
      newLine;;
      writeEndElement "note/important";;
      newLine;;
      mret 0%nat
  | Atom.LegaleseLeft | Atom.LegaleseRight => mret 0%nat
  | Atom.Link | Atom.NavLink =>
      let '(link, node) := getLink env atom relative in
      beginLink link node (Some relative);;  (* Ended at Atom::FormattingRight *)
      mret 1%nat
  | Atom.LinkNode =>
      let node := nodeForString env s in
      beginLink (linkForNode env node (Some relative)) node (Some relative);;
      mret 1%nat
  | Atom.ListLeft =>
      p ← get inPara;
      when p (writeEndElement "para";; newLine;; modify (set_inPara false));;
      (if String.eqb s ATOM_LIST_BULLET then
         writeStartElement dbNamespace "itemizedlist";;
         newLine
       else if String.eqb s ATOM_LIST_TAG then
         writeStartElement dbNamespace "variablelist";;
         newLine
       else if String.eqb s ATOM_LIST_VALUE then
         writeStartElement dbNamespace "informaltable";;
         newLine;;
         writeStartElement dbNamespace "thead";;
         newLine;;
         writeStartElement dbNamespace "tr";;
         newLine;;
         writeTextElement dbNamespace "th" "Constant";;
         newLine;;
         let three := isThreeColumnEnumValueTable env atom next in
         modifyFlags (set_threeColumnEnumValueTable_ three);;
         when (three && Node.isEnumType relative)
           (* If not in \enum topic, skip the value column *)
           (writeTextElement dbNamespace "th" "Value";; newLine);;
         writeTextElement dbNamespace "th" "Description";;
         newLine;;
         writeEndElement "tr";;
         newLine;;
         writeEndElement "thead";;
         newLine
       else
         writeStartElement dbNamespace "orderedlist";;
         match next with
         | n :: _ =>
             when (1 <? QString.toInt (Atom.string n))
               (writeAttribute "startingnumber" (Atom.string n))
         | [] => mret tt
         end;;
         (if String.eqb s ATOM_LIST_UPPERALPHA then
            writeAttribute "numeration" "upperalpha"
          else if String.eqb s ATOM_LIST_LOWERALPHA then
            writeAttribute "numeration" "loweralpha"
          else if String.eqb s ATOM_LIST_UPPERROMAN then
            writeAttribute "numeration" "upperroman"
          else if String.eqb s ATOM_LIST_LOWERROMAN then
            writeAttribute "numeration" "lowerroman"
          else (* (atom->string() == ATOM_LIST_NUMERIC) *)
            writeAttribute "numeration" "arabic");;
         newLine);;
      mret 0%nat
  | Atom.ListItemNumber => mret 0%nat
  | Atom.ListTagLeft =>
      if String.eqb s ATOM_LIST_TAG then
        writeStartElement dbNamespace "varlistentry";;
        newLine;;
        writeStartElement dbNamespace "item";;
        mret 0%nat
      else (* (atom->string() == ATOM_LIST_VALUE) *)
        let pair := getAtomListValue env atom next in
        writeStartElement dbNamespace "tr";;
        newLine;;
        writeStartElement dbNamespace "td";;
        newLine;;
        writeStartElement dbNamespace "para";;
        generateEnumValue env pair.1 relative;;
        writeEndElement "para";;
        newLine;;
        writeEndElement "td";;
        newLine;;
        (if Node.isEnumType relative then
           match next with
           | [] => nullDeref
           | n :: _ =>
               let itemValue := itemValue env relative (Atom.string n) in
               writeStartElement dbNamespace "td";;
               (if QString.isEmpty itemValue then writeCharacters "?"
                else writeTextElement dbNamespace "code" itemValue);;
               writeEndElement "td";;
               newLine
           end
         else mret tt);;
        mret pair.2
  | Atom.SinceTagRight | Atom.ListTagRight =>
      when (String.eqb s ATOM_LIST_TAG) (writeEndElement "item";; newLine);;
      mret 0%nat
  | Atom.ListItemLeft =>
      modify (set_inListItemLineOpen false);;
      (if String.eqb s ATOM_LIST_TAG then
         writeStartElement dbNamespace "listitem";;
         newLine;;
         writeStartElement dbNamespace "para"
       else if String.eqb s ATOM_LIST_VALUE then
         f ← get flags;
         when (threeColumnEnumValueTable_ f)
           (if matchAhead next Atom.ListItemRight then
              writeEmptyElement dbNamespace "td";;
              newLine;;
              modify (set_inListItemLineOpen false)
            else
              writeStartElement dbNamespace "td";;
              newLine;;
              modify (set_inListItemLineOpen true))
       else
         writeStartElement dbNamespace "listitem";;
         newLine);;
      (* Don't skip a paragraph, DocBook requires them within list items. *)
      mret 0%nat
  | Atom.ListItemRight =>
      (if String.eqb s ATOM_LIST_TAG then
         writeEndElement "para";;
         newLine;;
         writeEndElement "listitem";;
         newLine;;
         writeEndElement "varlistentry";;
         newLine
       else if String.eqb s ATOM_LIST_VALUE then
         o ← get inListItemLineOpen;
         when o (writeEndElement "td";; newLine;;
                 modify (set_inListItemLineOpen false));;
         writeEndElement "tr";;
         newLine
       else
         writeEndElement "listitem";;
         newLine);;
      mret 0%nat
  | Atom.ListRight =>
      (* Depending on atom->string(), closing a different item:
         - ATOM_LIST_BULLET: itemizedlist
         - ATOM_LIST_TAG: variablelist
         - ATOM_LIST_VALUE: informaltable
         - ATOM_LIST_NUMERIC: orderedlist *)
      writeEndElement
        (if String.eqb s ATOM_LIST_BULLET then "itemizedlist"
         else if String.eqb s ATOM_LIST_TAG then "variablelist"
         else if String.eqb s ATOM_LIST_VALUE then "informaltable"
         else "orderedlist");;
      newLine;;
      mret 0%nat
  | Atom.Nop => mret 0%nat
  | Atom.ParaLeft =>
      writeStartElement dbNamespace "para";;
      modify (set_inPara true);;
      mret 0%nat
  | Atom.ParaRight =>
      endLink;;
      p ← get inPara;
      when p (writeEndElement "para";; newLine;; modify (set_inPara false));;
      mret 0%nat
  | Atom.QuotationLeft =>
      writeStartElement dbNamespace "blockquote";;
      modify (set_inPara true);;
      mret 0%nat
  | Atom.QuotationRight =>
      writeEndElement "blockquote";;
      newLine;;
      mret 0%nat
  | Atom.RawString =>
      writeCharacters s;;
      mret 0%nat
  | Atom.SectionLeft =>
      let level := QString.toInt s + hOffset env relative in
      modify (set_currentSectionLevel level);;
      (* Level 1 is dealt with at the header level (info tag). *)
      when (1 <? level)
        ((* Unfortunately, SectionRight corresponds to the end of any
            section, i.e. going to a new section, even deeper. *)
         levels ← get sectionLevels;
         closeDeeperSections levels level;;
         modify (fun g => set_sectionLevels (level :: sectionLevels g) g);;
         writeStartElement dbNamespace "section";;
         writeAttribute "xml:id" (canonicalTitle env (sectionHeading env atom next));;
         newLine
         (* Unlike startSectionBegin, don't start a title here. *));;
      mret 0%nat
  | Atom.SectionRight =>
      (* All the logic about closing sections is done in the SectionLeft
         case and generateFooter() for the end of the page. *)
      mret 0%nat
  | Atom.SectionHeadingLeft =>
      (* Level 1 is dealt with at the header level (info tag). *)
      l ← get currentSectionLevel;
      when (1 <? l)
        (writeStartElement dbNamespace "title";;
         modifyFlags (set_inSectionHeading_ true));;
      mret 0%nat
  | Atom.SectionHeadingRight =>
      (* Level 1 is dealt with at the header level (info tag). *)
      l ← get currentSectionLevel;
      when (1 <? l)
        (writeEndElement "title";;
         newLine;;
         modifyFlags (set_inSectionHeading_ false));;
      mret 0%nat
  | Atom.SidebarLeft =>
      writeStartElement dbNamespace "sidebar";;
      mret 0%nat
  | Atom.SidebarRight =>
      writeEndElement "sidebar";;
      newLine;;
      mret 0%nat
  | Atom.String =>
      l ← get inLink;
      f ← get flags;
      (if l && negb (inContents_ f) && negb (inSectionHeading_ f)
       then generateLink atom
       else writeCharacters s);;
      mret 0%nat
  | Atom.TableLeft =>
      let pair := getTableWidthAttr env atom in
      let attr := pair.2 in
      let width := pair.1 in
      p ← get inPara;
      when p (writeEndElement "para or blockquote";; newLine;;
              modify (set_inPara false));;
      writeStartElement dbNamespace "informaltable";;
      writeAttribute "style" attr;;
      when (negb (QString.isEmpty width)) (writeAttribute "width" width);;
      newLine;;
      modifyFlags (set_numTableRows_ 0);;
      mret 0%nat
  | Atom.TableRight =>
      writeEndElement "table";;
      newLine;;
      mret 0%nat
  | Atom.TableHeaderLeft =>
      writeStartElement dbNamespace "thead";;
      newLine;;
      writeStartElement dbNamespace "tr";;
      newLine;;
      modifyFlags (set_inTableHeader_ true);;
      mret 0%nat
  | Atom.TableHeaderRight =>
      writeEndElement "tr";;
      newLine;;
      if matchAhead next Atom.TableHeaderLeft then
        writeStartElement dbNamespace "tr";;
        newLine;;
        mret 1%nat
      else
        writeEndElement "thead";;
        newLine;;
        modifyFlags (set_inTableHeader_ false);;
        mret 0%nat
  | Atom.TableRowLeft =>
      writeStartElement dbNamespace "tr";;
      (if QString.isEmpty s then writeAttribute "valign" "top"
       else
         (* Basic parsing of attributes, should be enough. *)
         let args := QString.splitSkipEmptyParts doubleQuote s in
         when (Nat.odd (List.length args))
           ((* Problem... *)
            report (Warning (DocLocation relative) (TableAttributesError s)));;
         emitAll (tableRowAttributes args));;
      newLine;;
      mret 0%nat
  | Atom.TableRowRight =>
      writeEndElement "tr";;
      newLine;;
      mret 0%nat
  | Atom.TableItemLeft =>
      f ← get flags;
      writeStartElement dbNamespace (if inTableHeader_ f then "th" else "td");;
      forEach (Atom.strs atom) (fun p => emitAll (tableItemAttributes p));;
      newLine;;
      (* No skipahead, as opposed to HTML: in DocBook, the text must be
         wrapped in paragraphs. *)
      mret 0%nat
  | Atom.TableItemRight =>
      writeEndElement "th if inTableHeader_, otherwise td";;
      newLine;;
      mret 0%nat
  | Atom.TableOfContents => mret 0%nat
  | Atom.Keyword => mret 0%nat
  | Atom.Target =>
      writeAnchor (canonicalTitle env s);;
      mret 0%nat
  | Atom.UnhandledFormat =>
      writeStartElement dbNamespace "emphasis";;
      writeAttribute "role" "bold";;
      writeCharacters "&lt;Missing DocBook&gt;";;
      writeEndElement "emphasis";;
      mret 0%nat
  | Atom.UnknownCommand =>
      writeStartElement dbNamespace "emphasis";;
      writeAttribute "role" "bold";;
      writeCharacters "&lt;Unknown command&gt;";;
      writeStartElement dbNamespace "code";;
      writeCharacters s;;
      writeEndElement "code";;
      writeEndElement "emphasis";;
      mret 0%nat
  | Atom.QmlText | Atom.EndQmlText =>
      (* don't do anything with these. They are just tags. *)
      mret 0%nat
  | Atom.CodeQuoteArgument | Atom.CodeQuoteCommand | Atom.SnippetCommand
  | Atom.SnippetIdentifier | Atom.SnippetLocation =>
      (* no output (ignore) *)
      mret 0%nat
  | Atom.Unlisted =>
      unknownAtom atom;;
      mret 0%nat
  end.

(** ** The walk over the atom chain *)

(** [while (n-- > 0) atom = atom->next();] entered with a non-null atom:
    reading [next()] of a null pointer has no result. *)
Fixpoint advance (n : nat) (atoms : list Atom.Atom) : option (list Atom.Atom) :=
  match n with
  | O => Some atoms
  | S k =>
      match atoms with
      | [] => None
      | _ :: next => advance k next
      end
  end.

(** [DocBookGenerator::generateAtomList].  The result is the returned
    atom, as the chain that starts there (the empty chain is [nullptr]),
    and the value left in [numAtoms].  [fuel] bounds the depth of the
    recursion plus the number of iterations; [generateText] supplies
    more than the walk can use. *)
Fixpoint generateAtomList (fuel : nat) (atoms : list Atom.Atom) (relative : Node.Node)
    (generate : bool) (numAtoms : Z) : M (list Atom.Atom * Z) :=
  match fuel with
  | O => fun _ => OutOfFuel
  | S fuel =>
      match atoms with
      | [] => mret ([], numAtoms)
      | atom :: next =>
          match Atom.type atom with
          | Atom.FormatIf =>
              let numAtoms0 := numAtoms in
              r ← generateAtomList fuel next relative generate numAtoms;
              match r with
              | ([], numAtoms) => mret ([], numAtoms)
              | (atom1 :: next1, numAtoms) =>
                  r ← (if bool_decide (Atom.type atom1 = Atom.FormatElse)
                       then generateAtomList fuel next1 relative false (numAtoms + 1)
                       else mret (atom1 :: next1, numAtoms));
                  match r with
                  | ([], numAtoms) => mret ([], numAtoms)
                  | (atom2 :: next2, numAtoms) =>
                      if bool_decide (Atom.type atom2 = Atom.FormatEndif) then
                        numAtoms ←
                          (if generate && (numAtoms0 =? numAtoms) then
                             report (Warning (NodeLocation relative)
                                       (OutputFormatNotHandled format (outFileName env)));;
                             let unhandledFormatAtom :=
                               Atom.make Atom.UnhandledFormat format in
                             r ← generateAtomList fuel [unhandledFormatAtom]
                                   relative generate numAtoms;
                             mret r.2
                           else mret numAtoms);
                        generateAtomList fuel next2 relative generate numAtoms
                      else
                        generateAtomList fuel (atom2 :: next2) relative generate numAtoms
                  end
              end
          | Atom.FormatElse | Atom.FormatEndif => mret (atom :: next, numAtoms)
          | _ =>
              n ← (if generate
                   then skipAhead ← generateAtom atom next relative;
                        mret (1 + skipAhead)%nat
                   else mret 1%nat);
              let numAtoms := if generate then numAtoms + Z.of_nat n else numAtoms in
              match advance n (atom :: next) with
              | None => nullDeref
              | Some atoms => generateAtomList fuel atoms relative generate numAtoms
              end
          end
      end
  end.

(** [DocBookGenerator::closeTextSections] *)
Fixpoint closeSections (levels : list Z) : M unit :=
  match levels with
  | _ :: below =>
      modify (set_sectionLevels below);;   (* sectionLevels.pop() *)
      endSection;;
      closeSections below
  | [] => mret tt
  end.

Definition closeTextSections : M unit :=
  levels ← get sectionLevels;
  closeSections levels.

(** [Generator::initializeTextOutput], a member of the base class: it can
    reach the flags that the base class owns, and neither the members of
    [DocBookGenerator] nor the static local [inPara] of [generateAtom]. *)
Definition initializeTextOutput : M unit :=
  modifyFlags (initializeTextOutputFlags env).

(** [DocBookGenerator::generateText] *)
Definition generateText (text : list Atom.Atom) (relative : Node.Node) : M bool :=
  match text with
  | [] => mret false
  | _ :: _ =>
      let numAtoms := 0 in
      initializeTextOutput;;
      generateAtomList (S (List.length text)) text relative true numAtoms;;
      closeTextSections;;
      mret true
  end.

(** [DocBookGenerator::generateFooter] *)
Definition generateFooter : M unit :=
  closeTextSections;;
  writeEndElement "article".

End Interpreter.

(** ** A sample documentation database

    Concrete collaborators, used to run the interpreter on examples.  The
    database is a table from link targets to nodes. *)

Module Sample.

Definition lookup (db : list (string * Node.Node)) (target : string)
  : option Node.Node :=
  match List.find (fun e => String.eqb e.1 target) db with
  | Some e => Some e.2
  | None => None
  end.

Definition link (db : list (string * Node.Node)) (target : string)
  : string * option Node.Node :=
  match lookup db target with
  | Some n => (Node.name n +:+ ".xml", Some n)
  | None => (EmptyString, None)
  end.

(** The number of atoms after [atom] and before the first one of the
    given type. *)
Fixpoint countUntil (next : list Atom.Atom) (type : Atom.AtomType) : nat :=
  match next with
  | [] => 0
  | a :: r => if bool_decide (Atom.type a = type) then 0 else S (countUntil r type)
  end.

(** A value list has a description column when one of its items is not
    empty; the scan stops at the end of the list. *)
Fixpoint hasDescription (atoms : list Atom.Atom) : bool :=
  match atoms with
  | [] => false
  | a :: r =>
      if bool_decide (Atom.type a = Atom.ListRight)
         && String.eqb (Atom.string a) ATOM_LIST_VALUE then false
      else if bool_decide (Atom.type a = Atom.ListItemLeft)
              && negb (matchAhead r Atom.ListItemRight) then true
      else hasDescription r
  end.

(** The name of the enum value is the string of the atom after the tag
    atom, which is skipped. *)
Definition valueName (next : list Atom.Atom) : string * nat :=
  match next with
  | n :: _ => (Atom.string n, 1%nat)
  | [] => (EmptyString, 1%nat)
  end.

(** The strings of the atoms between the heading markers that follow. *)
Fixpoint headingText (inside : bool) (atoms : list Atom.Atom) : string :=
  match atoms with
  | [] => EmptyString
  | a :: r =>
      if inside then
        if bool_decide (Atom.type a = Atom.SectionHeadingRight) then EmptyString
        else Atom.string a +:+ headingText true r
      else headingText (bool_decide (Atom.type a = Atom.SectionHeadingLeft)) r
  end.

Definition env (db : list (string * Node.Node)) (values : list (string * string))
  : Collaborators :=
  {| hasBrief := fun _ => true;
     skipAtoms := fun _ next type => countUntil next type;
     plainCode := fun s => s;
     getAutoLink := fun atom _ => link db (Atom.string atom);
     getLink := fun atom _ => link db (Atom.string atom);
     linkForNode := fun node _ =>
       match node with Some n => Node.name n +:+ ".xml" | None => EmptyString end;
     nodeForString := lookup db;
     imageFileName := fun _ _ => EmptyString;
     isThreeColumnEnumValueTable := fun atom next =>
       hasDescription (atom :: next);
     getAtomListValue := fun _ next => valueName next;
     itemValue := fun _ name =>
       match List.find (fun e => String.eqb e.1 name) values with
       | Some e => e.2
       | None => EmptyString
       end;
     getTableWidthAttr := fun _ => (EmptyString, "generic");
     hOffset := fun _ => 0;
     canonicalTitle := fun s => s;
     sectionHeading := fun _ next => headingText false next;
     taggedNode := Node.name;
     outFileName := "index.xml";
     initializeTextOutputFlags := fun _ => mkFlags false false false 0 true |}.

Definition noFlags : TextOutputFlags := mkFlags false false false 0 false.

(** The generator when a document has just been opened. *)
Definition fresh : Generator :=
  mkGenerator [] [] noFlags false false 0 [] ∅ [] false.

Definition page : Node.Node := Node.mk 1 "index" Node.Page Node.Active None.

(** A class that is in use, and a member of it that is obsolete. *)
Definition namespace : Node.Node := Node.mk 2 "Qt" Node.Namespace Node.Active None.
Definition widget : Node.Node :=
  Node.mk 3 "Widget" Node.Class Node.Active (Some namespace).
Definition oldMember : Node.Node :=
  Node.mk 4 "oldMember" Node.Function Node.Obsolete (Some widget).

(** An obsolete class, and a member of it that is in use. *)
Definition oldWidget : Node.Node :=
  Node.mk 5 "OldWidget" Node.Class Node.Obsolete (Some namespace).
Definition member : Node.Node :=
  Node.mk 6 "member" Node.Function Node.Active (Some oldWidget).

(** An enum of the class in use. *)
Definition color : Node.Node :=
  Node.mk 7 "Color" Node.Enum Node.Active (Some widget).

Definition database : list (string * Node.Node) :=
  [("oldMember", oldMember); ("OldWidget", oldWidget)].

(** Two sections whose headings have the same text. *)
Definition twoIntros : list Atom.Atom :=
  [Atom.make Atom.SectionLeft "2"; Atom.make Atom.SectionHeadingLeft EmptyString;
   Atom.make Atom.String "Intro"; Atom.make Atom.SectionHeadingRight EmptyString;
   Atom.make Atom.SectionRight "2";
   Atom.make Atom.SectionLeft "2"; Atom.make Atom.SectionHeadingLeft EmptyString;
   Atom.make Atom.String "Intro"; Atom.make Atom.SectionHeadingRight EmptyString;
   Atom.make Atom.SectionRight "2"].

(** Two nested sections and a paragraph, none of them closed. *)
Definition unterminatedSections : list Atom.Atom :=
  [Atom.make Atom.SectionLeft "2"; Atom.make Atom.ParaLeft EmptyString;
   Atom.make Atom.SectionLeft "3"].

End Sample.

(** ** Observations on the writer calls *)

(** The number of calls that open, respectively close, an element of the
    given name. *)
Definition opensElement (name : string) (c : WriterCall) : bool :=
  match c with
  | StartElement _ n => String.eqb n name
  | _ => false
  end.

Definition closesElement (name : string) (c : WriterCall) : bool :=
  match c with
  | EndElement n => String.eqb n name
  | _ => false
  end.

Definition opens (name : string) (calls : list WriterCall) : nat :=
  List.length (List.filter (opensElement name) calls).

Definition closes (name : string) (calls : list WriterCall) : nat :=
  List.length (List.filter (closesElement name) calls).

Definition isAttribute (c : WriterCall) : bool :=
  match c with
  | Attribute _ _ => true
  | _ => false
  end.

(** A table cell: an opened or empty [td] or [th], or a [th] written with
    its text. *)
Definition isCell (c : WriterCall) : bool :=
  match c with
  | StartElement _ n | EmptyElement _ n | TextElement _ n _ =>
      String.eqb n "td" || String.eqb n "th"
  | _ => false
  end.

Definition cellCount (calls : list WriterCall) : nat :=
  List.length (List.filter isCell calls).

(** The number of cells of each table row, in the order of the rows: a row
    runs from the call that opens a [tr] to the next call that closes one. *)
Fixpoint rowCells (current : option nat) (calls : list WriterCall) : list nat :=
  match calls with
  | [] => []
  | c :: rest =>
      if opensElement "tr" c then rowCells (Some 0%nat) rest
      else if closesElement "tr" c then
        match current with
        | Some n => n :: rowCells None rest
        | None => rowCells None rest
        end
      else if isCell c then rowCells (option_map S current) rest
      else rowCells current rest
  end.

(** A call that neither opens or closes a row nor is a cell. *)
Definition rowNeutral (c : WriterCall) : bool :=
  negb (opensElement "tr" c) && negb (closesElement "tr" c) && negb (isCell c).

(** [m], run in [g], returns [a] in [g'] after making the calls [out]. *)
Definition emits {A : Type} (m : M A) (g : Generator) (a : A)
    (out : list WriterCall) (g' : Generator) : Prop :=
  m g = Done (a, g') /\ writer g' = writer g ++ out.

(** [m] keeps the invariant [I] whenever it returns; it may dereference a
    null pointer, and it does not depend on the recursion budget. *)
Definition preserves (I : Generator -> Prop) {A : Type} (m : M A) : Prop :=
  forall g, I g ->
    match m g with
    | Done (_, g') => I g'
    | NullDeref => True
    | OutOfFuel => False
    end.

(** The writer of [g] holds the calls [before], followed by further calls. *)
Definition extendsWriter (before : list WriterCall) (g : Generator) : Prop :=
  exists out, writer g = before ++ out.

(** [h] is [g] after further calls on the writer, which neither open or
    close a row nor are cells: [before] and those calls make the writer of
    [h], and nothing else differs. *)
Definition wroteNeutrally (g : Generator) (before : list WriterCall) (h : Generator)
  : Prop :=
  exists out, h = set_writer (before ++ out) g
              /\ Forall (fun c => rowNeutral c = true) out.

(** The level of nesting that the section calls made so far leave open. *)
Definition sectionDepth (calls : list WriterCall) : Z :=
  Z.of_nat (opens "section" calls) - Z.of_nat (closes "section" calls).

(** The sections that the writer has open beyond [base] are those of the
    stack. *)
Definition sectionsMatchStack (base : Z) (g : Generator) : Prop :=
  sectionDepth (writer g) = base + Z.of_nat (List.length (sectionLevels g)).

(** The two branches of the switch of [generateAtomList] that recurse, as
    functions of the recursive call [walk]: they state how one iteration of
    the loop unfolds. *)
Section Branches.

Variable env : Collaborators.
Variable walk :
  list Atom.Atom -> Node.Node -> bool -> Z -> M (list Atom.Atom * Z).

Definition formatIfCase (next : list Atom.Atom) (relative : Node.Node)
    (generate : bool) (numAtoms0 : Z) : M (list Atom.Atom * Z) :=
  r ← walk next relative generate numAtoms0;
  match r with
  | ([], numAtoms) => mret ([], numAtoms)
  | (atom1 :: next1, numAtoms) =>
      r ← (if bool_decide (Atom.type atom1 = Atom.FormatElse)
           then walk next1 relative false (numAtoms + 1)
           else mret (atom1 :: next1, numAtoms));
      match r with
      | ([], numAtoms) => mret ([], numAtoms)
      | (atom2 :: next2, numAtoms) =>
          if bool_decide (Atom.type atom2 = Atom.FormatEndif) then
            numAtoms ←
              (if generate && (numAtoms0 =? numAtoms) then
                 report (Warning (NodeLocation relative)
                           (OutputFormatNotHandled format (outFileName env)));;
                 r ← walk [Atom.make Atom.UnhandledFormat format]
                       relative generate numAtoms;
                 mret r.2
               else mret numAtoms);
            walk next2 relative generate numAtoms
          else
            walk (atom2 :: next2) relative generate numAtoms
      end
  end.

Definition otherAtomCase (atom : Atom.Atom) (next : list Atom.Atom)
    (relative : Node.Node) (generate : bool) (numAtoms : Z)
  : M (list Atom.Atom * Z) :=
  n ← (if generate
       then skipAhead ← generateAtom env atom next relative;
            mret (1 + skipAhead)%nat
       else mret 1%nat);
  let numAtoms := if generate then numAtoms + Z.of_nat n else numAtoms in
  match advance n (atom :: next) with
  | None => nullDeref
  | Some atoms => walk atoms relative generate numAtoms
  end.

End Branches.

(** The atoms at which [generateAtomList] returns to its caller. *)
Definition isBranchEnd (t : Atom.AtomType) : bool :=
  bool_decide (t = Atom.FormatElse) || bool_decide (t = Atom.FormatEndif).

(** The atoms that [generateAtomList] interprets itself. *)
Definition isControl (t : Atom.AtomType) : bool :=
  bool_decide (t = Atom.FormatIf) || isBranchEnd t.

(** The calls that close [n] sections. *)
Definition sectionCloses (n : nat) : list WriterCall :=
  List.concat (List.repeat [EndElement "section"; Characters newline] n).

(** The level of a section-begin atom: the declared level plus the offset
    of the context node. *)
Definition effectiveLevel (env : Collaborators) (atom : Atom.Atom)
    (relative : Node.Node) : Z :=
  QString.toInt (Atom.string atom) + hOffset env relative.

(** The calls that open the section of a section-begin atom. *)
Definition sectionOpen (env : Collaborators) (atom : Atom.Atom)
    (next : list Atom.Atom) : list WriterCall :=
  [StartElement dbNamespace "section";
   Attribute "xml:id" (canonicalTitle env (sectionHeading env atom next));
   Characters newline].

(** The stack that a section-begin at [level] leaves: the levels at or
    above [level] are popped from the top, then [level] is pushed. *)
Fixpoint remainingLevels (level : Z) (levels : list Z) : list Z :=
  match levels with
  | top :: below => if level <=? top then remainingLevels level below else levels
  | [] => []
  end.

Definition pushLevel (levels : list Z) (level : Z) : list Z :=
  level :: remainingLevels level levels.

(** The identifiers that the calls write as [xml:id] attributes. *)
Fixpoint anchorIds (calls : list WriterCall) : list string :=
  match calls with
  | [] => []
  | Attribute qualifiedName value :: rest =>
      if String.eqb qualifiedName "xml:id" then value :: anchorIds rest
      else anchorIds rest
  | _ :: rest => anchorIds rest
  end.

(** The calls that stand for content that is missing for this format. *)
Definition unhandledFormatMarker : list WriterCall :=
  [StartElement dbNamespace "emphasis"; Attribute "role" "bold";
   Characters "&lt;Missing DocBook&gt;"; EndElement "emphasis"].

(** The generator after the fallback of an unhandled conditional block: the
    warning has been reported and the marker written. *)
Definition afterUnhandledFormat (env : Collaborators) (relative : Node.Node)
    (g : Generator) : Generator :=
  set_writer (writer g ++ unhandledFormatMarker)
    (set_diagnostics
       (diagnostics g
        ++ [Warning (NodeLocation relative)
              (OutputFormatNotHandled format (outFileName env))]) g).

(** What a walk that returned tells about its counter: the counter did not
    decrease; a chain is returned at a branch end only; and, when
    generating, the counter has increased unless the walk stopped at once
    or ran to the end of the chain from a conditional block. *)
Definition counted (atoms : list Atom.Atom) (generate : bool) (numAtoms : Z)
    (stop : list Atom.Atom) (numAtoms' : Z) : Prop :=
  numAtoms <= numAtoms'
  /\ (forall atom rest, stop = atom :: rest -> isBranchEnd (Atom.type atom) = true)
  /\ (generate = true ->
      forall atom next, atoms = atom :: next ->
        isControl (Atom.type atom) = false
        \/ (isBranchEnd (Atom.type atom) = false /\ stop <> []) ->
        numAtoms < numAtoms').

(** The atoms that make the text of a description. *)
Definition isProse (t : Atom.AtomType) : bool :=
  bool_decide (t = Atom.String) || bool_decide (t = Atom.ParaLeft)
  || bool_decide (t = Atom.ParaRight).

(** The atoms of one item of a value list: the tag with the name of the
    value, and the description. *)
Definition valueItem (item : string * list Atom.Atom) : list Atom.Atom :=
  [Atom.make Atom.ListTagLeft ATOM_LIST_VALUE; Atom.make Atom.String item.1;
   Atom.make Atom.ListTagRight ATOM_LIST_VALUE;
   Atom.make Atom.ListItemLeft ATOM_LIST_VALUE]
  ++ item.2
  ++ [Atom.make Atom.ListItemRight ATOM_LIST_VALUE].

Definition valueItems (items : list (string * list Atom.Atom)) : list Atom.Atom :=
  List.concat (List.map valueItem items).

(** The number of atoms of an item that the walk hands to the dispatcher:
    the atom with the name is skipped. *)
Definition valueItemSteps (item : string * list Atom.Atom) : nat :=
  4 + List.length item.2.

Definition valueItemsSteps (items : list (string * list Atom.Atom)) : nat :=
  list_sum (List.map valueItemSteps items).

(** The atoms of a value list. *)
Definition valueList (items : list (string * list Atom.Atom)) : list Atom.Atom :=
  Atom.make Atom.ListLeft ATOM_LIST_VALUE
  :: valueItems items ++ [Atom.make Atom.ListRight ATOM_LIST_VALUE].

(** The values of [Sample.color]: the first has a description and a
    literal value, the second has neither. *)
Definition colorValues : list (string * list Atom.Atom) :=
  [("Red", [Atom.make Atom.ParaLeft EmptyString; Atom.make Atom.String "The colour red.";
            Atom.make Atom.ParaRight EmptyString]);
   ("Green", [])].

Definition colorLiterals : list (string * string) := [("Red", "0")].

(** The calls that close the paragraph that a list interrupts. *)
Definition closeParagraph (g : Generator) : list WriterCall :=
  if inPara g then [EndElement "para"; Characters newline] else [].

(** The calls of the handlers of a value list. *)
Definition valueListHeader (valueColumn : bool) : list WriterCall :=
  [StartElement dbNamespace "informaltable"; Characters newline;
   StartElement dbNamespace "thead"; Characters newline;
   StartElement dbNamespace "tr"; Characters newline;
   TextElement dbNamespace "th" "Constant"; Characters newline]
  ++ (if valueColumn
      then [TextElement dbNamespace "th" "Value"; Characters newline] else [])
  ++ [TextElement dbNamespace "th" "Description"; Characters newline;
      EndElement "tr"; Characters newline;
      EndElement "thead"; Characters newline].

Definition valueCell (itemValue : string) : list WriterCall :=
  [StartElement dbNamespace "td";
   (if QString.isEmpty itemValue then Characters "?"
    else TextElement dbNamespace "code" itemValue);
   EndElement "td"; Characters newline].

Definition nameCellOpen : list WriterCall :=
  [StartElement dbNamespace "tr"; Characters newline;
   StartElement dbNamespace "td"; Characters newline;
   StartElement dbNamespace "para"].

Definition nameCellClose : list WriterCall :=
  [EndElement "para"; Characters newline; EndElement "td"; Characters newline].

Definition descriptionCellOpen (empty : bool) : list WriterCall :=
  if empty then [EmptyElement dbNamespace "td"; Characters newline]
  else [StartElement dbNamespace "td"; Characters newline].

Definition rowClose (cellOpen : bool) : list WriterCall :=
  (if cellOpen then [EndElement "td"; Characters newline] else [])
  ++ [EndElement "tr"; Characters newline].

Definition isEmptyList {A : Type} (l : list A) : bool :=
  match l with
  | [] => true
  | _ :: _ => false
  end.

(** The calls of one row of a three-column value list of an enum: the cell
    of the name, the cell of the value, and the cell of the description,
    which is an empty element when the item has no description. *)
Definition rendersItem (env : Collaborators) (relative : Node.Node)
    (item : string * list Atom.Atom) (row : list WriterCall) : Prop :=
  exists name description,
    Forall (fun c => rowNeutral c = true) name
    /\ Forall (fun c => rowNeutral c = true) description
    /\ row = nameCellOpen ++ name ++ nameCellClose
             ++ valueCell (itemValue env relative item.1)
             ++ descriptionCellOpen (isEmptyList item.2)
             ++ description
             ++ rowClose (negb (isEmptyList item.2)).

(** [h] is [g] after calls that neither open or close a row nor are cells,
    with the table flags and the flag of the open cell unchanged. *)
Definition keepsRow (g h : Generator) : Prop :=
  flags h = flags g
  /\ inListItemLineOpen h = inListItemLineOpen g
  /\ exists out, writer h = writer g ++ out
                 /\ Forall (fun c => rowNeutral c = true) out.

(** The calls that open an element and leave it open, and the calls that
    close the innermost open element. *)
Definition isStart (c : WriterCall) : bool :=
  match c with
  | StartElement _ _ => true
  | _ => false
  end.

Definition isEnd (c : WriterCall) : bool :=
  match c with
  | EndElement _ => true
  | _ => false
  end.

Definition starts (calls : list WriterCall) : nat :=
  List.length (List.filter isStart calls).

Definition ends (calls : list WriterCall) : nat :=
  List.length (List.filter isEnd calls).

(** The number of elements that the calls leave open; it is negative when
    they close elements that they did not open. *)
Definition nesting (calls : list WriterCall) : Z :=
  Z.of_nat (starts calls) - Z.of_nat (ends calls).

(** The character data that the calls write, in order. *)
Fixpoint characters (calls : list WriterCall) : string :=
  match calls with
  | [] => EmptyString
  | Characters text :: rest => text +:+ characters rest
  | TextElement _ _ text :: rest => text +:+ characters rest
  | _ :: rest => characters rest
  end.

(** The test of the [AutoLink] case that clears the link to an obsolete
    node. *)
Definition autoLinkCleared (link : string) (node : option Node.Node)
    (relative : Node.Node) : bool :=
  negb (QString.isEmpty link)
  && match node with
     | Some n =>
         Node.status_eqb (Node.status n) Node.Obsolete
         && negb (Node.same (Node.parent relative) node)
     | None => false
     end
  && negb (Node.isObsolete relative).

(** The formattings that [FormattingRight] closes with an end-element
    call. *)
Definition isElementFormatting (s : string) : bool :=
  String.eqb s ATOM_FORMATTING_BOLD || String.eqb s ATOM_FORMATTING_ITALIC
  || String.eqb s ATOM_FORMATTING_UNDERLINE
  || String.eqb s ATOM_FORMATTING_SUBSCRIPT
  || String.eqb s ATOM_FORMATTING_SUPERSCRIPT
  || String.eqb s ATOM_FORMATTING_TELETYPE
  || String.eqb s ATOM_FORMATTING_PARAMETER.

(** A database in which the name of a function, written with its
    parentheses, resolves to an obsolete member. *)
Definition callDatabase : list (string * Node.Node) :=
  [("clear()", Sample.oldMember)].

(** The section levels of a stack are nested: each exceeds 1, and each
    level is deeper than the one below it on the stack. *)
Fixpoint strictlyNested (levels : list Z) : bool :=
  match levels with
  | [] => true
  | top :: below =>
      (1 <? top)
      && match below with
         | [] => true
         | next :: _ => next <? top
         end
      && strictlyNested below
  end.

(** The number of nodes above a node. *)
Fixpoint depth (n : Node.Node) : nat :=
  match n with
  | Node.mk _ _ _ _ None => 0
  | Node.mk _ _ _ _ (Some p) => S (depth p)
  end.

(** Each node of the list is the parent of the next one. *)
Fixpoint isScopeChain (scopes : list Node.Node) : Prop :=
  match scopes with
  | outer :: ((inner :: _) as rest) =>
      Node.parent inner = Some outer /\ isScopeChain rest
  | _ => True
  end.

(** The text that qualifies a name with the given scopes. *)
Definition qualification (env : Collaborators) (scopes : list Node.Node) : string :=
  String.concat EmptyString
    (List.map (fun scope => taggedNode env scope +:+ "::") scopes).

(** An enum nested in a class that is nested in a namespace of the root. *)
Definition root : Node.Node := Node.mk 10 EmptyString Node.Namespace Node.Active None.
Definition nestedNamespace : Node.Node :=
  Node.mk 11 "Qt" Node.Namespace Node.Active (Some root).
Definition nestedClass : Node.Node :=
  Node.mk 12 "Widget" Node.Class Node.Active (Some nestedNamespace).
Definition nestedEnum : Node.Node :=
  Node.mk 13 "Shape" Node.Enum Node.Active (Some nestedClass).

(** ** Type names in synopses

    [typified] reads a signature character by character.  What it asks of
    [QChar] and of the documentation database is taken as given. *)

Record Typifier : Type := mkTypifier {
  (* QChar::toLower *)
  toLower : ascii -> ascii;
  (* QChar::digitValue *)
  digitValue : ascii -> Z;
  (* qdb_->findTypeNode(word, relative, Node::DontCare) *)
  findTypeNode : string -> option Node.Node -> option Node.Node;
  (* n->isQmlBasicType() || n->isJsBasicType() *)
  isBasicType : Node.Node -> bool;
  (* relative->genus() == n->genus() *)
  sameGenus : Node.Node -> Node.Node -> bool;
  (* Node::DontCare == n->genus() *)
  genusDontCare : Node.Node -> bool
}.

(** [QString::endsWith(QChar)] *)
Fixpoint endsWith (c : ascii) (s : string) : bool :=
  match s with
  | EmptyString => false
  | String d EmptyString => Ascii.eqb d c
  | String _ rest => endsWith c rest
  end.

Section Typified.

Variable env : Collaborators.
Variable t : Typifier.

(** The test that adds a character to the pending word. *)
Definition isWordChar (ch : ascii) : bool :=
  let lower := toLower t ch in
  (Nat.leb (nat_of_ascii "a") (nat_of_ascii lower)
   && Nat.leb (nat_of_ascii lower) (nat_of_ascii "z"))
  || (0 <=? digitValue t ch)
  || Ascii.eqb ch "_" || Ascii.eqb ch ":".

(** The switch on [ch.unicode()]: what a character that ends a word adds
    to the buffer.  The null character stands for the end of the string. *)
Definition escapeChar (ch : ascii) : string :=
  if Ascii.eqb ch "000" then EmptyString
  else if Ascii.eqb ch "&" then "&amp;"
  else if Ascii.eqb ch "<" then "&lt;"
  else if Ascii.eqb ch ">" then "&gt;"
  else if Ascii.eqb ch "'" then "&apos;"
  else if Ascii.eqb ch doubleQuote then "&quot;"
  else String ch EmptyString.

(** The link of a type name: [href] stays empty for a basic type of
    another genus than the context node. *)
Definition typeHref (pendingWord : string) (relative : option Node.Node) : string :=
  let n := findTypeNode t pendingWord relative in
  if match n with
     | Some n' =>
         negb (isBasicType t n')
         || match relative with
            | Some r => sameGenus t r n' || genusDontCare t n'
            | None => false
            end
     | None => true
     end
  then linkForNode env n relative
  else EmptyString.

(** The end of a word: the word goes to the buffer, or the buffer is
    flushed and the word written as a type.  The result is the buffer. *)
Definition typifiedWord (pendingWord : string) (relative : option Node.Node)
    (generateType : bool) (result : string) : M string :=
  if negb (QString.isEmpty pendingWord) then
    let isProbablyType := negb (String.eqb pendingWord "const") in
    if generateType && isProbablyType then
      (* Flush the current buffer. *)
      writeCharacters result;;
      let href := typeHref pendingWord relative in
      writeStartElement dbNamespace "type";;
      (if QString.isEmpty href then writeCharacters pendingWord
       else generateSimpleLink href pendingWord);;
      writeEndElement "type";;
      mret EmptyString
    else mret (result +:+ pendingWord)
  else mret result.

(** One iteration of the loop, on the character [ch]; the state is the
    buffer [result] and [pendingWord]. *)
Definition typifiedStep (relative : option Node.Node) (generateType : bool)
    (ch : ascii) (state : string * string) : M (string * string) :=
  let '(result, pendingWord) := state in
  if isWordChar ch then mret (result, pendingWord +:+ String ch EmptyString)
  else
    result ← typifiedWord pendingWord relative generateType result;
    mret (result +:+ escapeChar ch, EmptyString).

(** [for (int i = 0; i <= string.size(); ++i)]: the last iteration is on the
    null character. *)
Fixpoint typifiedLoop (relative : option Node.Node) (generateType : bool)
    (chars : string) (state : string * string) : M (string * string) :=
  match chars with
  | EmptyString => typifiedStep relative generateType "000" state
  | String ch rest =>
      state ← typifiedStep relative generateType ch state;
      typifiedLoop relative generateType rest state
  end.

(** [DocBookGenerator::typified] *)
Definition typified (string : String.string) (relative : option Node.Node)
    (trailingSpace generateType : bool) : M unit :=
  state ← typifiedLoop relative generateType string (EmptyString, EmptyString);
  let result := state.1 in
  let result :=
    if trailingSpace && negb (QString.isEmpty string) then
      if negb (endsWith "*" string) && negb (endsWith "&" string)
      then result +:+ " " else result
    else result in
  writeCharacters result.

End Typified.

(** The text that [typified] sends to the writer for a string: the
    characters of words as they are, the other characters as the switch
    rewrites them. *)
Fixpoint escapedText (t : Typifier) (s : string) : string :=
  match s with
  | EmptyString => EmptyString
  | String ch rest =>
      (if isWordChar t ch then String ch EmptyString else escapeChar ch)
      +:+ escapedText t rest
  end.

(** The space that [typified] adds after a type. *)
Definition trailing (trailingSpace : bool) (s : string) : string :=
  if trailingSpace && negb (QString.isEmpty s)
     && negb (endsWith "*" s) && negb (endsWith "&" s)
  then " " else EmptyString.

(** The words of a string: the maximal runs of word characters;
    [pending] is the run that the characters before have begun. *)
Fixpoint wordsFrom (t : Typifier) (chars : string) (pending : string) : list string :=
  match chars with
  | EmptyString => if QString.isEmpty pending then [] else [pending]
  | String ch rest =>
      if isWordChar t ch then wordsFrom t rest (pending +:+ String ch EmptyString)
      else (if QString.isEmpty pending then [] else [pending]) ++ wordsFrom t rest EmptyString
  end.

Definition typeWords (t : Typifier) (s : string) : list string :=
  List.filter (fun word => negb (String.eqb word "const")) (wordsFrom t s EmptyString).

(** [QChar] on the ASCII letters and digits, and a database that knows one
    class. *)
Definition asciiLower (ch : ascii) : ascii :=
  let n := nat_of_ascii ch in
  if Nat.leb 65 n && Nat.leb n 90 then ascii_of_nat (n + 32) else ch.

Definition asciiTypifier : Typifier :=
  {| toLower := asciiLower;
     digitValue := fun ch => match QString.digit ch with Some d => d | None => -1 end;
     findTypeNode := fun word _ => Sample.lookup [("Widget", Sample.widget)] word;
     isBasicType := fun _ => false;
     sameGenus := fun _ _ => true;
     genusDontCare := fun _ => false |}.

(** The character data of the [type] elements that the calls write, one
    string for each element, in order; [inside] holds the data of the
    element that is open. *)
Fixpoint typeContents (inside : option string) (calls : list WriterCall) : list string :=
  match calls with
  | [] => []
  | c :: rest =>
      match inside with
      | None =>
          if opensElement "type" c then typeContents (Some EmptyString) rest
          else typeContents None rest
      | Some text =>
          if closesElement "type" c then text :: typeContents None rest
          else typeContents (Some (text +:+ characters [c])) rest
      end
  end.

(** ** QML text *)

Section QmlText.

Variable env : Collaborators.

(** The two loops of [generateQmlText].  [inside] tells the inner loop,
    which hands the atoms between a [QmlText] atom and the next
    [EndQmlText] atom to [generateAtom]; the outer loop skips every other
    atom.  The inner loop leaves the [EndQmlText] atom to the outer loop.
    [fuel] bounds the number of iterations. *)
Fixpoint qmlTextLoop (fuel : nat) (inside : bool) (atoms : list Atom.Atom)
    (relative : Node.Node) : M unit :=
  match fuel with
  | O => fun _ => OutOfFuel
  | S fuel =>
      match atoms with
      | [] => mret tt
      | atom :: next =>
          if inside then
            if bool_decide (Atom.type atom = Atom.EndQmlText) then
              qmlTextLoop fuel false (atom :: next) relative
            else
              skipAhead ← generateAtom env atom next relative;
              match advance (1 + skipAhead) (atom :: next) with
              | None => nullDeref
              | Some atoms => qmlTextLoop fuel true atoms relative
              end
          else if bool_decide (Atom.type atom = Atom.QmlText) then
            qmlTextLoop fuel true next relative
          else
            qmlTextLoop fuel false next relative
      end
  end.

(** [DocBookGenerator::generateQmlText] *)
Definition generateQmlText (text : list Atom.Atom) (relative : Node.Node) : M bool :=
  match text with
  | [] => mret false
  | _ :: _ =>
      initializeTextOutput env;;
      qmlTextLoop (S (2 * List.length text)) false text relative;;
      mret true
  end.

End QmlText.

(** The strings of the string atoms of a chain. *)
Definition stringsOf (atoms : list Atom.Atom) : string :=
  String.concat EmptyString
    (List.map Atom.string
       (List.filter (fun atom => bool_decide (Atom.type atom = Atom.String)) atoms)).

(** A conditional block in QML text. *)
Definition qmlConditional : list Atom.Atom :=
  [Atom.make Atom.String "outside";
   Atom.make Atom.QmlText EmptyString;
   Atom.make Atom.FormatIf "html"; Atom.make Atom.String "a";
   Atom.make Atom.FormatElse EmptyString; Atom.make Atom.String "b";
   Atom.make Atom.FormatEndif EmptyString;
   Atom.make Atom.EndQmlText EmptyString;
   Atom.make Atom.String "after"].

(** ** The class hierarchy

    [NodeMap] is a [QMap] from names to nodes: its keys are kept in order
    and are unique.  What [generateClassHierarchy] reads of a class is
    taken as given. *)

Definition NodeMap : Type := list (string * Node.Node).

(** [QMap::insert]: the value of a key that is present is replaced. *)
Fixpoint insertNode (key : string) (node : Node.Node) (m : NodeMap) : NodeMap :=
  match m with
  | [] => [(key, node)]
  | (k, v) :: rest =>
      match String.compare key k with
      | Lt => (key, node) :: m
      | Eq => (key, node) :: rest
      | Gt => (k, v) :: insertNode key node rest
      end
  end.

(** [RelatedClass]: the class may be unresolved ([node_] is null). *)
Record RelatedClass : Set := mkRelatedClass {
  node_ : option Node.Node;
  isPrivate : bool
}.

Record ClassGraph : Type := mkClassGraph {
  baseClasses : Node.Node -> list RelatedClass;
  derivedClasses : Node.Node -> list RelatedClass;
  isInternal : Node.Node -> bool;
  hasDoc : Node.Node -> bool;
  fullDocumentLocation : Node.Node -> string;
  targetType : Node.Node -> string;
  (* node->fullName(relative) *)
  fullName : Node.Node -> Node.Node -> string
}.

Section ClassHierarchy.

Variable graph : ClassGraph.

(** [DocBookGenerator::generateFullName(writer, node, relative)] *)
Definition generateFullName (node relative : Node.Node) : M unit :=
  writeStartElement dbNamespace "link";;
  writeAttributeNS xlinkNamespace "href" (fullDocumentLocation graph node);;
  writeAttributeNS xlinkNamespace "role" (targetType graph node);;
  writeCharacters (fullName graph node relative);;
  writeEndElement "link".

(** The classes of [classMap] that have no base class, by name. *)
Definition topLevelClasses (classMap : NodeMap) : NodeMap :=
  List.fold_left
    (fun topLevel entry =>
       let classe := entry.2 in
       if isEmptyList (baseClasses graph classe)
       then insertNode (Node.name classe) classe topLevel
       else topLevel)
    classMap [].

(** The derived classes of [child] that are listed under it, by name. *)
Definition listedDerivedClasses (child : Node.Node) : NodeMap :=
  List.fold_left
    (fun newTop d =>
       match node_ d with
       | Some node =>
           if negb (isPrivate d) && negb (isInternal graph node) && hasDoc graph node
           then insertNode (Node.name node) node newTop
           else newTop
       | None => newTop
       end)
    (derivedClasses graph child) [].

(** The loop [while (!stack.isEmpty())]; the top of the stack is the
    head of the list, and [fuel] bounds the number of iterations. *)
Fixpoint classHierarchyLoop (fuel : nat) (relative : Node.Node) (stack : list NodeMap)
  : M unit :=
  match fuel with
  | O => fun _ => OutOfFuel
  | S fuel =>
      match stack with
      | [] => mret tt
      | [] :: below =>
          (* stack.pop() *)
          writeEndElement "listitem";;
          newLine;;
          writeEndElement "itemizedlist";;
          newLine;;
          classHierarchyLoop fuel relative below
      | ((_, child) :: others) :: below =>
          writeStartElement dbNamespace "listitem";;
          newLine;;
          writeStartElement dbNamespace "para";;
          generateFullName child relative;;
          writeEndElement "para";;
          newLine;;
          (* Don't close the listitem now, as DocBook requires sublists to
             reside in items. *)
          let newTop := listedDerivedClasses child in
          if negb (isEmptyList newTop) then
            writeStartElement dbNamespace "itemizedlist";;
            newLine;;
            classHierarchyLoop fuel relative (newTop :: others :: below)
          else
            classHierarchyLoop fuel relative (others :: below)
      end
  end.

(** [DocBookGenerator::generateClassHierarchy] *)
Definition generateClassHierarchy (fuel : nat) (relative : Node.Node)
    (classMap : NodeMap) : M unit :=
  if isEmptyList classMap then mret tt
  else
    let topLevel := topLevelClasses classMap in
    writeStartElement dbNamespace "itemizedlist";;
    newLine;;
    classHierarchyLoop fuel relative [topLevel].

End ClassHierarchy.

(** A hierarchy of unrelated classes. *)
Definition flatGraph : ClassGraph :=
  {| baseClasses := fun _ => [];
     derivedClasses := fun _ => [];
     isInternal := fun _ => false;
     hasDoc := fun _ => true;
     fullDocumentLocation := fun node => Node.name node +:+ ".xml";
     targetType := fun _ => "class";
     fullName := fun node _ => Node.name node |}.

Definition twoClasses : NodeMap :=
  [("OldWidget", Sample.oldWidget); ("Widget", Sample.widget)].

(** The elements that the calls leave open, beyond one for each list item
    that they open and not counting the lists that they open. *)
Definition imbalance (calls : list WriterCall) : Z :=
  nesting calls - Z.of_nat (opens "listitem" calls)
  + Z.of_nat (opens "itemizedlist" calls).

(** The calls of one iteration of the loop of [generateClassHierarchy] on
    a class, and those of an iteration that ends a list. *)
Definition itemCalls (graph : ClassGraph) (relative child : Node.Node)
  : list WriterCall :=
  [StartElement dbNamespace "listitem"; Characters newline;
   StartElement dbNamespace "para";
   StartElement dbNamespace "link";
   AttributeNS xlinkNamespace "href" (fullDocumentLocation graph child);
   AttributeNS xlinkNamespace "role" (targetType graph child);
   Characters (fullName graph child relative);
   EndElement "link"; EndElement "para"; Characters newline].

Definition popCalls : list WriterCall :=
  [EndElement "listitem"; Characters newline;
   EndElement "itemizedlist"; Characters newline].

(** ** Notes on a node

    The page-level generators read a node through the accessors of [Node]
    and of its subclasses; what they return is taken as given. *)

Inductive ThreadSafeness : Set :=
| UnspecifiedSafeness | NonReentrant | Reentrant | ThreadSafe.

Record NodeFacts : Type := mkNodeFacts {
  threadSafeness : Node.Node -> ThreadSafeness;
  isAggregate : Node.Node -> bool;
  (* Generator::typeString *)
  typeString : Node.Node -> string;
  (* Generator::hasExceptions(node, reentrant, threadsafe, nonreentrant):
     the result, and the three lists that it fills *)
  hasExceptions : Node.Node -> bool * (list Node.Node * list Node.Node * list Node.Node);
  (* n->signature(false, true) *)
  signature : Node.Node -> string;
  (* fn->overridesThis() *)
  overridesThis : Node.Node -> string;
  isClassNode : Node.Node -> bool;
  (* cn->findOverriddenFunction(fn) and cn->findOverriddenProperty(fn) *)
  findOverriddenFunction : Node.Node -> Node.Node -> option Node.Node;
  findOverriddenProperty : Node.Node -> Node.Node -> option Node.Node;
  (* Node::isPrivate *)
  isPrivateNode : Node.Node -> bool
}.

Section Notes.

Variable env : Collaborators.
Variable graph : ClassGraph.
Variable facts : NodeFacts.

(** [DocBookGenerator::generateSignatureList] *)
Definition generateSignatureList (nodes : list Node.Node) : M unit :=
  writeStartElement dbNamespace "itemizedlist";;
  newLine;;
  forEach nodes (fun n =>
    writeStartElement dbNamespace "listitem";;
    newLine;;
    writeStartElement dbNamespace "para";;
    generateSimpleLink (fullDocumentLocation graph n) (signature facts n);;
    writeEndElement "para";;
    newLine;;
    writeEndElement "itemizedlist";;
    newLine);;
  writeEndElement "itemizedlist";;
  newLine.

(** One list of exceptions of [generateThreadSafeness]. *)
Definition exceptionList (nodes : list Node.Node) (intro link text : string) : M unit :=
  when (negb (isEmptyList nodes))
    (writeCharacters intro;;
     generateSimpleLink link text;;
     writeCharacters ":";;
     writeEndElement "para";;
     newLine;;
     generateSignatureList nodes).

(** [DocBookGenerator::generateThreadSafeness] *)
Definition generateThreadSafeness (node : Node.Node) : M bool :=
  let ts := threadSafeness facts node in
  let linkReentrant := (getAutoLink env (Atom.make Atom.Link "reentrant") node).1 in
  let linkThreadSafe := (getAutoLink env (Atom.make Atom.Link "thread-safe") node).1 in
  match ts with
  | NonReentrant =>
      writeStartElement dbNamespace "warning";;
      newLine;;
      writeStartElement dbNamespace "para";;
      writeCharacters ("This " +:+ typeString facts node +:+ " is not ");;
      generateSimpleLink linkReentrant "reentrant";;
      writeCharacters ".";;
      writeEndElement "para";;
      newLine;;
      writeEndElement "warning";;
      mret true
  | Reentrant | ThreadSafe =>
      let isThreadSafe := match ts with ThreadSafe => true | _ => false end in
      writeStartElement dbNamespace "note";;
      newLine;;
      writeStartElement dbNamespace "para";;
      (if isAggregate facts node then
         writeCharacters ("All functions in this " +:+ typeString facts node +:+ " are ");;
         (if isThreadSafe then generateSimpleLink linkThreadSafe "thread-safe"
          else generateSimpleLink linkReentrant "reentrant");;
         let '(exceptions, (reentrant, threadsafe, nonreentrant)) :=
           hasExceptions facts node in
         if negb exceptions || (negb isThreadSafe && negb (isEmptyList threadsafe)) then
           writeCharacters ".";;
           writeEndElement "para";;
           newLine
         else
           writeCharacters " with the following exceptions:";;
           writeEndElement "para";;
           newLine;;
           writeStartElement dbNamespace "para";;
           if negb isThreadSafe then
             exceptionList nonreentrant "These functions are not " linkReentrant
               "reentrant";;
             exceptionList threadsafe "These functions are also " linkThreadSafe
               "thread-safe"
           else (* thread-safe *)
             exceptionList reentrant "These functions are only " linkReentrant
               "reentrant";;
             exceptionList nonreentrant "These functions are not " linkReentrant
               "reentrant"
       else
         writeCharacters ("This " +:+ typeString facts node +:+ " is ");;
         (if isThreadSafe then generateSimpleLink linkThreadSafe "thread-safe"
          else generateSimpleLink linkReentrant "reentrant");;
         writeCharacters ".";;
         writeEndElement "para";;
         newLine);;
      writeEndElement "note";;
      mret true
  | UnspecifiedSafeness => mret false
  end.

(** [DocBookGenerator::generateFullName(writer, apparentNode, fullName,
    actualNode)]; [actualNode] may be null. *)
Definition generateFullNameAs (apparentNode : Node.Node) (fullName : string)
    (actualNode : option Node.Node) : M unit :=
  let actualNode := match actualNode with Some n => n | None => apparentNode end in
  writeStartElement dbNamespace "link";;
  writeAttributeNS xlinkNamespace "href" (fullDocumentLocation graph actualNode);;
  writeAttribute "type" (targetType graph actualNode);;
  writeCharacters fullName;;
  writeEndElement "link".

(** [DocBookGenerator::generateReimplementsClause]; each [return] of the
    source is the end of a branch. *)
Definition generateReimplementsClause (fn : Node.Node) : M unit :=
  if negb (QString.isEmpty (overridesThis facts fn)) then
    match Node.parent fn with
    | None => nullDeref
    | Some cn =>
        if isClassNode facts cn then
          let overrides := findOverriddenFunction facts cn fn in
          let sameNameClause :=
            match findOverriddenProperty facts cn fn with
            | Some sameName =>
                if hasDoc graph sameName then
                  writeStartElement dbNamespace "para";;
                  writeCharacters "Reimplements an access function for property: ";;
                  match Node.parent sameName with
                  | None => nullDeref
                  | Some owner =>
                      let fullName := Node.name owner +:+ "::" +:+ Node.name sameName in
                      generateFullNameAs owner fullName overrides;;
                      writeCharacters "."
                  end
                else mret tt
            | None => mret tt
            end in
          match overrides with
          | Some overridden =>
              if negb (isPrivateNode facts overridden) then
                match Node.parent overridden with
                | None => nullDeref
                | Some owner =>
                    if negb (isPrivateNode facts owner) then
                      if hasDoc graph overridden then
                        writeStartElement dbNamespace "para";;
                        writeCharacters "Reimplements: ";;
                        let fullName :=
                          Node.name owner +:+ "::" +:+ signature facts overridden in
                        generateFullNameAs owner fullName (Some overridden);;
                        writeCharacters "."
                      else sameNameClause
                    else sameNameClause
                end
              else sameNameClause
          | None => sameNameClause
          end
        else mret tt
    end
  else mret tt.

End Notes.

(** [m] returns [a] and does nothing but pass [out] to the writer. *)
Definition writes {A : Type} (m : M A) (a : A) (out : list WriterCall) : Prop :=
  forall g, m g = Done (a, set_writer (writer g ++ out) g).

(** The branch of [generateThreadSafeness] that lists exceptions, and the
    number of lists that it writes there. *)
Definition listsExceptions (facts : NodeFacts) (node : Node.Node) : bool :=
  let '(exceptions, (reentrant, threadsafe, nonreentrant)) := hasExceptions facts node in
  match threadSafeness facts node with
  | Reentrant => isAggregate facts node && exceptions && isEmptyList threadsafe
  | ThreadSafe => isAggregate facts node && exceptions
  | _ => false
  end.

Definition exceptionLists (facts : NodeFacts) (node : Node.Node) : nat :=
  let '(exceptions, (reentrant, threadsafe, nonreentrant)) := hasExceptions facts node in
  match threadSafeness facts node with
  | Reentrant =>
      (if isEmptyList nonreentrant then 0 else 1)
      + (if isEmptyList threadsafe then 0 else 1)
  | ThreadSafe =>
      (if isEmptyList reentrant then 0 else 1)
      + (if isEmptyList nonreentrant then 0 else 1)
  | _ => 0
  end.

(** A class whose two lists of exceptions are both written. *)
Definition threadSafeWidget : NodeFacts :=
  mkNodeFacts (fun _ => ThreadSafe) (fun _ => true) (fun _ => "class")
    (fun _ => (true, ([Sample.oldMember], [], [Sample.color])))
    (fun n => Node.name n +:+ "()") (fun _ => EmptyString) (fun _ => true)
    (fun _ _ => None) (fun _ _ => None) (fun _ => false).

(** The number of elements that are open after the calls, when [open]
    elements are open before them; there is none when a call closes an
    element although no element is open. *)
Fixpoint closesWithin (open : nat) (calls : list WriterCall) : option nat :=
  match calls with
  | [] => Some open
  | StartElement _ _ :: rest => closesWithin (S open) rest
  | EndElement _ :: rest =>
      match open with
      | O => None
      | S below => closesWithin below rest
      end
  | _ :: rest => closesWithin open rest
  end.

(** Calls that close what they open, at any depth. *)
Definition closed (calls : list WriterCall) : Prop :=
  forall open, closesWithin open calls = Some open.

(** Calls that begin with the start of a paragraph and leave one element
    open. *)
Definition leavesParaOpen (out : list WriterCall) : Prop :=
  head out = Some (StartElement dbNamespace "para")
  /\ forall open, closesWithin open out = Some (S open).

(** What a clause about a node does: it writes nothing, it dereferences a
    null pointer, or it writes an open paragraph. *)
Definition clauseCases (m : M unit) : Prop :=
  writes m tt []
  \/ (forall g, m g = NullDeref)
  \/ exists out, writes m tt out /\ leavesParaOpen out.

(** A function that overrides the documented function [member] of another
    class. *)
Definition overriding : NodeFacts :=
  mkNodeFacts (fun _ => UnspecifiedSafeness) (fun _ => false) (fun _ => "function")
    (fun _ => (false, ([], [], [])))
    (fun n => Node.name n +:+ "()") (fun _ => "member")
    (fun n => match Node.nodeType n with Node.Class => true | _ => false end)
    (fun _ _ => Some Sample.member) (fun _ _ => None) (fun _ => false).

(** ** Lists of members *)

(** What [generateSectionInheritedList] reads of a [Section]: the classes
    from which members are inherited, each with the number of its members,
    and the words for the members. *)
Record DocSection : Type := mkDocSection {
  inheritedMembers : list (Node.Node * Z);
  singular : string;
  plural : string;
  title : string
}.

Section InheritedList.

(* QString(p->second), for the number of members *)
Variable countText : Z -> string.
(* Generator::fileName *)
Variable fileName : Node.Node -> string.
(* Generator::cleanRef *)
Variable cleanRef : string -> string.
(* QString::toLower *)
Variable lower : string -> string.
(* Node::plainFullName *)
Variable plainFullName : Node.Node -> Node.Node -> string.

(** [DocBookGenerator::generateSectionInheritedList] *)
Definition generateSectionInheritedList (section : DocSection) (relative : Node.Node)
  : M unit :=
  forEach (inheritedMembers section) (fun p =>
    writeStartElement dbNamespace "listitem";;
    writeCharacters (countText p.2 +:+ " ");;
    (if Z.eqb p.2 1 then writeCharacters (singular section)
     else writeCharacters (plural section));;
    writeCharacters " inherited from ";;
    generateSimpleLink
      (fileName p.1 +:+ "#" +:+ cleanRef (lower (title section)))
      (plainFullName p.1 relative)).

End InheritedList.

(** ** Annotated lists *)

(** [startSectionBegin(writer, id)] *)
Definition startSectionBegin (id : string) : M unit :=
  writeStartElement dbNamespace "section";;
  writeAttribute "xml:id" id;;
  newLine;;
  writeStartElement dbNamespace "title".

(** [startSectionEnd] *)
Definition startSectionEnd : M unit :=
  writeEndElement "title";;
  newLine.

(** [startSection] *)
Definition startSection (id title : string) : M unit :=
  startSectionBegin id;;
  writeCharacters title;;
  startSectionEnd.

(** A [NodeMultiMap] is a [QMultiMap] from names to nodes: the list of its
    entries in the order of their keys, so that the entries of one key
    follow one another. *)
Definition NodeMultiMap : Type := list (string * Node.Node).

(** [QMultiMap::uniqueKeys] *)
Definition uniqueKeys (nmm : NodeMultiMap) : list string :=
  nodup string_dec (List.map fst nmm).

(** [QMultiMap::values(key)] *)
Definition valuesOf (nmm : NodeMultiMap) (key : string) : list Node.Node :=
  List.map snd (List.filter (fun entry => String.eqb entry.1 key) nmm).

Section AnnotatedLists.

Variable graph : ClassGraph.
(* node->doc().briefText().toString() *)
Variable briefText : Node.Node -> string.
(* QString::toLower *)
Variable lower : string -> string.
(* XmlGenerator::registerRef, on the registry of references *)
Variable registerRef : string -> gmap string string -> string * gmap string string.

Definition registerRefM (ref : string) : M string :=
  fun g =>
    let '(id, registry) := registerRef ref (refMap g) in
    Done (id, set_refMap registry g).

(** [DocBookGenerator::generateAnnotatedList] on a list of nodes. *)
Definition generateAnnotatedList (relative : Node.Node) (nodeList : list Node.Node)
    (selector : string) : M unit :=
  writeStartElement dbNamespace "variablelist";;
  writeAttribute "role" selector;;
  newLine;;
  forEach nodeList (fun node =>
    writeStartElement dbNamespace "varlistentry";;
    newLine;;
    writeStartElement dbNamespace "term";;
    generateFullName graph node relative;;
    writeEndElement "term";;
    newLine;;
    writeStartElement dbNamespace "listitem";;
    newLine;;
    writeStartElement dbNamespace "para";;
    writeCharacters (briefText node);;
    writeEndElement "para";;
    newLine;;
    writeEndElement "listitem";;
    newLine;;
    writeEndElement "varlistentry";;
    newLine);;
  writeEndElement "variablelist";;
  newLine.

(** [DocBookGenerator::generateAnnotatedList] on a multimap. *)
Definition generateAnnotatedListOfMap (relative : Node.Node) (nmm : NodeMultiMap)
    (selector : string) : M unit :=
  if isEmptyList nmm then mret tt
  else generateAnnotatedList relative (List.map snd nmm) selector.

(** [DocBookGenerator::generateAnnotatedLists] *)
Definition generateAnnotatedLists (relative : Node.Node) (nmm : NodeMultiMap)
    (selector : string) : M unit :=
  forEach (uniqueKeys nmm) (fun name =>
    when (negb (QString.isEmpty name))
      (id ← registerRefM (lower name); startSection id name);;
    generateAnnotatedList relative (valuesOf nmm name) selector;;
    when (negb (QString.isEmpty name)) endSection).

End AnnotatedLists.

(** The keys of a multimap that name a section. *)
Definition sectionKeys (nmm : NodeMultiMap) : list string :=
  List.filter (fun name => negb (QString.isEmpty name)) (uniqueKeys nmm).

(** Classes listed by module; one of them belongs to no module. *)
Definition classesByModule : NodeMultiMap :=
  [(EmptyString, Sample.color); ("Core", Sample.oldWidget); ("Core", Sample.widget)].

(** ** Links to examples *)

(** [QString::replace(QChar, const QString &)] *)
Fixpoint replace (c : ascii) (after : string) (s : string) : string :=
  match s with
  | EmptyString => EmptyString
  | String a rest =>
      if Ascii.eqb a c then after +:+ replace c after rest
      else String a (replace c after rest)
  end.

Definition separator : ascii := "/"%char.
Definition placeholder : ascii := "001"%char.

Section LinkToExample.

(* QUrl(exampleUrl).host(); the empty string in a bootstrapped build *)
Variable host : string -> string.
(* Config::instance().getString(CONFIG_EXAMPLESINSTALLPATH) *)
Variable examplesInstallPath : string.

(** The path to the example: the install path and the name of the example,
    without the one that is empty. *)
Definition examplePath (en : Node.Node) : list string :=
  List.filter (fun part => negb (QString.isEmpty part))
    [examplesInstallPath; Node.name en].

(** [DocBookGenerator::generateLinkToExample] *)
Definition generateLinkToExample (en : Node.Node) (baseUrl : string) : M unit :=
  let exampleUrl := baseUrl in
  let link := host exampleUrl in
  let link := if negb (QString.isEmpty link) then " @ " +:+ link else link in
  let link := "Example project" +:+ link in
  let exampleUrl :=
    if negb (QString.contains placeholder exampleUrl) then
      let exampleUrl :=
        if negb (endsWith separator exampleUrl)
        then exampleUrl +:+ String separator EmptyString
        else exampleUrl in
      exampleUrl +:+ String placeholder EmptyString
    else exampleUrl in
  let path := examplePath en in
  writeStartElement dbNamespace "para";;
  writeStartElement dbNamespace "link";;
  writeAttributeNS xlinkNamespace "href"
    (replace placeholder (String.concat (String separator EmptyString) path) exampleUrl);;
  writeCharacters link;;
  writeEndElement "link";;
  writeEndElement "para";;
  newLine.

End LinkToExample.

(** The address that a link to an example has when the base address holds
    no placeholder: the path follows the base address, after a separator
    when that does not end in one. *)
Definition appendedPath (baseUrl path : string) : string :=
  (if endsWith separator baseUrl then baseUrl
   else baseUrl +:+ String separator EmptyString) +:+ path.

(** ** Status, version and related classes *)

Section Status.

Variable facts : NodeFacts.
(* Node::since and Generator::formatSince *)
Variable since : Node.Node -> string.
Variable formatSince : Node.Node -> string.

(** [DocBookGenerator::generateStatus] *)
Definition generateStatus (node : Node.Node) : M bool :=
  match Node.status node with
  | Node.Active =>
      (* Do nothing. *)
      mret false
  | Node.Preliminary =>
      writeStartElement dbNamespace "para";;
      writeStartElement dbNamespace "emphasis";;
      writeAttribute "role" "bold";;
      writeCharacters ("This " +:+ typeString facts node
                       +:+ " is under development and is subject to change.");;
      writeEndElement "emphasis";;
      writeEndElement "para";;
      newLine;;
      mret true
  | Node.Deprecated =>
      writeStartElement dbNamespace "para";;
      when (isAggregate facts node)
        (writeStartElement dbNamespace "emphasis";;
         writeAttribute "role" "bold");;
      writeCharacters ("This " +:+ typeString facts node +:+ " is deprecated.");;
      when (isAggregate facts node) (writeEndElement "emphasis");;
      writeEndElement "para";;
      newLine;;
      mret true
  | Node.Obsolete =>
      writeStartElement dbNamespace "para";;
      when (isAggregate facts node)
        (writeStartElement dbNamespace "emphasis";;
         writeAttribute "role" "bold");;
      writeCharacters ("This " +:+ typeString facts node +:+ " is obsolete.");;
      when (isAggregate facts node) (writeEndElement "emphasis");;
      writeCharacters (" It is provided to keep old source code working. "
                       +:+ "We strongly advise against using it in new code.");;
      writeEndElement "para";;
      newLine;;
      mret true
  | Node.Internal => mret false
  end.

(** [DocBookGenerator::generateSince] *)
Definition generateSince (node : Node.Node) : M bool :=
  if negb (QString.isEmpty (since node)) then
    writeStartElement dbNamespace "para";;
    writeCharacters ("This " +:+ typeString facts node +:+ " was introduced");;
    when (Node.isEnumType node) (writeCharacters " or modified");;
    writeCharacters (" in " +:+ formatSince node +:+ ".");;
    writeEndElement "para";;
    newLine;;
    mret true
  else mret false.

End Status.

(** [QStringList::sort]: the names in ascending order. *)
Fixpoint insertName (name : string) (names : list string) : list string :=
  match names with
  | [] => [name]
  | first :: rest =>
      match String.compare name first with
      | Gt => first :: insertName name rest
      | _ => name :: names
      end
  end.

Definition sortNames (names : list string) : list string :=
  List.fold_right insertName [] names.

(** [QMap::value]: the node of a key, or a null pointer. *)
Fixpoint valueOf (m : NodeMap) (key : string) : option Node.Node :=
  match m with
  | [] => None
  | (k, v) :: rest => if String.eqb k key then Some v else valueOf rest key
  end.

Section SortedNames.

Variable graph : ClassGraph.
(* rcn->access() == Node::Public *)
Variable isPublic : Node.Node -> bool.
(* rcn->doc().isEmpty() *)
Variable docIsEmpty : Node.Node -> bool.
(* Node::plainFullName and QString::toLower *)
Variable plainFullName : Node.Node -> Node.Node -> string.
Variable lower : string -> string.
(* comma(pos, count) of the utilities *)
Variable comma : Z -> Z -> string.

(** The related classes that [generateSortedNames] lists, by name. *)
Definition sortedClassMap (cn : Node.Node) (rc : list RelatedClass) : NodeMap :=
  List.fold_left
    (fun classMap r =>
       match node_ r with
       | Some rcn =>
           if isPublic rcn
              && negb (Node.status_eqb (Node.status rcn) Node.Internal)
              && negb (docIsEmpty rcn)
           then insertNode (lower (plainFullName rcn cn)) rcn classMap
           else classMap
       | None => classMap
       end)
    rc [].

(** The loop over the names; [index] counts the names that are written. *)
Fixpoint sortedNamesLoop (cn : Node.Node) (classMap : NodeMap) (count : Z)
    (classNames : list string) (index : Z) : M unit :=
  match classNames with
  | [] => mret tt
  | className :: rest =>
      match valueOf classMap className with
      | Some node =>
          generateFullName graph node cn;;
          writeCharacters (comma index count);;
          sortedNamesLoop cn classMap count rest (index + 1)
      | None => nullDeref
      end
  end.

(** [DocBookGenerator::generateSortedNames] *)
Definition generateSortedNames (cn : Node.Node) (rc : list RelatedClass) : M unit :=
  let classMap := sortedClassMap cn rc in
  let classNames := sortNames (List.map fst classMap) in
  sortedNamesLoop cn classMap (Z.of_nat (List.length classNames)) classNames 0.

End SortedNames.

(** ** The index of functions *)

(** [islower] on the code of a character, in the C locale. *)
Definition islower (c : Z) : bool := (97 <=? c) && (c <=? 122).

(** The string made of the character that has the code [c]. *)
Definition letter (c : Z) : string :=
  String (ascii_of_nat (Z.to_nat c)) EmptyString.

(** [f.key()[0].unicode()]: the code of the first character of a key; the
    string ends in a null character, which is what is read of an empty
    key. *)
Definition initial (key : string) : Z :=
  match key with
  | EmptyString => 0
  | String c _ => Z.of_nat (nat_of_ascii c)
  end.

Section FunctionIndex.

Variable graph : ClassGraph.

(** The loop [while (islower(currentLetter) && currentLetter >= nextLetter)];
    it returns [nextLetter], and [fuel] bounds the number of iterations. *)
Fixpoint anchorLoop (fuel : nat) (currentLetter nextLetter : Z) : M Z :=
  match fuel with
  | O => fun _ => OutOfFuel
  | S fuel =>
      if islower currentLetter && (nextLetter <=? currentLetter) then
        writeAnchor (letter nextLetter);;
        anchorLoop fuel currentLetter (nextLetter + 1)
      else mret nextLetter
  end.

(** The loop over the index, which maps the name of a function to the
    functions of that name, by class. *)
Fixpoint functionIndexLoop (fuel : nat) (funcIndex : list (string * NodeMap))
    (nextLetter : Z) (relative : Node.Node) : M unit :=
  match funcIndex with
  | [] => mret tt
  | (key, functions) :: rest =>
      writeStartElement dbNamespace "listitem";;
      newLine;;
      writeStartElement dbNamespace "para";;
      writeCharacters (key +:+ ": ");;
      let currentLetter := initial key in
      nextLetter ← anchorLoop fuel currentLetter nextLetter;
      forEach functions (fun s =>
        writeCharacters " ";;
        match Node.parent s.2 with
        | Some parent => generateFullName graph parent relative
        | None => nullDeref
        end);;
      writeEndElement "para";;
      newLine;;
      writeEndElement "listitem";;
      newLine;;
      functionIndexLoop fuel rest nextLetter relative
  end.

(** [DocBookGenerator::generateFunctionIndex] *)
Definition generateFunctionIndex (fuel : nat) (funcIndex : list (string * NodeMap))
    (relative : Node.Node) : M unit :=
  writeStartElement dbNamespace "simplelist";;
  writeAttribute "role" "functionIndex";;
  newLine;;
  forEach (List.map Z.of_nat (seq 0 26)) (fun i =>
    let ch := 97 + i in
    writeStartElement dbNamespace "member";;
    writeAttributeNS xlinkNamespace "href" ("#" +:+ letter ch);;
    writeCharacters (letter (ch - 32));;
    writeEndElement "member";;
    newLine);;
  writeEndElement "simplelist";;
  newLine;;
  let nextLetter := 97 in
  writeStartElement dbNamespace "itemizedlist";;
  newLine;;
  functionIndexLoop fuel funcIndex nextLetter relative;;
  writeEndElement "itemizedlist";;
  newLine.

End FunctionIndex.

(** The identifiers of this page that the calls link to. *)
Definition linkedIds (calls : list WriterCall) : list string :=
  List.flat_map
    (fun c =>
       match c with
       | AttributeNS xlinkNamespace "href" (String "#" id) => [id]
       | _ => []
       end) calls.

(** The greatest code of a lower-case letter that begins a key of the
    index; it is the code before that of [a] when there is none. *)
Definition greatestInitial (funcIndex : list (string * NodeMap)) : Z :=
  List.fold_right
    (fun entry greatest =>
       if islower (initial entry.1) then Z.max (initial entry.1) greatest else greatest)
    96 funcIndex.

(** The letters from the code [first] up to the code before [next]. *)
Definition lettersBetween (first next : Z) : list string :=
  List.map (fun i => letter (first + Z.of_nat i)) (seq 0 (Z.to_nat (next - first))).

(** An index of two functions. *)
Definition twoFunctions : list (string * NodeMap) :=
  [("member", [("OldWidget", Sample.member)]);
   ("oldMember", [("Widget", Sample.oldMember)])].

(** * Properties *)

(** ** The attribute loops write attributes only *)

Lemma tableRowAttributes_attributes args :
  Forall (fun c => isAttribute c = true) (tableRowAttributes args).
Proof.
  enough (H : Forall (fun c => isAttribute c = true) (tableRowAttributes args)
              /\ forall key, Forall (fun c => isAttribute c = true)
                               (tableRowAttributes (key :: args)))
    by apply H.
  induction args as [|value rest [IHrest IHcons]]; split.
  - constructor.
  - intros key. constructor.
  - apply IHcons.
  - intros key. simpl. constructor; [reflexivity | exact IHrest].
Qed.

Lemma tableItemAttributes_attributes p :
  Forall (fun c => isAttribute c = true) (tableItemAttributes p).
Proof.
  unfold tableItemAttributes.
  repeat match goal with
         | |- context [if ?b then _ else _] => destruct b
         end; simpl; repeat constructor.
Qed.

(** ** Reasoning about the generator monad *)

Section Preservation.

Variable I : Generator -> Prop.

Lemma preserves_ret {A : Type} (a : A) : preserves I (mret a).
Proof. intros g Hg. exact Hg. Qed.

Lemma preserves_bind {A B : Type} (m : M A) (f : A -> M B) :
  preserves I m -> (forall a, preserves I (f a)) -> preserves I (m ≫= f).
Proof.
  intros Hm Hf g Hg. specialize (Hm g Hg).
  unfold mbind, M_bind. destruct (m g) as [[a g']| |]; try exact Hm.
  apply Hf, Hm.
Qed.

Lemma preserves_get {A : Type} (field : Generator -> A) : preserves I (get field).
Proof. intros g Hg. exact Hg. Qed.

Lemma preserves_nullDeref {A : Type} : preserves I (@nullDeref A).
Proof. intros g Hg. exact Logic.I. Qed.

Lemma preserves_modify (f : Generator -> Generator) :
  (forall g, I g -> I (f g)) -> preserves I (modify f).
Proof. intros Hf g Hg. apply Hf, Hg. Qed.

Lemma preserves_when (b : bool) (m : M unit) :
  preserves I m -> preserves I (when b m).
Proof. intros Hm. destruct b; [exact Hm | apply preserves_ret]. Qed.

Lemma preserves_forEach {A : Type} (l : list A) (body : A -> M unit) :
  (forall x, preserves I (body x)) -> preserves I (forEach l body).
Proof.
  intros Hbody. induction l as [|x l IH]; simpl.
  - apply preserves_ret.
  - apply preserves_bind; [apply Hbody | intros _; exact IH].
Qed.

Lemma preserves_emitAll (calls : list WriterCall) :
  (forall qualifiedName value, preserves I (emit (Attribute qualifiedName value))) ->
  Forall (fun c => isAttribute c = true) calls ->
  preserves I (emitAll calls).
Proof.
  intros Hattr Hcalls. induction Hcalls as [|c calls Hc _ IH]; simpl.
  - apply preserves_ret.
  - destruct c; try discriminate Hc.
    apply preserves_bind; [apply Hattr | intros _; exact IH].
Qed.

Lemma preserves_closeDeeperSections levels level :
  (forall c, preserves I (emit c)) ->
  (forall l, preserves I (modify (set_sectionLevels l))) ->
  preserves I (closeDeeperSections levels level).
Proof.
  intros Hemit Hset. induction levels as [|top below IH]; simpl.
  - apply preserves_ret.
  - apply preserves_when.
    apply preserves_bind; [apply Hset | intros _].
    apply preserves_bind; [apply Hemit | intros _].
    apply preserves_bind; [apply Hemit | intros _].
    exact IH.
Qed.

Lemma preserves_closeSections levels :
  (forall c, preserves I (emit c)) ->
  (forall l, preserves I (modify (set_sectionLevels l))) ->
  preserves I (closeSections levels).
Proof.
  intros Hemit Hset. induction levels as [|top below IH]; simpl.
  - apply preserves_ret.
  - apply preserves_bind; [apply Hset | intros _].
    apply preserves_bind.
    + apply preserves_bind; [apply Hemit | intros _]. apply Hemit.
    + intros _. exact IH.
Qed.

End Preservation.

(** One step of a proof that a handler keeps an invariant: the structure of
    the handler is followed down to [emit], [report] and [modify], which are
    left to the tactic given as argument. *)
Ltac preserves_with leaf :=
  repeat
    match goal with
    | H : context [preserves] |- preserves _ _ => solve [apply H]
    | |- preserves _ (mret _) => apply preserves_ret
    | |- preserves _ (_ ≫= _) => apply preserves_bind; [| intros ?]
    | |- preserves _ (get _) => apply preserves_get
    | |- preserves _ nullDeref => apply preserves_nullDeref
    | |- preserves _ (when _ _) => apply preserves_when
    | |- preserves _ (forEach _ _) => apply preserves_forEach; intros ?
    | |- preserves _ (emitAll (_ :: _)) => cbn [emitAll forEach]
    | |- preserves _ (emitAll _) =>
        apply preserves_emitAll;
        [ intros ? ?
        | first [ apply tableRowAttributes_attributes
                | apply tableItemAttributes_attributes ] ]
    | |- preserves _ (if ?b then _ else _) => destruct b
    | |- preserves _ (match ?x with _ => _ end) => destruct x
    | |- preserves _ (emit _) => apply preserves_modify; leaf
    | |- preserves _ (report _) => apply preserves_modify; leaf
    | |- preserves _ (modifyFlags _) => apply preserves_modify; leaf
    | |- preserves _ (setImageFileName _ _) => apply preserves_modify; leaf
    | |- preserves _ (modify _) => apply preserves_modify; leaf
    | |- preserves _ ?m =>
        progress unfold writeStartElement, writeEmptyElement, writeTextElement,
          writeAttribute, writeAttributeNS, writeCharacters, writeEndElement,
          newLine, writeAnchor, endSection, programlisting, unknownAtom,
          rewritePropertyBrief, endLink, beginLink, generateLink,
          generateSimpleLink, generateSynopsisName, generateEnumValue
    end.

(** Runs the straight-line part of a monadic computation.  The generator
    it is applied to is first split into its fields ([destruct_generator]),
    so that every intermediate state is a record of known fields. *)
Tactic Notation "run" :=
  cbv beta iota zeta delta
    [mbind mret M_bind M_ret when get modify emit report modifyFlags nullDeref
       writeStartElement writeEmptyElement writeTextElement writeAttribute
       writeAttributeNS writeCharacters writeEndElement newLine endSection
       writeAnchor setImageFileName unknownAtom rewritePropertyBrief
       set_writer set_diagnostics set_flags set_inLink set_inListItemLineOpen
       set_currentSectionLevel set_sectionLevels set_refMap set_imageFileNames
       set_inPara set_inSectionHeading_ set_inTableHeader_ set_numTableRows_
       set_threeColumnEnumValueTable_
       writer diagnostics flags inLink inListItemLineOpen currentSectionLevel
       sectionLevels refMap imageFileNames inPara
       inContents_ inSectionHeading_ inTableHeader_ numTableRows_
       threeColumnEnumValueTable_ fst snd].
Tactic Notation "run" "in" hyp(H) :=
  cbv beta iota zeta delta
    [mbind mret M_bind M_ret when get modify emit report modifyFlags nullDeref
       writeStartElement writeEmptyElement writeTextElement writeAttribute
       writeAttributeNS writeCharacters writeEndElement newLine endSection
       writeAnchor setImageFileName unknownAtom rewritePropertyBrief
       set_writer set_diagnostics set_flags set_inLink set_inListItemLineOpen
       set_currentSectionLevel set_sectionLevels set_refMap set_imageFileNames
       set_inPara set_inSectionHeading_ set_inTableHeader_ set_numTableRows_
       set_threeColumnEnumValueTable_
       writer diagnostics flags inLink inListItemLineOpen currentSectionLevel
       sectionLevels refMap imageFileNames inPara
       inContents_ inSectionHeading_ inTableHeader_ numTableRows_
       threeColumnEnumValueTable_ fst snd] in H.

(** Runs a closed computation and names the equation with its result. *)
Tactic Notation "evaluate" constr(t) "as" ident(H) :=
  let r := eval vm_compute in t in
  assert (H : t = r) by (vm_compute; reflexivity).

Ltac destruct_generator g :=
  destruct g as [? ? [? ? ? ? ?] ? ? ? ? ? ? ?].

Lemma bind_Done {A B : Type} (m : M A) (f : A -> M B) g a g' :
  m g = Done (a, g') -> (m ≫= f) g = f a g'.
Proof. intros H. unfold mbind, M_bind. rewrite H. reflexivity. Qed.

(** *** The registry of anchors is out of the interpreter's reach *)

Section Registry.

Variable env : Collaborators.
Variable registry : gmap string string.

Let keepsRegistry (g : Generator) : Prop := refMap g = registry.

Lemma closeDeeperSections_refMap levels level :
  preserves keepsRegistry (closeDeeperSections levels level).
Proof.
  induction levels as [|top below IH]; simpl.
  - apply preserves_ret.
  - preserves_with ltac:(intros ? Hreg; exact Hreg).
Qed.

Lemma generateAtom_refMap atom next relative :
  preserves keepsRegistry (generateAtom env atom next relative).
Proof.
  unfold generateAtom.
  destruct (Atom.type atom);
    preserves_with ltac:(intros ? Hreg; exact Hreg).
  apply closeDeeperSections_refMap.
Qed.

Lemma closeSections_refMap levels :
  preserves keepsRegistry (closeSections levels).
Proof.
  induction levels as [|top below IH]; simpl.
  - apply preserves_ret.
  - preserves_with ltac:(intros ? Hreg; exact Hreg).
Qed.

End Registry.

(** ** How the walk unfolds *)

Section Unfolding.

Variable env : Collaborators.

Lemma generateAtomList_zero atoms relative generate numAtoms g :
  generateAtomList env 0 atoms relative generate numAtoms g = OutOfFuel.
Proof. reflexivity. Qed.

Lemma generateAtomList_nil fuel relative generate numAtoms :
  generateAtomList env (S fuel) [] relative generate numAtoms = mret ([], numAtoms).
Proof. reflexivity. Qed.

Lemma generateAtomList_formatIf fuel atom next relative generate numAtoms :
  Atom.type atom = Atom.FormatIf ->
  generateAtomList env (S fuel) (atom :: next) relative generate numAtoms
  = formatIfCase env (generateAtomList env fuel) next relative generate numAtoms.
Proof. intros H. simpl. rewrite H. reflexivity. Qed.

Lemma generateAtomList_branchEnd fuel atom next relative generate numAtoms :
  isBranchEnd (Atom.type atom) = true ->
  generateAtomList env (S fuel) (atom :: next) relative generate numAtoms
  = mret (atom :: next, numAtoms).
Proof.
  intros H. simpl. destruct (Atom.type atom); try discriminate H; reflexivity.
Qed.

Lemma generateAtomList_other fuel atom next relative generate numAtoms :
  isControl (Atom.type atom) = false ->
  generateAtomList env (S fuel) (atom :: next) relative generate numAtoms
  = otherAtomCase env (generateAtomList env fuel) atom next relative generate numAtoms.
Proof.
  intros H. simpl. destruct (Atom.type atom); try discriminate H; reflexivity.
Qed.

End Unfolding.

(** ** Invariants of the walk *)

Lemma atom_kind (t : Atom.AtomType) :
  {t = Atom.FormatIf} + {isBranchEnd t = true} + {isControl t = false}.
Proof. destruct t; auto. Qed.

Lemma advance_length n : forall atoms rest,
  advance n atoms = Some rest -> (List.length rest + n = List.length atoms)%nat.
Proof.
  induction n as [|n IH]; intros atoms rest H; simpl in H.
  - injection H as <-. lia.
  - destruct atoms as [|atom next]; [discriminate|].
    apply IH in H. simpl. lia.
Qed.

Section WalkInvariant.

Variable env : Collaborators.
Variable I : Generator -> Prop.
Hypothesis generateAtom_I :
  forall atom next relative, preserves I (generateAtom env atom next relative).
Hypothesis report_I : forall d, preserves I (report d).

(** With more fuel than atoms, the walk keeps an invariant that every
    handler keeps, does not run out of fuel, and returns a chain that is
    not longer than the one it was given. *)
Lemma generateAtomList_invariant fuel :
  forall atoms relative generate numAtoms g,
    (List.length atoms < fuel)%nat -> I g ->
    match generateAtomList env fuel atoms relative generate numAtoms g with
    | Done ((rest, _), g') => I g' /\ (List.length rest <= List.length atoms)%nat
    | NullDeref => True
    | OutOfFuel => False
    end.
Proof.
  induction fuel as [|fuel IH]; intros atoms relative generate numAtoms g Hlen Hg; [lia|].
  destruct atoms as [|atom next]; [simpl; split; [exact Hg | lia]|].
  simpl in Hlen.
  destruct (atom_kind (Atom.type atom)) as [[Hif|Hend]|Hother].
  - rewrite generateAtomList_formatIf by exact Hif. unfold formatIfCase.
    (* what follows the if-branch and an else-branch, once a branch end
       has been reached with a chain not longer than [next] *)
    assert (Htail : forall atom2 next2 numAtoms2 g2,
               (List.length (atom2 :: next2) <= List.length next)%nat -> I g2 ->
               match
                 (if bool_decide (Atom.type atom2 = Atom.FormatEndif) then
                    numAtoms3 ←
                      (if generate && (numAtoms =? numAtoms2) then
                         report (Warning (NodeLocation relative)
                                   (OutputFormatNotHandled format (outFileName env)));;
                         r ← generateAtomList env fuel
                               [Atom.make Atom.UnhandledFormat format]
                               relative generate numAtoms2;
                         mret r.2
                       else mret numAtoms2);
                    generateAtomList env fuel next2 relative generate numAtoms3
                  else
                    generateAtomList env fuel (atom2 :: next2) relative generate
                      numAtoms2) g2
               with
               | Done ((rest, _), g') =>
                   I g' /\ (List.length rest <= S (List.length next))%nat
               | NullDeref => True
               | OutOfFuel => False
               end).
    { intros atom2 next2 numAtoms2 g2 Hshort Hg2. simpl in Hshort.
      destruct (bool_decide (Atom.type atom2 = Atom.FormatEndif)).
      - destruct (generate && (numAtoms =? numAtoms2)).
        + pose proof (report_I (Warning (NodeLocation relative)
                        (OutputFormatNotHandled format (outFileName env))) g2 Hg2)
            as Hreport.
          cbv beta iota delta [mbind M_bind mret M_ret].
          destruct (report _ g2) as [[[] g3]| |]; [|exact Logic.I|exact Hreport].
          pose proof (IH [Atom.make Atom.UnhandledFormat format] relative generate
                        numAtoms2 g3 ltac:(simpl; lia) Hreport) as Hmarker.
          destruct (generateAtomList env fuel [Atom.make Atom.UnhandledFormat format]
                      relative generate numAtoms2 g3) as [[[r3 n3] g4]| |];
            [|exact Logic.I|exact Hmarker].
          cbv beta iota delta [snd].
          pose proof (IH next2 relative generate n3 g4 ltac:(lia) (proj1 Hmarker))
            as Hrest.
          destruct (generateAtomList env fuel next2 relative generate n3 g4)
            as [[[r5 n5] g5]| |]; [|exact Logic.I|exact Hrest].
          split; [apply Hrest | lia].
        + cbv beta iota delta [mbind M_bind mret M_ret].
          pose proof (IH next2 relative generate numAtoms2 g2 ltac:(lia) Hg2) as Hrest.
          destruct (generateAtomList env fuel next2 relative generate numAtoms2 g2)
            as [[[r5 n5] g5]| |]; [|exact Logic.I|exact Hrest].
          split; [apply Hrest | lia].
      - pose proof (IH (atom2 :: next2) relative generate numAtoms2 g2
                      ltac:(simpl; lia) Hg2) as Hrest.
        destruct (generateAtomList env fuel (atom2 :: next2) relative generate
                    numAtoms2 g2) as [[[r5 n5] g5]| |];
          [|exact Logic.I|exact Hrest].
        simpl in Hrest. split; [apply Hrest | lia]. }
    cbv beta iota delta [mbind M_bind].
    pose proof (IH next relative generate numAtoms g ltac:(lia) Hg) as Hbranch.
    destruct (generateAtomList env fuel next relative generate numAtoms g)
      as [[[r1 n1] g1]| |]; [|exact Logic.I|exact Hbranch].
    destruct Hbranch as [Hg1 Hbranch].
    destruct r1 as [|atom1 next1]; [simpl; split; [exact Hg1 | lia]|].
    simpl in Hbranch.
    destruct (bool_decide (Atom.type atom1 = Atom.FormatElse)).
    + pose proof (IH next1 relative false (n1 + 1) g1 ltac:(lia) Hg1) as Helse.
      destruct (generateAtomList env fuel next1 relative false (n1 + 1) g1)
        as [[[r2 n2] g2]| |]; [|exact Logic.I|exact Helse].
      destruct Helse as [Hg2 Helse].
      destruct r2 as [|atom2 next2]; [simpl; split; [exact Hg2 | lia]|].
      apply Htail; [simpl in *; lia | exact Hg2].
    + cbv beta iota delta [mret M_ret]. apply Htail; [simpl; lia | exact Hg1].
  - rewrite generateAtomList_branchEnd by exact Hend. simpl. split; [exact Hg | lia].
  - rewrite generateAtomList_other by exact Hother. unfold otherAtomCase.
    (* the rest of the walk, after [n >= 1] atoms have been consumed *)
    assert (Hrest : forall n numAtoms1 g1, (1 <= n)%nat -> I g1 ->
               match
                 match advance n (atom :: next) with
                 | Some atoms =>
                     generateAtomList env fuel atoms relative generate numAtoms1
                 | None => nullDeref
                 end g1
               with
               | Done ((rest, _), g') =>
                   I g' /\ (List.length rest <= List.length (atom :: next))%nat
               | NullDeref => True
               | OutOfFuel => False
               end).
    { intros n numAtoms1 g1 Hn Hg1.
      destruct (advance n (atom :: next)) as [rest|] eqn:Hadv; [|exact Logic.I].
      apply advance_length in Hadv. simpl in Hadv.
      pose proof (IH rest relative generate numAtoms1 g1 ltac:(lia) Hg1) as Hrest.
      destruct (generateAtomList env fuel rest relative generate numAtoms1 g1)
        as [[[r5 n5] g5]| |]; [|exact Logic.I|exact Hrest].
      simpl. split; [apply Hrest | lia]. }
    destruct generate.
    + cbv beta iota delta [mbind M_bind mret M_ret].
      pose proof (generateAtom_I atom next relative g Hg) as Hatom.
      destruct (generateAtom env atom next relative g) as [[k g1]| |];
        [|exact Logic.I|exact Hatom].
      apply Hrest; [lia | exact Hatom].
    + cbv beta iota delta [mbind M_bind mret M_ret].
      apply Hrest; [lia | exact Hg].
Qed.

End WalkInvariant.

(** ** The section stack and the section calls *)

Lemma opens_app name (l1 l2 : list WriterCall) :
  opens name (l1 ++ l2) = (opens name l1 + opens name l2)%nat.
Proof. unfold opens. rewrite List.filter_app, List.length_app. reflexivity. Qed.

Lemma closes_app name (l1 l2 : list WriterCall) :
  closes name (l1 ++ l2) = (closes name l1 + closes name l2)%nat.
Proof. unfold closes. rewrite List.filter_app, List.length_app. reflexivity. Qed.

Lemma sectionDepth_app (l1 l2 : list WriterCall) :
  sectionDepth (l1 ++ l2) = sectionDepth l1 + sectionDepth l2.
Proof. unfold sectionDepth. rewrite opens_app, closes_app. lia. Qed.

Lemma sectionDepth_sectionCloses n : sectionDepth (sectionCloses n) = - Z.of_nat n.
Proof.
  induction n as [|n IH]; [reflexivity|].
  change (sectionCloses (S n))
    with ([EndElement "section"; Characters newline] ++ sectionCloses n).
  rewrite sectionDepth_app, IH.
  change (sectionDepth [EndElement "section"; Characters newline]) with (-1). lia.
Qed.

Lemma sectionCloses_succ n :
  [EndElement "section"; Characters newline] ++ sectionCloses n = sectionCloses (S n).
Proof. reflexivity. Qed.

Section SectionStack.

Variable env : Collaborators.

(** The loop of the section-begin handler pops the levels at or above the
    new one, closes one section for each, and stops at the first level
    below. *)
Lemma closeDeeperSections_run level levels :
  forall g, sectionLevels g = levels ->
    exists popped remaining,
      levels = popped ++ remaining
      /\ Forall (fun top => level <= top) popped
      /\ (forall top below, remaining = top :: below -> top < level)
      /\ closeDeeperSections levels level g
         = Done (tt, set_writer (writer g ++ sectionCloses (List.length popped))
                       (set_sectionLevels remaining g)).
Proof.
  induction levels as [|top below IH]; intros g Hg.
  - exists [], []. repeat split; try constructor; try discriminate.
    destruct_generator g. run in Hg. subst. run.
    change (sectionCloses 0) with (@nil WriterCall). rewrite app_nil_r. reflexivity.
  - simpl. destruct (level <=? top) eqn:Htop.
    + destruct g as [w d f l o c s r i p].
      destruct (IH (mkGenerator ((w ++ [EndElement "section"]) ++ [Characters newline])
                      d f l o c below r i p) eq_refl)
        as (popped & remaining & Hsplit & Hpopped & Hrem & Hrun).
      run in Hrun.
      exists (top :: popped), remaining. repeat split.
      * rewrite Hsplit. reflexivity.
      * constructor; [lia | exact Hpopped].
      * exact Hrem.
      * run. rewrite Hrun. rewrite <- !app_assoc. reflexivity.
    + exists [], (top :: below). repeat split; try constructor.
      * intros top' below' [= <- <-]. lia.
      * destruct_generator g. run in Hg. subst. run.
        change (sectionCloses 0) with (@nil WriterCall). rewrite app_nil_r.
        reflexivity.
Qed.

Lemma generateAtom_sectionLeft atom next relative g :
  Atom.type atom = Atom.SectionLeft ->
  1 < effectiveLevel env atom relative ->
  exists popped remaining,
    sectionLevels g = popped ++ remaining
    /\ Forall (fun top => effectiveLevel env atom relative <= top) popped
    /\ (forall top below,
          remaining = top :: below -> top < effectiveLevel env atom relative)
    /\ generateAtom env atom next relative g
       = Done (0%nat,
               set_writer (writer g ++ sectionCloses (List.length popped)
                             ++ sectionOpen env atom next)
                 (set_sectionLevels (effectiveLevel env atom relative :: remaining)
                    (set_currentSectionLevel (effectiveLevel env atom relative) g))).
Proof.
  intros Htype Hlevel.
  set (level := effectiveLevel env atom relative) in *.
  destruct (closeDeeperSections_run level (sectionLevels g)
              (set_currentSectionLevel level g) eq_refl)
    as (popped & remaining & Hsplit & Hpopped & Hrem & Hrun).
  exists popped, remaining. repeat split; try assumption.
  unfold generateAtom. rewrite Htype.
  fold (effectiveLevel env atom relative). fold level.
  assert (Hlt : (1 <? level) = true) by (apply Z.ltb_lt; exact Hlevel).
  rewrite Hlt. destruct_generator g. run in Hrun. run. rewrite Hrun.
  unfold sectionOpen. rewrite <- !app_assoc. reflexivity.
Qed.

Lemma generateAtom_sectionLeft_header atom next relative g :
  Atom.type atom = Atom.SectionLeft ->
  effectiveLevel env atom relative <= 1 ->
  generateAtom env atom next relative g
  = Done (0%nat, set_currentSectionLevel (effectiveLevel env atom relative) g).
Proof.
  intros Htype Hlevel. unfold generateAtom. rewrite Htype.
  fold (effectiveLevel env atom relative).
  assert (Hlt : (1 <? effectiveLevel env atom relative) = false)
    by (apply Z.ltb_ge; exact Hlevel).
  rewrite Hlt. reflexivity.
Qed.

Lemma generateAtom_sectionRight atom next relative g :
  Atom.type atom = Atom.SectionRight ->
  generateAtom env atom next relative g = Done (0%nat, g).
Proof. intros Htype. unfold generateAtom. rewrite Htype. reflexivity. Qed.

End SectionStack.

(** *** The writer only grows *)

Ltac extends_leaf :=
  let g := fresh "g" in
  let out := fresh "out" in
  let Hout := fresh "Hout" in
  intros g [out Hout]; destruct_generator g; unfold extendsWriter;
  run in Hout; run;
  first [ exists out; exact Hout
        | eexists; rewrite Hout, <- app_assoc; reflexivity ].

Lemma extendsWriter_refl g : extendsWriter (writer g) g.
Proof. exists []. rewrite app_nil_r. reflexivity. Qed.

Section WriterGrows.

Variable env : Collaborators.
Variable before : list WriterCall.

Lemma emit_extends c : preserves (extendsWriter before) (emit c).
Proof. apply preserves_modify. extends_leaf. Qed.

Lemma report_extends d : preserves (extendsWriter before) (report d).
Proof. apply preserves_modify. extends_leaf. Qed.

Lemma set_sectionLevels_extends l :
  preserves (extendsWriter before) (modify (set_sectionLevels l)).
Proof. apply preserves_modify. extends_leaf. Qed.

Lemma generateAtom_extends atom next relative :
  preserves (extendsWriter before) (generateAtom env atom next relative).
Proof.
  pose proof (fun levels level =>
    preserves_closeDeeperSections (extendsWriter before) levels level
      emit_extends set_sectionLevels_extends) as Hclose.
  unfold generateAtom.
  destruct (Atom.type atom); preserves_with extends_leaf.
Qed.

Lemma closeSections_extends levels :
  preserves (extendsWriter before) (closeSections levels).
Proof.
  apply preserves_closeSections;
    [apply emit_extends | apply set_sectionLevels_extends].
Qed.

End WriterGrows.

(** *** Section calls follow the section stack *)

Section SectionBalance.

Variable env : Collaborators.
Variable base : Z.

Ltac neutral_call :=
  repeat match goal with
         | |- context [if ?b then _ else _] => destruct b
         end;
  reflexivity.

Ltac balance_leaf :=
  let g := fresh "g" in
  let Hg := fresh "Hg" in
  intros g Hg; destruct_generator g; unfold sectionsMatchStack in *;
  run in Hg; run;
  first [ exact Hg
        | rewrite sectionDepth_app, Hg;
          match goal with
          | |- context [sectionDepth [?c]] =>
              replace (sectionDepth [c]) with 0 by neutral_call
          end; lia ].

Lemma report_balance d : preserves (sectionsMatchStack base) (report d).
Proof. apply preserves_modify. balance_leaf. Qed.

Lemma generateAtom_balance atom next relative :
  preserves (sectionsMatchStack base) (generateAtom env atom next relative).
Proof.
  destruct (decide (Atom.type atom = Atom.SectionLeft)) as [Hsection|Hother].
  - intros g Hg.
    destruct (Z_lt_le_dec 1 (effectiveLevel env atom relative)) as [Hdeep|Hheader].
    + destruct (generateAtom_sectionLeft env atom next relative g Hsection Hdeep)
        as (popped & remaining & Hsplit & _ & _ & Hrun).
      rewrite Hrun. unfold sectionsMatchStack in *.
      destruct_generator g. run in Hg. run in Hsplit. run.
      rewrite !sectionDepth_app, sectionDepth_sectionCloses, Hg, Hsplit.
      replace (sectionDepth (sectionOpen env atom next)) with 1 by reflexivity.
      rewrite List.length_app. simpl List.length. lia.
    + rewrite (generateAtom_sectionLeft_header env atom next relative g Hsection Hheader).
      unfold sectionsMatchStack in *. destruct_generator g. exact Hg.
  - unfold generateAtom.
    destruct (Atom.type atom); try contradiction; preserves_with balance_leaf.
Qed.

Lemma initializeTextOutput_balance :
  preserves (sectionsMatchStack base) (initializeTextOutput env).
Proof. apply preserves_modify. balance_leaf. Qed.

End SectionBalance.

(** The flush at the end of a text closes one section for each level of the
    stack and leaves the stack empty. *)
Lemma closeSections_run levels :
  forall g, sectionLevels g = levels ->
    closeSections levels g
    = Done (tt, set_writer (writer g ++ sectionCloses (List.length levels))
                  (set_sectionLevels [] g)).
Proof.
  induction levels as [|top below IH]; intros g Hg.
  - destruct_generator g. run in Hg. subst. simpl. run.
    change (sectionCloses 0) with (@nil WriterCall). rewrite app_nil_r. reflexivity.
  - destruct g as [w d f l o c s r i p]. simpl closeSections. run.
    rewrite (IH (mkGenerator ((w ++ [EndElement "section"]) ++ [Characters newline])
                   d f l o c below r i p) eq_refl).
    run. simpl List.length. rewrite <- sectionCloses_succ, <- !app_assoc. reflexivity.
Qed.

Lemma closeTextSections_run g :
  closeTextSections g
  = Done (tt, set_writer (writer g ++ sectionCloses (List.length (sectionLevels g)))
                (set_sectionLevels [] g)).
Proof.
  unfold closeTextSections. rewrite (bind_Done _ _ g (sectionLevels g) g eq_refl).
  apply closeSections_run. reflexivity.
Qed.


Lemma preserves_conj (I1 I2 : Generator -> Prop) {A : Type} (m : M A) :
  preserves I1 m -> preserves I2 m -> preserves (fun g => I1 g /\ I2 g) m.
Proof.
  intros H1 H2 g [Hg1 Hg2]. specialize (H1 g Hg1). specialize (H2 g Hg2).
  destruct (m g) as [[a g']| |]; auto.
Qed.

(** ** Rendering one text *)

Section Text.

Variable env : Collaborators.

Lemma generateAtom_returns atom next relative :
  preserves (fun _ => True) (generateAtom env atom next relative).
Proof.
  intros g _.
  pose proof (generateAtom_extends env (writer g) atom next relative g
                (extendsWriter_refl g)) as H.
  destruct (generateAtom env atom next relative g) as [[k g']| |]; auto.
Qed.

(** [generateText] gives the walk more fuel than it can use. *)
Lemma generateText_returns text relative g :
  generateText env text relative g <> OutOfFuel.
Proof.
  destruct text as [|atom next]; [discriminate|].
  unfold generateText, initializeTextOutput.
  cbv beta iota zeta delta [mbind M_bind mret M_ret modifyFlags modify].
  pose proof (generateAtomList_invariant env (fun _ => True)
                generateAtom_returns
                (fun d g0 _ => Logic.I)
                (S (List.length (atom :: next))) (atom :: next) relative true 0
                (set_flags (initializeTextOutputFlags env (flags g)) g)
                ltac:(lia) Logic.I) as Hwalk.
  destruct (generateAtomList env (S (List.length (atom :: next))) (atom :: next)
              relative true 0 _) as [[[rest n] g1]| |];
    [|discriminate|contradiction].
  rewrite closeTextSections_run. discriminate.
Qed.

(** A text that has atoms is walked and flushed; the result is [true]. *)
Lemma generateText_nonempty atom next relative g b g' :
  generateText env (atom :: next) relative g = Done (b, g') ->
  exists rest numAtoms g1,
    generateAtomList env (S (List.length (atom :: next))) (atom :: next) relative
      true 0 (set_flags (initializeTextOutputFlags env (flags g)) g)
    = Done ((rest, numAtoms), g1)
    /\ b = true
    /\ g' = set_writer (writer g1 ++ sectionCloses (List.length (sectionLevels g1)))
              (set_sectionLevels [] g1).
Proof.
  unfold generateText, initializeTextOutput.
  cbv beta iota zeta delta [mbind M_bind mret M_ret modifyFlags modify].
  destruct (generateAtomList env (S (List.length (atom :: next))) (atom :: next)
              relative true 0 _) as [[[rest n] g1]| |]; try discriminate.
  rewrite closeTextSections_run. intros [= <- <-].
  exists rest, n, g1. repeat split.
Qed.

End Text.

(** ** C1: balance of the structural elements *)





(** ** C8: the result of [generateText] *)

(** C8, as amended.  [generateText] returns [false] exactly when the text
    is empty (it has no first atom), and then it writes nothing and leaves
    the generator as it was; for every text that has an atom it returns
    [true], whether or not a call was made on the writer. *)
Theorem C8_generateText_result (env : Collaborators) (text : list Atom.Atom)
    (relative : Node.Node) (g g' : Generator) (b : bool) :
  generateText env text relative g = Done (b, g') ->
  (b = false <-> text = []) /\ (b = false -> g' = g).
Proof.
  intros Hrun. destruct text as [|atom next].
  - injection Hrun as <- <-. repeat split.
  - apply generateText_nonempty in Hrun.
    destruct Hrun as (_ & _ & _ & _ & -> & _).
    split; [split|]; discriminate.
Qed.

Lemma C8_generateText_result_witness :
  generateText (Sample.env [] []) [] Sample.page Sample.fresh
  = Done (false, Sample.fresh)
  /\ ((false = false <-> @nil Atom.Atom = []) /\ (false = false -> Sample.fresh = Sample.fresh)).
Proof.
  split; [reflexivity|].
  exact (C8_generateText_result (Sample.env [] []) [] Sample.page Sample.fresh
           Sample.fresh false eq_refl).
Defined.

(** C8 as stated fails: a text made of one [Nop] atom produces no output
    and [generateText] returns [true]. *)
Lemma C8_counterexample :
  exists g',
    generateText (Sample.env [] []) [Atom.make Atom.Nop EmptyString] Sample.page
      Sample.fresh = Done (true, g')
    /\ writer g' = writer Sample.fresh
    /\ writer g' = [].
Proof.
  evaluate (generateText (Sample.env [] []) [Atom.make Atom.Nop EmptyString]
              Sample.page Sample.fresh) as E.
  eexists. split; [exact E|]. split; reflexivity.
Qed.

(** ** C7: anchors and the registry *)

Section AnchorRegistry.

Variable env : Collaborators.

Lemma generateText_refMap text relative g b g' :
  generateText env text relative g = Done (b, g') -> refMap g' = refMap g.
Proof.
  intros Hrun. destruct text as [|atom next].
  - injection Hrun as _ <-. reflexivity.
  - apply generateText_nonempty in Hrun.
    destruct Hrun as (rest & numAtoms & g1 & Hwalk & _ & ->).
    pose proof (generateAtomList_invariant env (fun h => refMap h = refMap g)
                  (generateAtom_refMap env (refMap g))
                  (fun d => preserves_modify _ _ (fun h Hh => Hh))
                  (S (List.length (atom :: next))) (atom :: next) relative true 0
                  (set_flags (initializeTextOutputFlags env (flags g)) g)
                  ltac:(lia) eq_refl) as Hinv.
    rewrite Hwalk in Hinv. destruct Hinv as [Hreg _].
    destruct_generator g1. exact Hreg.
Qed.

Lemma generateAtom_target atom next relative g :
  Atom.type atom = Atom.Target ->
  generateAtom env atom next relative g
  = Done (0%nat,
          set_writer (writer g ++ [EmptyElement dbNamespace "anchor";
                                   Attribute "xml:id" (canonicalTitle env (Atom.string atom));
                                   Characters newline]) g).
Proof.
  intros Htype. unfold generateAtom. rewrite Htype.
  destruct_generator g. run. rewrite <- !app_assoc. reflexivity.
Qed.

End AnchorRegistry.




(** ** C2: the section stack *)

Lemma remainingLevels_split level popped : forall remaining,
  Forall (fun top => level <= top) popped ->
  (forall top below, remaining = top :: below -> top < level) ->
  remainingLevels level (popped ++ remaining) = remaining.
Proof.
  induction popped as [|p popped IH]; intros remaining Hpopped Hremaining; simpl.
  - destruct remaining as [|top below]; [reflexivity|]. simpl.
    specialize (Hremaining top below eq_refl).
    destruct (level <=? top) eqn:Hle; [apply Z.leb_le in Hle; lia | reflexivity].
  - inversion Hpopped as [|? ? Hp Hrest]; subst.
    destruct (level <=? p) eqn:Hle; [|apply Z.leb_gt in Hle; lia].
    apply IH; assumption.
Qed.

Section SectionWalk.

Variable env : Collaborators.
Variable relative : Node.Node.

Lemma generateAtom_sectionLeft_stack atom next g :
  Atom.type atom = Atom.SectionLeft ->
  1 < effectiveLevel env atom relative ->
  exists g',
    generateAtom env atom next relative g = Done (0%nat, g')
    /\ sectionLevels g' = pushLevel (sectionLevels g) (effectiveLevel env atom relative).
Proof.
  intros Htype Hlevel.
  destruct (generateAtom_sectionLeft env atom next relative g Htype Hlevel)
    as (popped & remaining & Hsplit & Hpopped & Hremaining & Hrun).
  eexists. split; [exact Hrun|].
  unfold pushLevel. rewrite Hsplit, remainingLevels_split by assumption.
  destruct_generator g. reflexivity.
Qed.

(** A chain of section-begin atoms below the header level is walked to its
    end, and the stack is the one obtained by pushing the levels in turn. *)
Lemma sections_walk atoms : forall fuel numAtoms g,
  Forall (fun atom => Atom.type atom = Atom.SectionLeft
                      /\ 1 < effectiveLevel env atom relative) atoms ->
  (List.length atoms < fuel)%nat ->
  exists g',
    generateAtomList env fuel atoms relative true numAtoms g
    = Done (([], numAtoms + Z.of_nat (List.length atoms)), g')
    /\ sectionLevels g'
       = List.fold_left pushLevel
           (List.map (fun atom => effectiveLevel env atom relative) atoms)
           (sectionLevels g).
Proof.
  induction atoms as [|atom next IH]; intros fuel numAtoms g Hatoms Hfuel.
  - destruct fuel as [|fuel]; [simpl in Hfuel; lia|].
    exists g. simpl. rewrite Z.add_0_r. split; reflexivity.
  - destruct fuel as [|fuel]; [simpl in Hfuel; lia|].
    inversion Hatoms as [|? ? [Htype Hlevel] Hnext]; subst.
    destruct (generateAtom_sectionLeft_stack atom next g Htype Hlevel)
      as (g1 & Hrun & Hstack).
    destruct (IH fuel (numAtoms + 1) g1 Hnext ltac:(simpl in Hfuel; lia))
      as (g' & Hwalk & Hlevels).
    exists g'. split.
    + rewrite generateAtomList_other by (rewrite Htype; reflexivity).
      unfold otherAtomCase.
      cbv beta iota delta [mbind M_bind mret M_ret]. rewrite Hrun.
      cbv beta iota.
      replace (numAtoms + Z.of_nat (1 + 0)) with (numAtoms + 1) by lia.
      change (advance (1 + 0) (atom :: next)) with (Some next). cbv beta iota.
      rewrite Hwalk. f_equal. f_equal. f_equal. simpl List.length. lia.
    + simpl. rewrite Hlevels, Hstack. reflexivity.
Qed.

End SectionWalk.

(** C2.  A section-begin atom whose effective level [L] (declared level
    plus offset) is above 1 pops the stack and closes one section per pop
    while the top is at least [L], then pushes [L] and opens exactly one
    section; a section-end atom does nothing; and the section-begin levels
    2, 3, 4, 3 leave the stack 2, 3 (bottom first). *)
Theorem C2_section_begin (env : Collaborators) (relative : Node.Node) (g : Generator) :
  (forall atom next,
      Atom.type atom = Atom.SectionLeft ->
      1 < effectiveLevel env atom relative ->
      exists popped remaining,
        sectionLevels g = popped ++ remaining
        /\ Forall (fun top => effectiveLevel env atom relative <= top) popped
        /\ (forall top below,
              remaining = top :: below -> top < effectiveLevel env atom relative)
        /\ generateAtom env atom next relative g
           = Done (0%nat,
                   set_writer (writer g ++ sectionCloses (List.length popped)
                                 ++ sectionOpen env atom next)
                     (set_sectionLevels (effectiveLevel env atom relative :: remaining)
                        (set_currentSectionLevel (effectiveLevel env atom relative) g))))
  /\ (forall atom next,
        Atom.type atom = Atom.SectionRight ->
        generateAtom env atom next relative g = Done (0%nat, g))
  /\ (forall atoms,
        Forall (fun atom => Atom.type atom = Atom.SectionLeft) atoms ->
        List.map (fun atom => effectiveLevel env atom relative) atoms = [2; 3; 4; 3] ->
        sectionLevels g = [] ->
        exists numAtoms g',
          generateAtomList env (S (List.length atoms)) atoms relative true 0 g
          = Done (([], numAtoms), g')
          /\ List.rev (sectionLevels g') = [2; 3]).
Proof.
  repeat split.
  - intros atom next. apply generateAtom_sectionLeft.
  - intros atom next. apply generateAtom_sectionRight.
  - intros atoms Htypes Hlevels Hempty.
    destruct (sections_walk env relative atoms (S (List.length atoms)) 0 g)
      as (g' & Hwalk & Hstack); [|lia|].
    + assert (Hall : Forall (fun l => 1 < l)
                       (List.map (fun atom => effectiveLevel env atom relative) atoms))
        by (rewrite Hlevels; repeat constructor).
      clear Hlevels. induction Htypes as [|atom rest Htype _ IH]; constructor.
      * split; [exact Htype|]. inversion Hall; assumption.
      * apply IH. inversion Hall; assumption.
    + eexists. exists g'. split; [exact Hwalk|].
      rewrite Hstack, Hlevels, Hempty. reflexivity.
Qed.

Lemma C2_section_begin_witness :
  exists numAtoms g',
    generateAtomList (Sample.env [] []) 5
      (List.map (Atom.make Atom.SectionLeft) ["2"; "3"; "4"; "3"])
      Sample.page true 0 Sample.fresh = Done (([], numAtoms), g')
    /\ List.rev (sectionLevels g') = [2; 3].
Proof.
  apply (proj2 (proj2 (C2_section_begin (Sample.env [] []) Sample.page Sample.fresh))
           (List.map (Atom.make Atom.SectionLeft) ["2"; "3"; "4"; "3"])).
  - repeat constructor.
  - reflexivity.
  - reflexivity.
Defined.

(** ** C9: the attributes of a table row *)

Lemma emitAll_run calls : forall g,
  emitAll calls g = Done (tt, set_writer (writer g ++ calls) g).
Proof.
  induction calls as [|c calls IH]; intros g.
  - destruct_generator g. simpl. run. rewrite app_nil_r. reflexivity.
  - destruct g as [w d f l o c0 s r i p]. unfold emitAll in *. simpl.
    rewrite (bind_Done (emit c) _ (mkGenerator w d f l o c0 s r i p) tt
               (mkGenerator (w ++ [c]) d f l o c0 s r i p) eq_refl).
    rewrite IH. run. rewrite <- app_assoc. reflexivity.
Qed.

Lemma tableRowAttributes_length args :
  List.length (tableRowAttributes args) = (List.length args / 2)%nat.
Proof.
  enough (H : List.length (tableRowAttributes args) = (List.length args / 2)%nat
              /\ forall key, List.length (tableRowAttributes (key :: args))
                             = (S (List.length args) / 2)%nat)
    by apply H.
  induction args as [|value rest [IHrest IHcons]]; split.
  - reflexivity.
  - intros key. reflexivity.
  - apply IHcons.
  - intros key. simpl List.length. rewrite IHrest.
    change (S (S (List.length rest))) with (2 + List.length rest)%nat.
    replace (2 + List.length rest)%nat with (List.length rest + 1 * 2)%nat by lia.
    rewrite Nat.div_add by lia. lia.
Qed.

Lemma tableRowAttributes_nth args : forall i,
  (i < List.length args / 2)%nat ->
  List.nth_error (tableRowAttributes args) i
  = Some (Attribute (QString.chopped 1 (QString.at_ args (2 * i)))
            (QString.at_ args (2 * i + 1))).
Proof.
  enough (H : (forall i, (i < List.length args / 2)%nat ->
                 List.nth_error (tableRowAttributes args) i
                 = Some (Attribute (QString.chopped 1 (QString.at_ args (2 * i)))
                           (QString.at_ args (2 * i + 1))))
              /\ forall key i, (i < S (List.length args) / 2)%nat ->
                   List.nth_error (tableRowAttributes (key :: args)) i
                   = Some (Attribute
                             (QString.chopped 1 (QString.at_ (key :: args) (2 * i)))
                             (QString.at_ (key :: args) (2 * i + 1))))
    by apply H.
  induction args as [|value rest [IHrest IHcons]]; split.
  - intros i Hi. simpl in Hi. lia.
  - intros key i Hi. simpl in Hi. lia.
  - intros i Hi. apply IHcons. exact Hi.
  - intros key i Hi. simpl tableRowAttributes. destruct i as [|i].
    + reflexivity.
    + simpl List.nth_error.
      assert (Hi' : (i < List.length rest / 2)%nat).
      { simpl List.length in Hi.
        replace (S (S (List.length rest))) with (List.length rest + 1 * 2)%nat in Hi by lia.
        rewrite Nat.div_add in Hi by lia. lia. }
      rewrite (IHrest i Hi'). unfold QString.at_.
      replace (2 * S i)%nat with (S (S (2 * i))) by lia.
      replace (S (S (2 * i)) + 1)%nat with (S (S (2 * i + 1))) by lia.
      reflexivity.
Qed.

(** C9.  A table-row-begin atom whose attribute string is not empty opens
    the row, splits the string at the double quotes (empty parts dropped)
    and writes the parts pairwisely as attributes: the name is the first
    part of a pair without its last character, the value the second.  When
    the number of parts is odd, a warning is reported at the location of
    the documentation comment of the context node; in every case the row
    is written with the complete pairs, the handler returns, and the walk
    goes on with the next atom. *)
Theorem C9_table_row_attributes (env : Collaborators) (atom : Atom.Atom)
    (next : list Atom.Atom) (relative : Node.Node) (g : Generator) :
  Atom.type atom = Atom.TableRowLeft ->
  QString.isEmpty (Atom.string atom) = false ->
  let args := QString.splitSkipEmptyParts doubleQuote (Atom.string atom) in
  let attributes := tableRowAttributes args in
  let g' :=
    set_diagnostics
      (diagnostics g
       ++ (if Nat.odd (List.length args)
           then [Warning (DocLocation relative) (TableAttributesError (Atom.string atom))]
           else []))
      (set_writer (writer g ++ [StartElement dbNamespace "tr"] ++ attributes
                     ++ [Characters newline]) g) in
  generateAtom env atom next relative g = Done (0%nat, g')
  /\ List.length attributes = (List.length args / 2)%nat
  /\ (forall i, (i < List.length args / 2)%nat ->
        List.nth_error attributes i
        = Some (Attribute (QString.chopped 1 (QString.at_ args (2 * i)))
                  (QString.at_ args (2 * i + 1))))
  /\ (forall fuel numAtoms,
        generateAtomList env (S fuel) (atom :: next) relative true numAtoms g
        = generateAtomList env fuel next relative true (numAtoms + 1) g').
Proof.
  intros Htype Hstring args attributes g'.
  assert (Hrun : generateAtom env atom next relative g = Done (0%nat, g')).
  { unfold generateAtom. rewrite Htype, Hstring.
    fold args. fold attributes. subst g'.
    destruct g as [w d f l o c s r i p].
    destruct (Nat.odd (List.length args)).
    - run. rewrite emitAll_run. run. rewrite <- !app_assoc. reflexivity.
    - run. rewrite emitAll_run. run. rewrite <- !app_assoc, app_nil_r. reflexivity. }
  repeat split.
  - exact Hrun.
  - apply tableRowAttributes_length.
  - apply tableRowAttributes_nth.
  - intros fuel numAtoms.
    rewrite generateAtomList_other by (rewrite Htype; reflexivity).
    unfold otherAtomCase. cbv beta iota delta [mbind M_bind mret M_ret].
    rewrite Hrun. reflexivity.
Qed.

Lemma C9_table_row_attributes_witness :
  let atom := Atom.make Atom.TableRowLeft
                (String.concat (String doubleQuote EmptyString)
                   ["class="; "odd"; " id="]) in
  exists g',
    generateAtom (Sample.env [] []) atom [] Sample.page Sample.fresh = Done (0%nat, g')
    /\ writer g' = [StartElement dbNamespace "tr"; Attribute "class" "odd";
                    Characters newline]
    /\ diagnostics g'
       = [Warning (DocLocation Sample.page) (TableAttributesError (Atom.string atom))].
Proof.
  intros atom.
  pose proof (C9_table_row_attributes (Sample.env [] []) atom [] Sample.page
                Sample.fresh eq_refl eq_refl) as H.
  eexists. split; [exact (proj1 H)|]. split; reflexivity.
Defined.


(** ** C4: links to obsolete nodes *)




(** ** C10: the paragraph flag *)

Section ParagraphFlag.

Variable env : Collaborators.

Lemma generateAtom_paraLeft atom next relative g :
  Atom.type atom = Atom.ParaLeft ->
  generateAtom env atom next relative g
  = Done (0%nat,
          set_inPara true (set_writer (writer g ++ [StartElement dbNamespace "para"]) g)).
Proof.
  intros Htype. unfold generateAtom. rewrite Htype. destruct_generator g. reflexivity.
Qed.

(** A string atom writes characters, and may close the link it is in; it
    changes nothing but the writer and the link flag. *)
Lemma generateAtom_string atom next relative g :
  Atom.type atom = Atom.String ->
  exists out l,
    generateAtom env atom next relative g
    = Done (0%nat, set_inLink l (set_writer (writer g ++ out) g))
    /\ Forall (fun c => rowNeutral c = true) out.
Proof.
  intros Htype. unfold generateAtom. rewrite Htype.
  destruct g as [w d [ic ish ith ntr tc] l o c s r i p].
  run.
  destruct (l && negb ic && negb ish) eqn:Hlink.
  - unfold generateLink. destruct (funcLeftParen (Atom.string atom)) as [k|].
    + run. eexists. exists false. split; [rewrite <- !app_assoc; reflexivity|].
      repeat constructor.
    + run. eexists. exists l. split; [reflexivity|]. repeat constructor.
  - run. eexists. exists l. split; [reflexivity|]. repeat constructor.
Qed.

(** A chain of string atoms is walked to its end. *)
Lemma strings_walk atoms relative : forall fuel numAtoms g,
  Forall (fun atom => Atom.type atom = Atom.String) atoms ->
  (List.length atoms < fuel)%nat ->
  exists out l,
    generateAtomList env fuel atoms relative true numAtoms g
    = Done (([], numAtoms + Z.of_nat (List.length atoms)),
            set_inLink l (set_writer (writer g ++ out) g))
    /\ Forall (fun c => rowNeutral c = true) out.
Proof.
  induction atoms as [|atom next IH]; intros fuel numAtoms g Hatoms Hfuel.
  - destruct fuel as [|fuel]; [simpl in Hfuel; lia|].
    exists [], (inLink g). simpl. rewrite Z.add_0_r, app_nil_r.
    destruct_generator g. split; [reflexivity | constructor].
  - destruct fuel as [|fuel]; [simpl in Hfuel; lia|].
    inversion Hatoms as [|? ? Htype Hnext]; subst.
    destruct (generateAtom_string atom next relative g Htype) as (out1 & l1 & Hrun & Hout1).
    destruct (IH fuel (numAtoms + 1) (set_inLink l1 (set_writer (writer g ++ out1) g))
                Hnext ltac:(simpl in Hfuel; lia)) as (out2 & l2 & Hwalk & Hout2).
    exists (out1 ++ out2), l2. split; [|apply Forall_app; split; assumption].
    rewrite generateAtomList_other by (rewrite Htype; reflexivity).
    unfold otherAtomCase.
    cbv beta iota delta [mbind M_bind mret M_ret]. rewrite Hrun.
    cbv beta iota.
    replace (numAtoms + Z.of_nat (1 + 0)) with (numAtoms + 1) by lia.
    change (advance (1 + 0) (atom :: next)) with (Some next). cbv beta iota.
    rewrite Hwalk. destruct_generator g. run. rewrite <- app_assoc.
    f_equal. f_equal. f_equal. simpl List.length. lia.
Qed.

(** With the paragraph flag set, the first calls of a list-begin or
    table-begin atom close an element. *)
Lemma generateAtom_closes_paragraph atom next relative g :
  inPara g = true ->
  Atom.type atom = Atom.ListLeft \/ Atom.type atom = Atom.TableLeft ->
  exists label,
    match generateAtom env atom next relative g with
    | Done (_, g') =>
        extendsWriter (writer g ++ [EndElement label; Characters newline]) g'
    | NullDeref => True
    | OutOfFuel => False
    end.
Proof.
  intros Hpara.
  assert (Hclose : forall label (rest : M nat),
            match
              ((writeEndElement label;; newLine;; modify (set_inPara false)) ≫=
                 (fun _ => rest)) g
            with
            | Done (_, g') =>
                extendsWriter (writer g ++ [EndElement label; Characters newline]) g'
            | NullDeref => True
            | OutOfFuel => False
            end ->
            match
              (p ← get inPara;
               when p (writeEndElement label;; newLine;; modify (set_inPara false));;
               rest) g
            with
            | Done (_, g') =>
                extendsWriter (writer g ++ [EndElement label; Characters newline]) g'
            | NullDeref => True
            | OutOfFuel => False
            end).
  { intros label rest H.
    rewrite (bind_Done (get inPara) _ g (inPara g) g eq_refl), Hpara. exact H. }
  assert (Hrest : forall label (rest : M nat),
            preserves (extendsWriter (writer g ++ [EndElement label; Characters newline]))
              rest ->
            match
              ((writeEndElement label;; newLine;; modify (set_inPara false)) ≫=
                 (fun _ => rest)) g
            with
            | Done (_, g') =>
                extendsWriter (writer g ++ [EndElement label; Characters newline]) g'
            | NullDeref => True
            | OutOfFuel => False
            end).
  { intros label rest Hpres.
    erewrite bind_Done; [|reflexivity].
    apply Hpres. destruct_generator g. exists []. run.
    rewrite <- !app_assoc, app_nil_r. reflexivity. }
  intros [Htype|Htype]; unfold generateAtom; rewrite Htype.
  - exists "para". apply Hclose, Hrest. preserves_with extends_leaf.
  - exists "para or blockquote". cbv zeta. apply Hclose, Hrest.
    preserves_with extends_leaf.
Qed.

End ParagraphFlag.

(** C10.  The paragraph flag is the static local [inPara] of
    [generateAtom]: no other function can reach it, and [generateText]
    does not reset it.  A text that opens a paragraph and does not close it
    (a paragraph-begin atom followed by strings) leaves the flag set, and
    the first atom of the next text rendered, when it is a list-begin or a
    table-begin, starts by closing an element that the new text never
    opened. *)
Theorem C10_paragraph_flag_outlives_text (env : Collaborators)
    (paraLeft : Atom.Atom) (strings : list Atom.Atom) (relative1 : Node.Node)
    (g : Generator)
    (atom : Atom.Atom) (rest : list Atom.Atom) (relative2 : Node.Node) :
  Atom.type paraLeft = Atom.ParaLeft ->
  Forall (fun a => Atom.type a = Atom.String) strings ->
  Atom.type atom = Atom.ListLeft \/ Atom.type atom = Atom.TableLeft ->
  exists g1,
    generateText env (paraLeft :: strings) relative1 g = Done (true, g1)
    /\ inPara g1 = true
    /\ forall b g2,
         generateText env (atom :: rest) relative2 g1 = Done (b, g2) ->
         exists label more,
           writer g2 = writer g1 ++ EndElement label :: Characters newline :: more.
Proof.
  intros Hpara Hstrings Hatom.
  (* the first text *)
  set (g0 := set_flags (initializeTextOutputFlags env (flags g)) g).
  destruct (strings_walk env strings relative1 (S (List.length strings)) (0 + 1)
              (set_inPara true (set_writer (writer g0 ++ [StartElement dbNamespace "para"]) g0))
              Hstrings ltac:(lia)) as (out & l & Hwalk & _).
  eexists. split; [|split].
  - unfold generateText, initializeTextOutput.
    cbv beta iota zeta delta [mbind M_bind mret M_ret modifyFlags modify].
    fold g0.
    rewrite generateAtomList_other by (rewrite Hpara; reflexivity).
    unfold otherAtomCase. cbv beta iota delta [mbind M_bind mret M_ret].
    rewrite (generateAtom_paraLeft env paraLeft strings relative1 g0 Hpara).
    cbv beta iota.
    change (advance (1 + 0) (paraLeft :: strings)) with (Some strings). cbv beta iota.
    change (0 + Z.of_nat (1 + 0)) with (0 + 1).
    change (List.length (paraLeft :: strings)) with (S (List.length strings)).
    rewrite Hwalk. rewrite closeTextSections_run. reflexivity.
  - unfold g0. destruct_generator g. reflexivity.
  - (* the next text *)
    intros b g2 Hnext.
    apply generateText_nonempty in Hnext.
    destruct Hnext as (stop & numAtoms & g3 & Hwalk2 & _ & ->).
    match type of Hwalk2 with
    | generateAtomList _ _ _ _ _ _ ?h = _ => set (g1 := h) in *
    end.
    assert (Hflag : inPara g1 = true) by (unfold g1, g0; destruct_generator g; reflexivity).
    destruct (generateAtom_closes_paragraph env atom rest relative2 g1 Hflag Hatom)
      as (label & Hfirst).
    exists label.
    rewrite generateAtomList_other in Hwalk2
      by (destruct Hatom as [-> | ->]; reflexivity).
    unfold otherAtomCase in Hwalk2.
    cbv beta iota delta [mbind M_bind mret M_ret] in Hwalk2.
    destruct (generateAtom env atom rest relative2 g1) as [[k ga]| |];
      try discriminate Hwalk2.
    destruct (advance (1 + k) (atom :: rest)) as [rest'|] eqn:Hadvance;
      try discriminate Hwalk2.
    apply advance_length in Hadvance.
    pose proof (generateAtomList_invariant env
                  (extendsWriter (writer g1 ++ [EndElement label; Characters newline]))
                  (generateAtom_extends env _) (report_extends _)
                  (S (List.length rest)) rest' relative2 true
                  (0 + Z.of_nat (1 + k)) ga
                  ltac:(simpl in Hadvance; lia) Hfirst) as Hinv.
    simpl List.length in Hwalk2. rewrite Hwalk2 in Hinv.
    destruct Hinv as [[more Hmore] _].
    exists (more ++ sectionCloses (List.length (sectionLevels g3))).
    destruct g3 as [w3 d3 f3 l3 o3 c3 s3 r3 i3 p3]. simpl in Hmore |- *.
    rewrite Hmore. unfold g1, g0. destruct_generator g. simpl.
    rewrite <- !app_assoc. reflexivity.
Qed.

Lemma C10_paragraph_flag_outlives_text_witness :
  exists g1 g2,
    generateText (Sample.env [] [])
      [Atom.make Atom.ParaLeft EmptyString; Atom.make Atom.String "Hello"]
      Sample.page Sample.fresh = Done (true, g1)
    /\ inPara g1 = true
    /\ generateText (Sample.env [] []) [Atom.make Atom.ListLeft ATOM_LIST_BULLET]
         Sample.widget g1 = Done (true, g2)
    /\ exists label more,
         writer g2 = writer g1 ++ EndElement label :: Characters newline :: more.
Proof.
  destruct (C10_paragraph_flag_outlives_text (Sample.env [] [])
              (Atom.make Atom.ParaLeft EmptyString) [Atom.make Atom.String "Hello"]
              Sample.page Sample.fresh
              (Atom.make Atom.ListLeft ATOM_LIST_BULLET) [] Sample.widget
              eq_refl ltac:(repeat constructor) (or_introl eq_refl))
    as (g1 & Hfirst & Hflag & Hnext).
  evaluate (generateText (Sample.env [] [])
              [Atom.make Atom.ParaLeft EmptyString; Atom.make Atom.String "Hello"]
              Sample.page Sample.fresh) as E1.
  rewrite E1 in Hfirst. injection Hfirst as <-.
  match type of Hnext with
  | forall b g2, generateText ?e ?t ?r ?h = _ -> _ =>
      evaluate (generateText e t r h) as E2
  end.
  eexists. eexists. split; [exact E1|]. split; [reflexivity|]. split; [exact E2|].
  exact (Hnext _ _ E2).
Defined.


(** ** C3: conditional blocks *)

Section Conditional.

Variable env : Collaborators.

(** A walk that does not generate leaves the generator as it was. *)
Lemma generateAtomList_skip fuel :
  forall atoms relative numAtoms g stop numAtoms' g',
    generateAtomList env fuel atoms relative false numAtoms g
    = Done ((stop, numAtoms'), g') ->
    g' = g.
Proof.
  induction fuel as [|fuel IH]; intros atoms relative numAtoms g stop numAtoms' g' Hrun;
    [discriminate|].
  destruct atoms as [|atom next]; [injection Hrun as _ _ <-; reflexivity|].
  destruct (atom_kind (Atom.type atom)) as [[Hif|Hend]|Hother].
  - rewrite generateAtomList_formatIf in Hrun by exact Hif.
    unfold formatIfCase in Hrun.
    cbv beta iota delta [mbind M_bind mret M_ret andb] in Hrun.
    destruct (generateAtomList env fuel next relative false numAtoms g)
      as [[[r1 n1] g1]| |] eqn:H1; try discriminate Hrun.
    apply IH in H1. subst g1.
    destruct r1 as [|atom1 next1]; [injection Hrun as _ _ <-; reflexivity|].
    destruct (bool_decide (Atom.type atom1 = Atom.FormatElse)).
    + destruct (generateAtomList env fuel next1 relative false (n1 + 1) g)
        as [[[r2 n2] g2]| |] eqn:H2; try discriminate Hrun.
      apply IH in H2. subst g2.
      destruct r2 as [|atom2 next2]; [injection Hrun as _ _ <-; reflexivity|].
      destruct (bool_decide (Atom.type atom2 = Atom.FormatEndif));
        apply IH in Hrun; exact Hrun.
    + destruct (bool_decide (Atom.type atom1 = Atom.FormatEndif));
        apply IH in Hrun; exact Hrun.
  - rewrite generateAtomList_branchEnd in Hrun by exact Hend.
    injection Hrun as _ _ <-. reflexivity.
  - rewrite generateAtomList_other in Hrun by exact Hother.
    unfold otherAtomCase in Hrun.
    cbv beta iota delta [mbind M_bind mret M_ret] in Hrun.
    change (advance 1 (atom :: next)) with (Some next) in Hrun.
    apply IH in Hrun. exact Hrun.
Qed.

Lemma generateAtomList_counted fuel :
  forall atoms relative generate numAtoms g stop numAtoms' g',
    generateAtomList env fuel atoms relative generate numAtoms g
    = Done ((stop, numAtoms'), g') ->
    counted atoms generate numAtoms stop numAtoms'.
Proof.
  induction fuel as [|fuel IH];
    intros atoms relative generate numAtoms g stop numAtoms' g' Hrun; [discriminate|].
  destruct atoms as [|atom next].
  { injection Hrun as <- <- _. repeat split; [lia | discriminate | discriminate]. }
  destruct (atom_kind (Atom.type atom)) as [[Hif|Hend]|Hother].
  - rewrite generateAtomList_formatIf in Hrun by exact Hif.
    unfold formatIfCase in Hrun.
    assert (Hcontrol : isControl (Atom.type atom) = true) by (rewrite Hif; reflexivity).
    (* a return of the null pointer *)
    assert (Hnull : forall n, numAtoms <= n -> counted (atom :: next) generate numAtoms [] n).
    { intros n Hn. repeat split; [exact Hn | discriminate |].
      intros _ atom0 next0 [= <- <-] [Hc | [_ Hstop]]; [congruence | contradiction]. }
    (* what follows the branches, at a branch end [atom2] *)
    assert (Htail : forall atom2 next2 n2 g2,
               numAtoms <= n2 ->
               (numAtoms < n2 \/ Atom.type atom2 = Atom.FormatEndif) ->
               (if bool_decide (Atom.type atom2 = Atom.FormatEndif) then
                  numAtoms3 ←
                    (if generate && (numAtoms =? n2) then
                       report (Warning (NodeLocation relative)
                                 (OutputFormatNotHandled format (outFileName env)));;
                       r ← generateAtomList env fuel
                             [Atom.make Atom.UnhandledFormat format] relative generate n2;
                       mret r.2
                     else mret n2);
                  generateAtomList env fuel next2 relative generate numAtoms3
                else
                  generateAtomList env fuel (atom2 :: next2) relative generate n2) g2
               = Done ((stop, numAtoms'), g') ->
               counted (atom :: next) generate numAtoms stop numAtoms').
    { intros atom2 next2 n2 g2 Hle Hstrict Htail.
      assert (Hresult : (forall a r, stop = a :: r -> isBranchEnd (Atom.type a) = true)
                        /\ numAtoms <= numAtoms'
                        /\ (generate = true -> numAtoms < numAtoms')).
      { destruct (bool_decide (Atom.type atom2 = Atom.FormatEndif)) eqn:Hendif.
        - destruct (generate && (numAtoms =? n2)) eqn:Hmarker.
          + cbv beta iota delta [mbind M_bind mret M_ret report modify] in Htail.
            match type of Htail with
            | context [generateAtomList env fuel [?unhandled] relative generate n2 ?g3] =>
                destruct (generateAtomList env fuel [unhandled] relative generate n2 g3)
                  as [[[r3 n3] g4]| |] eqn:H3; try discriminate Htail
            end.
            apply IH in H3. destruct H3 as (_ & _ & H3).
            apply andb_prop in Hmarker. destruct Hmarker as [-> Heq].
            specialize (H3 eq_refl _ _ eq_refl (or_introl eq_refl)).
            cbv beta iota delta [snd] in Htail.
            apply IH in Htail. destruct Htail as (Hle' & Hstop & _).
            repeat split; [exact Hstop | lia | lia].
          + cbv beta iota delta [mbind M_bind mret M_ret] in Htail.
            apply IH in Htail. destruct Htail as (Hle' & Hstop & _).
            repeat split; [exact Hstop | lia |].
            intros ->. simpl in Hmarker. apply Z.eqb_neq in Hmarker. lia.
        - apply bool_decide_eq_false in Hendif.
          apply IH in Htail. destruct Htail as (Hle' & Hstop & _).
          repeat split; [exact Hstop | lia |].
          intros _. destruct Hstrict as [Hlt | Hendif']; [lia | contradiction]. }
      destruct Hresult as (Hstop & Hle' & Hlt).
      repeat split; [exact Hle' | exact Hstop |].
      intros Hgen _ _ _ _. apply Hlt, Hgen. }
    cbv beta iota delta [mbind M_bind] in Hrun.
    destruct (generateAtomList env fuel next relative generate numAtoms g)
      as [[[r1 n1] g1]| |] eqn:H1; try discriminate Hrun.
    apply IH in H1. destruct H1 as (Hle1 & Hstop1 & _).
    destruct r1 as [|atom1 next1].
    { injection Hrun as <- <- _. apply Hnull, Hle1. }
    specialize (Hstop1 atom1 next1 eq_refl).
    destruct (bool_decide (Atom.type atom1 = Atom.FormatElse)) eqn:Helse.
    + destruct (generateAtomList env fuel next1 relative false (n1 + 1) g1)
        as [[[r2 n2] g2]| |] eqn:H2; try discriminate Hrun.
      apply IH in H2. destruct H2 as (Hle2 & _ & _).
      destruct r2 as [|atom2 next2].
      { injection Hrun as <- <- _. apply Hnull. lia. }
      apply (Htail atom2 next2 n2 g2); [lia | left; lia | exact Hrun].
    + cbv beta iota delta [mret M_ret] in Hrun.
      apply (Htail atom1 next1 n1 g1); [exact Hle1 | right | exact Hrun].
      apply bool_decide_eq_false in Helse.
      unfold isBranchEnd in Hstop1. apply orb_prop in Hstop1.
      destruct Hstop1 as [H | H]; apply bool_decide_eq_true in H;
        [contradiction | exact H].
  - rewrite generateAtomList_branchEnd in Hrun by exact Hend.
    injection Hrun as <- <- _. repeat split.
    + lia.
    + intros a r [= <- <-]. exact Hend.
    + intros _ atom0 next0 [= <- <-] [Hc | [Hb _]]; [|congruence].
      unfold isControl in Hc. rewrite Hend, orb_true_r in Hc. discriminate.
  - rewrite generateAtomList_other in Hrun by exact Hother.
    unfold otherAtomCase in Hrun. destruct generate.
    + cbv beta iota delta [mbind M_bind mret M_ret] in Hrun.
      destruct (generateAtom env atom next relative g) as [[k g1]| |];
        try discriminate Hrun.
      destruct (advance (1 + k) (atom :: next)) as [rest|]; try discriminate Hrun.
      apply IH in Hrun. destruct Hrun as (Hle & Hstop & _).
      repeat split; [lia | exact Hstop | intros; lia].
    + cbv beta iota delta [mbind M_bind mret M_ret] in Hrun.
      change (advance 1 (atom :: next)) with (Some next) in Hrun.
      apply IH in Hrun. destruct Hrun as (Hle & Hstop & _).
      repeat split; [exact Hle | exact Hstop | discriminate].
Qed.

(** The walk over the marker atom that [generateAtomList] makes up. *)
Lemma generateAtomList_unhandledFormat fuel relative numAtoms g :
  generateAtomList env (S (S fuel)) [Atom.make Atom.UnhandledFormat format] relative
    true numAtoms g
  = Done (([], numAtoms + 1), set_writer (writer g ++ unhandledFormatMarker) g).
Proof.
  rewrite generateAtomList_other by reflexivity.
  unfold otherAtomCase, generateAtom. cbn [Atom.type Atom.make].
  destruct_generator g. run.
  change (advance (1 + 0) [Atom.mk Atom.UnhandledFormat [format]]) with (Some (@nil Atom.Atom)).
  cbv beta iota. rewrite <- !app_assoc. reflexivity.
Qed.

End Conditional.

Section ConditionalBlock.

Variable env : Collaborators.
Variable fuel : nat.
Variable ifAtom : Atom.Atom.
Variable next : list Atom.Atom.
Variable relative : Node.Node.
Variable generate : bool.
Variable numAtoms : Z.
Variable g : Generator.
Hypothesis Hif : Atom.type ifAtom = Atom.FormatIf.

Lemma conditional_with_else elseAtom elseBranch n1 g1 endifAtom rest n2 g2 :
  generateAtomList env fuel next relative generate numAtoms g
  = Done ((elseAtom :: elseBranch, n1), g1) ->
  Atom.type elseAtom = Atom.FormatElse ->
  generateAtomList env fuel elseBranch relative false (n1 + 1) g1
  = Done ((endifAtom :: rest, n2), g2) ->
  Atom.type endifAtom = Atom.FormatEndif ->
  g2 = g1 /\ n1 < n2
  /\ generateAtomList env (S fuel) (ifAtom :: next) relative generate numAtoms g
     = generateAtomList env fuel rest relative generate n2 g1.
Proof.
  intros Hbranch Helse Hskip Hendif.
  pose proof (generateAtomList_skip env fuel _ _ _ _ _ _ _ Hskip) as ->.
  pose proof (generateAtomList_counted env fuel _ _ _ _ _ _ _ _ Hskip) as (Hle & _ & _).
  pose proof (generateAtomList_counted env fuel _ _ _ _ _ _ _ _ Hbranch) as (Hle1 & _ & _).
  split; [reflexivity|]. split; [lia|].
  rewrite generateAtomList_formatIf by exact Hif. unfold formatIfCase.
  rewrite (bind_Done _ _ _ _ _ Hbranch).
  rewrite bool_decide_eq_true_2 by exact Helse.
  rewrite (bind_Done _ _ _ _ _ Hskip).
  rewrite bool_decide_eq_true_2 by exact Hendif.
  replace (numAtoms =? n2) with false by (symmetry; apply Z.eqb_neq; lia).
  rewrite andb_false_r.
  apply (bind_Done (mret n2) _ g1 n2 g1 eq_refl).
Qed.

Lemma conditional_without_else endifAtom rest n1 g1 :
  generateAtomList env fuel next relative generate numAtoms g
  = Done ((endifAtom :: rest, n1), g1) ->
  Atom.type endifAtom = Atom.FormatEndif ->
  (2 <= fuel)%nat ->
  generateAtomList env (S fuel) (ifAtom :: next) relative generate numAtoms g
  = if generate && (numAtoms =? n1)
    then generateAtomList env fuel rest relative generate (n1 + 1)
           (afterUnhandledFormat env relative g1)
    else generateAtomList env fuel rest relative generate n1 g1.
Proof.
  intros Hbranch Hendif Hfuel.
  rewrite generateAtomList_formatIf by exact Hif. unfold formatIfCase.
  rewrite (bind_Done _ _ _ _ _ Hbranch).
  rewrite bool_decide_eq_false_2 by (rewrite Hendif; discriminate).
  rewrite (bind_Done (mret (endifAtom :: rest, n1)) _ g1 _ g1 eq_refl).
  rewrite bool_decide_eq_true_2 by exact Hendif.
  destruct (generate && (numAtoms =? n1)) eqn:Hmarker.
  - apply andb_prop in Hmarker. destruct Hmarker as [Hgen _].
    destruct fuel as [|[|fuel']]; try lia.
    assert (Hmarker : (report (Warning (NodeLocation relative)
                                 (OutputFormatNotHandled format (outFileName env)));;
                       r ← generateAtomList env (S (S fuel'))
                             [Atom.make Atom.UnhandledFormat format] relative generate n1;
                       mret r.2) g1
                      = Done (n1 + 1, afterUnhandledFormat env relative g1)).
    { rewrite Hgen.
      rewrite (bind_Done _ _ g1 tt
                 (set_diagnostics
                    (diagnostics g1
                     ++ [Warning (NodeLocation relative)
                           (OutputFormatNotHandled format (outFileName env))]) g1)
                 eq_refl).
      rewrite (bind_Done _ _ _ _ _ (generateAtomList_unhandledFormat env fuel' relative n1 _)).
      unfold afterUnhandledFormat. destruct_generator g1. reflexivity. }
    apply (bind_Done _ _ _ _ _ Hmarker).
  - apply (bind_Done (mret n1) _ g1 n1 g1 eq_refl).
Qed.

Lemma conditional_empty_branch stopAtom rest n1 g1 :
  generate = true ->
  generateAtomList env fuel next relative generate numAtoms g
  = Done ((stopAtom :: rest, n1), g1) ->
  (n1 = numAtoms <-> next = stopAtom :: rest).
Proof.
  intros Hgen Hbranch.
  pose proof (generateAtomList_counted env fuel _ _ _ _ _ _ _ _ Hbranch)
    as (Hle & Hstop & Hstrict).
  specialize (Hstop stopAtom rest eq_refl).
  destruct fuel as [|fuel'];
    [rewrite generateAtomList_zero in Hbranch; discriminate Hbranch|].
  split.
  - intros ->. destruct next as [|atom next'].
    + rewrite generateAtomList_nil in Hbranch. unfold mret, M_ret in Hbranch.
      injection Hbranch as Hstopped _. discriminate Hstopped.
    + destruct (isBranchEnd (Atom.type atom)) eqn:Hend.
      * rewrite generateAtomList_branchEnd in Hbranch by exact Hend.
        unfold mret, M_ret in Hbranch.
        injection Hbranch as Hatom Hrest _. rewrite Hatom, Hrest. exact eq_refl.
      * assert (Hreturned : stopAtom :: rest <> []) by discriminate.
        specialize (Hstrict Hgen atom next' eq_refl (or_intror (conj Hend Hreturned))).
        lia.
  - intros Hnext. rewrite Hnext in Hbranch.
    rewrite generateAtomList_branchEnd in Hbranch by exact Hstop.
    unfold mret, M_ret in Hbranch.
    injection Hbranch as Hcount _. symmetry. exact Hcount.
Qed.

End ConditionalBlock.

(** C3, as amended.  For a conditional block that starts at [ifAtom]:
    - an else-branch is walked with [generate = false], which emits nothing
      and leaves the generator as it was;
    - when the if-branch, walked with the caller's flag, returns at an else
      atom and the else-branch returns at the endif atom, the walk goes on
      after the endif from the generator that the if-branch left: the else
      atom is counted, and no marker is written, even when the if-branch
      counted no atom;
    - when the if-branch returns at the endif atom, the fallback (one
      warning and one marker) is made exactly when [generate] is set and
      the if-branch counted no atom, and the walk goes on after the endif;
    - when generating, the if-branch counts no atom exactly when it is
      empty. *)
Theorem C3_conditional_block (env : Collaborators) (fuel : nat) (ifAtom : Atom.Atom)
    (next : list Atom.Atom) (relative : Node.Node) (generate : bool) (numAtoms : Z)
    (g : Generator) :
  Atom.type ifAtom = Atom.FormatIf ->
  (forall atoms n h stop n' h',
      generateAtomList env fuel atoms relative false n h = Done ((stop, n'), h') ->
      h' = h)
  /\ (forall elseAtom elseBranch n1 g1 endifAtom rest n2 g2,
        generateAtomList env fuel next relative generate numAtoms g
        = Done ((elseAtom :: elseBranch, n1), g1) ->
        Atom.type elseAtom = Atom.FormatElse ->
        generateAtomList env fuel elseBranch relative false (n1 + 1) g1
        = Done ((endifAtom :: rest, n2), g2) ->
        Atom.type endifAtom = Atom.FormatEndif ->
        g2 = g1 /\ n1 < n2
        /\ generateAtomList env (S fuel) (ifAtom :: next) relative generate numAtoms g
           = generateAtomList env fuel rest relative generate n2 g1)
  /\ (forall endifAtom rest n1 g1,
        generateAtomList env fuel next relative generate numAtoms g
        = Done ((endifAtom :: rest, n1), g1) ->
        Atom.type endifAtom = Atom.FormatEndif ->
        (2 <= fuel)%nat ->
        generateAtomList env (S fuel) (ifAtom :: next) relative generate numAtoms g
        = if generate && (numAtoms =? n1)
          then generateAtomList env fuel rest relative generate (n1 + 1)
                 (afterUnhandledFormat env relative g1)
          else generateAtomList env fuel rest relative generate n1 g1)
  /\ (forall stopAtom rest n1 g1,
        generate = true ->
        generateAtomList env fuel next relative generate numAtoms g
        = Done ((stopAtom :: rest, n1), g1) ->
        (n1 = numAtoms <-> next = stopAtom :: rest)).
Proof.
  intros Hif. split; [|split; [|split]].
  - intros atoms n h stop n' h'. apply generateAtomList_skip.
  - intros elseAtom elseBranch n1 g1 endifAtom rest n2 g2.
    apply conditional_with_else. exact Hif.
  - intros endifAtom rest n1 g1. apply conditional_without_else. exact Hif.
  - intros stopAtom rest n1 g1. apply conditional_empty_branch.
Qed.

Lemma C3_conditional_block_witness :
  generateAtomList (Sample.env [] []) 3
    [Atom.make Atom.FormatIf "html"; Atom.make Atom.FormatEndif EmptyString]
    Sample.page true 0 Sample.fresh
  = Done (([], 1), afterUnhandledFormat (Sample.env [] []) Sample.page Sample.fresh).
Proof.
  assert (Hbranch : generateAtomList (Sample.env [] []) 2
                      [Atom.make Atom.FormatEndif EmptyString] Sample.page true 0
                      Sample.fresh
                    = Done (([Atom.make Atom.FormatEndif EmptyString], 0), Sample.fresh))
    by (vm_compute; reflexivity).
  rewrite (proj1 (proj2 (proj2 (C3_conditional_block (Sample.env [] []) 2
                                  (Atom.make Atom.FormatIf "html")
                                  [Atom.make Atom.FormatEndif EmptyString]
                                  Sample.page true 0 Sample.fresh eq_refl)))
             (Atom.make Atom.FormatEndif EmptyString) [] 0 Sample.fresh
             Hbranch eq_refl ltac:(lia)).
  vm_compute. reflexivity.
Defined.

(** C3 as stated fails: with [generate] set, the if-branch of this block
    is empty, and no marker is written and no warning reported, because
    the block has an else-branch. *)
Lemma C3_counterexample :
  generateAtomList (Sample.env [] []) 5
    [Atom.make Atom.FormatIf "html"; Atom.make Atom.FormatElse EmptyString;
     Atom.make Atom.String "x"; Atom.make Atom.FormatEndif EmptyString]
    Sample.page true 0 Sample.fresh
  = Done (([], 1), Sample.fresh)
  /\ writer Sample.fresh = [] /\ diagnostics Sample.fresh = [].
Proof. split; [vm_compute; reflexivity | split; reflexivity]. Qed.


(** ** C5 and C6: value lists *)

Ltac neutral_leaf :=
  let h := fresh "h" in
  let out := fresh "out" in
  let Hout := fresh "Hout" in
  let Hneutral := fresh "Hneutral" in
  intros h (out & Hout & Hneutral); subst h; unfold wroteNeutrally;
  match goal with
  | |- exists _, _ (set_writer _ ?g) = _ /\ _ => destruct_generator g
  end;
  run;
  eexists; split;
  [ rewrite <- app_assoc; reflexivity
  | apply Forall_app; split; [exact Hneutral | repeat constructor] ].

Lemma rowCells_neutral out : forall current rest,
  Forall (fun c => rowNeutral c = true) out ->
  rowCells current (out ++ rest) = rowCells current rest.
Proof.
  induction out as [|c out IH]; intros current rest Hout; [reflexivity|].
  inversion Hout as [|? ? Hc Hrest]; subst. simpl.
  unfold rowNeutral in Hc.
  apply andb_prop in Hc. destruct Hc as [Hc Hcell].
  apply andb_prop in Hc. destruct Hc as [Hopen Hclose].
  apply negb_true_iff in Hopen, Hclose, Hcell.
  rewrite Hopen, Hclose, Hcell. apply IH, Hrest.
Qed.

Lemma cellCount_app (l1 l2 : list WriterCall) :
  cellCount (l1 ++ l2) = (cellCount l1 + cellCount l2)%nat.
Proof. unfold cellCount. rewrite List.filter_app, List.length_app. reflexivity. Qed.

Lemma cellCount_neutral out :
  Forall (fun c => rowNeutral c = true) out -> cellCount out = 0%nat.
Proof.
  induction 1 as [|c out Hc _ IH]; [reflexivity|].
  change (c :: out) with ([c] ++ out). rewrite cellCount_app, IH.
  unfold rowNeutral in Hc. apply andb_prop in Hc. destruct Hc as [_ Hcell].
  apply negb_true_iff in Hcell. unfold cellCount. simpl. rewrite Hcell. reflexivity.
Qed.

Section ValueList.

Variable env : Collaborators.

(** The name of an enum value is written without a row and without a cell,
    and changes nothing but the writer. *)
Lemma generateEnumValue_neutral g before enumValue relative :
  preserves (wroteNeutrally g before) (generateEnumValue env enumValue relative).
Proof. unfold generateEnumValue. preserves_with neutral_leaf. Qed.

Lemma value_is_not_tag : String.eqb ATOM_LIST_VALUE ATOM_LIST_TAG = false.
Proof. reflexivity. Qed.

Lemma value_is_not_bullet : String.eqb ATOM_LIST_VALUE ATOM_LIST_BULLET = false.
Proof. reflexivity. Qed.

Lemma value_is_value : String.eqb ATOM_LIST_VALUE ATOM_LIST_VALUE = true.
Proof. reflexivity. Qed.

(** The list-begin atom of a value list writes the header row; the cell
    [Value] is in it when the scan of the list finds three columns and the
    context node is an enum. *)
Lemma generateAtom_valueListLeft atom next relative g :
  Atom.type atom = Atom.ListLeft ->
  Atom.string atom = ATOM_LIST_VALUE ->
  generateAtom env atom next relative g
  = Done (0%nat,
          set_flags (set_threeColumnEnumValueTable_
                       (isThreeColumnEnumValueTable env atom next) (flags g))
            (set_inPara false
               (set_writer
                  (writer g
                   ++ (if inPara g then [EndElement "para"; Characters newline] else [])
                   ++ valueListHeader (isThreeColumnEnumValueTable env atom next
                                       && Node.isEnumType relative)) g))).
Proof.
  intros Htype Hstring. unfold generateAtom. rewrite Htype, Hstring.
  rewrite value_is_not_bullet, value_is_not_tag, value_is_value.
  destruct g as [w d [ic ish ith ntr tc] l o c s r i p].
  unfold valueListHeader.
  destruct p;
    destruct (isThreeColumnEnumValueTable env atom next && Node.isEnumType relative);
    run; rewrite <- ?app_assoc; try rewrite app_nil_r; reflexivity.
Qed.

(** The tag atom of a value writes the row, the cell of the name and, when
    the context node is an enum, the cell of the value, whatever the
    three-column flag. *)
Lemma generateAtom_valueTagLeft_calls atom next relative g k g' :
  Atom.type atom = Atom.ListTagLeft ->
  Atom.string atom = ATOM_LIST_VALUE ->
  generateAtom env atom next relative g = Done (k, g') ->
  k = (getAtomListValue env atom next).2
  /\ exists name,
      Forall (fun c => rowNeutral c = true) name
      /\ g' = set_writer
                (writer g ++ nameCellOpen ++ name ++ nameCellClose
                 ++ (if Node.isEnumType relative
                     then match next with
                          | n :: _ => valueCell (itemValue env relative (Atom.string n))
                          | [] => []
                          end
                     else [])) g.
Proof.
  intros Htype Hstring. unfold generateAtom. rewrite Htype, Hstring.
  rewrite value_is_not_tag.
  destruct g as [w d f l o c s r i p]. run.
  match goal with
  | |- context [generateEnumValue env ?v relative ?h] =>
      pose proof (generateEnumValue_neutral h (writer h) v relative h
                    ltac:(exists []; split; [run; rewrite app_nil_r; reflexivity
                                            | constructor])) as Hname;
      destruct (generateEnumValue env v relative h) as [[[] h']| |];
      [|discriminate|discriminate]
  end.
  destruct Hname as (name & -> & Hname). run.
  unfold nameCellOpen, nameCellClose, valueCell.
  destruct (Node.isEnumType relative).
  - destruct next as [|n next']; [discriminate|].
    destruct (QString.isEmpty (itemValue env relative (Atom.string n)));
      run; intros [= <- <-]; (split; [reflexivity|]); exists name;
      (split; [exact Hname|]); rewrite <- !app_assoc; reflexivity.
  - run. intros [= <- <-]. split; [reflexivity|]. exists name.
    split; [exact Hname|]. rewrite <- !app_assoc, app_nil_r. reflexivity.
Qed.

Lemma generateAtom_valueTagRight atom next relative g :
  Atom.type atom = Atom.ListTagRight ->
  Atom.string atom = ATOM_LIST_VALUE ->
  generateAtom env atom next relative g = Done (0%nat, g).
Proof.
  intros Htype Hstring. unfold generateAtom. rewrite Htype, Hstring.
  rewrite value_is_not_tag. reflexivity.
Qed.

(** The item-begin atom of a value writes the cell of the description when
    the three-column flag is set: an empty cell when the item ends at
    once, an opened cell otherwise. *)
Lemma generateAtom_valueItemLeft atom next relative g :
  Atom.type atom = Atom.ListItemLeft ->
  Atom.string atom = ATOM_LIST_VALUE ->
  generateAtom env atom next relative g
  = Done (0%nat,
          if threeColumnEnumValueTable_ (flags g) then
            set_inListItemLineOpen (negb (matchAhead next Atom.ListItemRight))
              (set_writer
                 (writer g ++ descriptionCellOpen (matchAhead next Atom.ListItemRight)) g)
          else set_inListItemLineOpen false g).
Proof.
  intros Htype Hstring. unfold generateAtom. rewrite Htype, Hstring.
  rewrite value_is_not_tag, value_is_value.
  destruct g as [w d [ic ish ith ntr tc] l o c s r i p].
  unfold descriptionCellOpen.
  destruct tc; [destruct (matchAhead next Atom.ListItemRight)|];
    run; rewrite <- ?app_assoc; reflexivity.
Qed.

Lemma generateAtom_valueItemRight atom next relative g :
  Atom.type atom = Atom.ListItemRight ->
  Atom.string atom = ATOM_LIST_VALUE ->
  generateAtom env atom next relative g
  = Done (0%nat,
          set_inListItemLineOpen false
            (set_writer (writer g ++ rowClose (inListItemLineOpen g)) g)).
Proof.
  intros Htype Hstring. unfold generateAtom. rewrite Htype, Hstring.
  rewrite value_is_not_tag, value_is_value.
  destruct g as [w d f l o c s r i p]. unfold rowClose.
  destruct o; run; rewrite <- ?app_assoc; reflexivity.
Qed.

Lemma generateAtom_valueListRight atom next relative g :
  Atom.type atom = Atom.ListRight ->
  Atom.string atom = ATOM_LIST_VALUE ->
  generateAtom env atom next relative g
  = Done (0%nat,
          set_writer (writer g ++ [EndElement "informaltable"; Characters newline]) g).
Proof.
  intros Htype Hstring. unfold generateAtom. rewrite Htype, Hstring.
  rewrite value_is_not_bullet, value_is_not_tag, value_is_value.
  destruct_generator g. run. rewrite <- ?app_assoc. reflexivity.
Qed.

(** *** Walking a value list *)

Lemma bind_returns {A B : Type} (m : M A) (f : A -> M B) :
  (forall g, exists a h, m g = Done (a, h)) ->
  (forall a g, exists b h, f a g = Done (b, h)) ->
  forall g, exists b h, (m ≫= f) g = Done (b, h).
Proof.
  intros Hm Hf g. destruct (Hm g) as (a & h & Hrun).
  rewrite (bind_Done _ _ _ _ _ Hrun). apply Hf.
Qed.

Lemma forEach_returns {A : Type} (body : A -> M unit) (l : list A) :
  (forall x g, exists u h, body x g = Done (u, h)) ->
  forall g, exists u h, forEach l body g = Done (u, h).
Proof.
  intros Hbody. induction l as [|x l IH]; intros g; [eexists; eexists; reflexivity|].
  simpl. apply bind_returns; [apply Hbody | intros _; exact IH].
Qed.

Ltac returns_step :=
  match goal with
  | |- forall _, _ => intros ?
  | |- exists _ _, (_ ≫= _) _ = _ => apply bind_returns
  | |- exists _ _, forEach _ _ _ = _ => apply forEach_returns
  | |- exists _ _, (if negb _ then _ else _) _ = _ => progress cbn [negb]
  | |- exists _ _, _ = _ =>
      first [ eexists; eexists; reflexivity
            | progress unfold generateSynopsisName, generateSimpleLink ]
  end.

(** [generateEnumValue] returns, unless the context node is an enum without
    a parent. *)
Lemma generateEnumValue_returns enumValue relative :
  (Node.isEnumType relative = true -> Node.parent relative <> None) ->
  forall g, exists u h, generateEnumValue env enumValue relative g = Done (u, h).
Proof.
  intros Hparent g. unfold generateEnumValue. destruct (Node.isEnumType relative).
  - destruct (Node.parent relative) as [node|]; [|exfalso; apply Hparent; reflexivity].
    repeat returns_step.
  - repeat returns_step.
Qed.

(** The tag atom of a value returns when an atom follows it, unless the
    context node is an enum without a parent. *)
Lemma generateAtom_valueTagLeft atom n next relative g :
  Atom.type atom = Atom.ListTagLeft ->
  Atom.string atom = ATOM_LIST_VALUE ->
  (Node.isEnumType relative = true -> Node.parent relative <> None) ->
  exists name,
    Forall (fun c => rowNeutral c = true) name
    /\ generateAtom env atom (n :: next) relative g
       = Done ((getAtomListValue env atom (n :: next)).2,
               set_writer
                 (writer g ++ nameCellOpen ++ name ++ nameCellClose
                  ++ (if Node.isEnumType relative
                      then valueCell (itemValue env relative (Atom.string n))
                      else [])) g).
Proof.
  intros Htype Hstring Hparent.
  assert (Hreturns : exists k h, generateAtom env atom (n :: next) relative g = Done (k, h)).
  { unfold generateAtom. rewrite Htype, Hstring, value_is_not_tag.
    cbv beta iota zeta.
    repeat first
      [ apply generateEnumValue_returns; exact Hparent
      | match goal with
        | |- exists _ _, (if QString.isEmpty ?v then _ else _) _ = _ =>
            destruct (QString.isEmpty v)
        | |- exists _ _, (if Node.isEnumType ?r then _ else _) _ = _ =>
            destruct (Node.isEnumType r)
        end
      | returns_step ]. }
  destruct Hreturns as (k & h & Hrun).
  destruct (generateAtom_valueTagLeft_calls _ _ _ _ _ _ Htype Hstring Hrun)
    as (-> & name & Hname & ->).
  exists name. split; [exact Hname | exact Hrun].
Qed.

(** An atom that the dispatcher handles moves the walk on by one atom plus
    those that the handler asks to skip. *)
Lemma walk_step fuel atom next rest relative numAtoms g k g' :
  isControl (Atom.type atom) = false ->
  generateAtom env atom next relative g = Done (k, g') ->
  advance k next = Some rest ->
  generateAtomList env (S fuel) (atom :: next) relative true numAtoms g
  = generateAtomList env fuel rest relative true (numAtoms + Z.of_nat (1 + k)) g'.
Proof.
  intros Hkind Hrun Hadvance. rewrite generateAtomList_other by exact Hkind.
  unfold otherAtomCase. cbv beta iota delta [mbind M_bind mret M_ret].
  rewrite Hrun. cbv beta iota.
  change (advance (1 + k) (atom :: next)) with (advance k next).
  rewrite Hadvance. reflexivity.
Qed.

Lemma keepsRow_refl g : keepsRow g g.
Proof.
  split; [reflexivity|]. split; [reflexivity|].
  exists []. rewrite app_nil_r. split; [reflexivity | constructor].
Qed.

Lemma keepsRow_trans g h i : keepsRow g h -> keepsRow h i -> keepsRow g i.
Proof.
  intros (Hflags1 & Hopen1 & out1 & Hout1 & Hneutral1)
         (Hflags2 & Hopen2 & out2 & Hout2 & Hneutral2).
  split; [congruence|]. split; [congruence|].
  exists (out1 ++ out2). split; [|apply Forall_app; split; assumption].
  rewrite Hout2, Hout1, app_assoc. reflexivity.
Qed.

Lemma isProse_not_control t : isProse t = true -> isControl t = false.
Proof. destruct t; try discriminate; reflexivity. Qed.

(** The atoms of a description write neither rows nor cells. *)
Lemma generateAtom_prose atom next relative g :
  isProse (Atom.type atom) = true ->
  exists h, generateAtom env atom next relative g = Done (0%nat, h) /\ keepsRow g h.
Proof.
  intros Hprose.
  assert (Hcases : Atom.type atom = Atom.String \/ Atom.type atom = Atom.ParaLeft
                   \/ Atom.type atom = Atom.ParaRight)
    by (destruct (Atom.type atom); try discriminate Hprose; auto).
  destruct Hcases as [Htype|[Htype|Htype]].
  - destruct (generateAtom_string env atom next relative g Htype)
      as (out & l & Hrun & Hout).
    eexists. split; [exact Hrun|].
    destruct_generator g. split; [reflexivity|]. split; [reflexivity|].
    exists out. split; [reflexivity | exact Hout].
  - unfold generateAtom. rewrite Htype. destruct_generator g. run.
    eexists. split; [reflexivity|].
    split; [reflexivity|]. split; [reflexivity|].
    eexists. split; [reflexivity | repeat constructor].
  - unfold generateAtom, endLink. rewrite Htype.
    destruct g as [w d f [] o c s r i []]; run;
      (eexists; split; [reflexivity|]);
      (split; [reflexivity|]); (split; [reflexivity|]);
      (eexists; split; [run; rewrite <- ?app_assoc; try reflexivity;
                        symmetry; apply app_nil_r
                       | repeat constructor]).
Qed.

(** The walk goes through a description to the atom after it. *)
Lemma prose_walk description rest relative : forall fuel numAtoms g,
  Forall (fun atom => isProse (Atom.type atom) = true) description ->
  exists h,
    keepsRow g h
    /\ generateAtomList env (List.length description + fuel) (description ++ rest)
         relative true numAtoms g
       = generateAtomList env fuel rest relative true
           (numAtoms + Z.of_nat (List.length description)) h.
Proof.
  induction description as [|atom next IH]; intros fuel numAtoms g Hprose.
  - exists g. split; [apply keepsRow_refl|]. simpl. rewrite Z.add_0_r. reflexivity.
  - inversion Hprose as [|? ? Hatom Hnext]; subst.
    destruct (generateAtom_prose atom (next ++ rest) relative g Hatom) as (h1 & Hrun & Hrow1).
    destruct (IH fuel (numAtoms + Z.of_nat (1 + 0)) h1 Hnext) as (h & Hrow & Hwalk).
    exists h. split; [exact (keepsRow_trans _ _ _ Hrow1 Hrow)|].
    change (List.length (atom :: next) + fuel)%nat with (S (List.length next + fuel)).
    change ((atom :: next) ++ rest) with (atom :: (next ++ rest)).
    rewrite (walk_step _ _ _ (next ++ rest) _ _ _ _ _
               (isProse_not_control _ Hatom) Hrun eq_refl).
    rewrite Hwalk. f_equal. simpl List.length. lia.
Qed.

Lemma prose_matchAhead description rest :
  Forall (fun atom => isProse (Atom.type atom) = true) description ->
  matchAhead (description ++ Atom.make Atom.ListItemRight ATOM_LIST_VALUE :: rest)
    Atom.ListItemRight
  = isEmptyList description.
Proof.
  intros Hprose. destruct description as [|atom next]; [reflexivity|].
  inversion Hprose as [|? ? Hatom _]; subst. simpl.
  destruct (Atom.type atom); try discriminate Hatom; reflexivity.
Qed.

(** A row of three cells. *)
Lemma rowCells_row name value description empty more :
  Forall (fun c => rowNeutral c = true) name ->
  Forall (fun c => rowNeutral c = true) description ->
  rowCells None
    ((nameCellOpen ++ name ++ nameCellClose ++ valueCell value
      ++ descriptionCellOpen empty ++ description ++ rowClose (negb empty)) ++ more)
  = 3%nat :: rowCells None more.
Proof.
  intros Hname Hdescription. unfold nameCellOpen, nameCellClose, valueCell.
  rewrite <- !app_assoc.
  cbn [app rowCells opensElement closesElement isCell String.eqb Ascii.eqb
         Bool.eqb orb option_map].
  rewrite (rowCells_neutral name) by exact Hname.
  destruct (QString.isEmpty value), empty; unfold descriptionCellOpen, rowClose;
    cbn [negb app rowCells opensElement closesElement isCell String.eqb Ascii.eqb
           Bool.eqb orb option_map];
    rewrite (rowCells_neutral description) by exact Hdescription;
    reflexivity.
Qed.

Section EnumValueList.

Variable relative : Node.Node.
Hypothesis relative_enum : Node.isEnumType relative = true.
Hypothesis relative_parent : Node.parent relative <> None.
Hypothesis skip_name : forall atom next, (getAtomListValue env atom next).2 = 1%nat.

(** The walk goes through one item and writes one row of three cells. *)
Lemma value_item_walk item rest fuel numAtoms g :
  threeColumnEnumValueTable_ (flags g) = true ->
  Forall (fun atom => isProse (Atom.type atom) = true) item.2 ->
  exists row h,
    rendersItem env relative item row
    /\ writer h = writer g ++ row
    /\ flags h = flags g
    /\ generateAtomList env (valueItemSteps item + fuel)
         (valueItem item ++ rest) relative true numAtoms g
       = generateAtomList env fuel rest relative true
           (numAtoms + Z.of_nat (List.length (valueItem item))) h.
Proof.
  intros Hthree Hprose. destruct item as [name description]. simpl in Hprose.
  unfold valueItem. cbn [fst snd].
  set (tagLeft := Atom.make Atom.ListTagLeft ATOM_LIST_VALUE).
  set (nameAtom := Atom.make Atom.String name).
  set (tagRight := Atom.make Atom.ListTagRight ATOM_LIST_VALUE).
  set (itemLeft := Atom.make Atom.ListItemLeft ATOM_LIST_VALUE).
  set (itemRight := Atom.make Atom.ListItemRight ATOM_LIST_VALUE).
  set (tail := description ++ itemRight :: rest).
  destruct (generateAtom_valueTagLeft tagLeft nameAtom (tagRight :: itemLeft :: tail)
              relative g eq_refl eq_refl (fun _ => relative_parent))
    as (nameCalls & Hname & Htag).
  rewrite skip_name, relative_enum in Htag.
  change (Atom.string nameAtom) with name in Htag.
  set (g1 := set_writer (writer g ++ nameCellOpen ++ nameCalls ++ nameCellClose
                         ++ valueCell (itemValue env relative name)) g) in Htag.
  pose proof (generateAtom_valueTagRight tagRight (itemLeft :: tail) relative g1
                eq_refl eq_refl) as HtagRight.
  pose proof (generateAtom_valueItemLeft itemLeft tail relative g1 eq_refl eq_refl)
    as HitemLeft.
  assert (Hflags1 : flags g1 = flags g) by (destruct_generator g; reflexivity).
  rewrite Hflags1, Hthree in HitemLeft.
  unfold tail at 2 3 in HitemLeft. rewrite (prose_matchAhead _ _ Hprose) in HitemLeft.
  set (g2 := set_inListItemLineOpen (negb (isEmptyList description))
               (set_writer (writer g1 ++ descriptionCellOpen (isEmptyList description)) g1))
    in HitemLeft.
  destruct (prose_walk description (itemRight :: rest) relative (S fuel)
              (numAtoms + Z.of_nat (1 + 1) + Z.of_nat (1 + 0) + Z.of_nat (1 + 0)) g2 Hprose)
    as (g3 & (Hflags3 & Hopen3 & descriptionCalls & Hwriter3 & Hdescription) & Hwalk).
  pose proof (generateAtom_valueItemRight itemRight rest relative g3 eq_refl eq_refl)
    as HitemRight.
  set (g4 := set_inListItemLineOpen false
               (set_writer (writer g3 ++ rowClose (inListItemLineOpen g3)) g3))
    in HitemRight.
  exists (nameCellOpen ++ nameCalls ++ nameCellClose
          ++ valueCell (itemValue env relative name)
          ++ descriptionCellOpen (isEmptyList description)
          ++ descriptionCalls
          ++ rowClose (negb (isEmptyList description))), g4.
  split; [exists nameCalls, descriptionCalls; repeat split; assumption|].
  assert (Hopen2 : inListItemLineOpen g2 = negb (isEmptyList description))
    by (destruct_generator g; reflexivity).
  assert (Hwriter2 : writer g2
                     = writer g ++ nameCellOpen ++ nameCalls ++ nameCellClose
                       ++ valueCell (itemValue env relative name)
                       ++ descriptionCellOpen (isEmptyList description)).
  { destruct_generator g. unfold g2, g1. run. rewrite <- !app_assoc. reflexivity. }
  assert (Hflags2 : flags g2 = flags g) by (destruct_generator g; reflexivity).
  assert (Hwriter4 : writer g4 = writer g3 ++ rowClose (inListItemLineOpen g3))
    by (unfold g4; destruct_generator g3; reflexivity).
  assert (Hflags4 : flags g4 = flags g3)
    by (unfold g4; destruct_generator g3; reflexivity).
  split.
  { rewrite Hwriter4, Hopen3, Hopen2, Hwriter3, Hwriter2, <- !app_assoc. reflexivity. }
  split; [congruence|].
  unfold valueItemSteps. cbn [fst snd].
  change (4 + List.length description + fuel)%nat
    with (S (S (S (S (List.length description + fuel))))).
  replace (S (List.length description + fuel))
    with (List.length description + S fuel)%nat by lia.
  rewrite <- !app_assoc. cbn [app]. fold tail.
  rewrite (walk_step _ tagLeft _ (tagRight :: itemLeft :: tail) _ _ _ _ _ eq_refl Htag eq_refl).
  rewrite (walk_step _ tagRight _ (itemLeft :: tail) _ _ _ _ _ eq_refl HtagRight eq_refl).
  rewrite (walk_step _ itemLeft _ tail _ _ _ _ _ eq_refl HitemLeft eq_refl).
  unfold tail. rewrite Hwalk.
  rewrite (walk_step _ itemRight _ rest _ _ _ _ _ eq_refl HitemRight eq_refl).
  f_equal. cbn [List.length]. rewrite length_app. cbn [List.length]. lia.
Qed.

Lemma valueItems_cons item items :
  valueItems (item :: items) = valueItem item ++ valueItems items.
Proof. reflexivity. Qed.

(** The walk goes through the items and writes one row for each. *)
Lemma value_items_walk items rest : forall fuel numAtoms g,
  threeColumnEnumValueTable_ (flags g) = true ->
  Forall (fun item => Forall (fun atom => isProse (Atom.type atom) = true) item.2)
    items ->
  exists rows h,
    Forall2 (rendersItem env relative) items rows
    /\ writer h = writer g ++ List.concat rows
    /\ flags h = flags g
    /\ generateAtomList env (valueItemsSteps items + fuel)
         (valueItems items ++ rest) relative true numAtoms g
       = generateAtomList env fuel rest relative true
           (numAtoms + Z.of_nat (List.length (valueItems items))) h.
Proof.
  induction items as [|item items IH]; intros fuel numAtoms g Hthree Hprose.
  - exists [], g. split; [constructor|]. split; [simpl; rewrite app_nil_r; reflexivity|].
    split; [reflexivity|]. simpl. rewrite Z.add_0_r. reflexivity.
  - inversion Hprose as [|? ? Hitem Hitems]; subst.
    destruct (value_item_walk item (valueItems items ++ rest)
                (valueItemsSteps items + fuel) numAtoms g Hthree Hitem)
      as (row & h1 & Hrow & Hwriter1 & Hflags1 & Hwalk1).
    destruct (IH fuel (numAtoms + Z.of_nat (List.length (valueItem item))) h1
                ltac:(rewrite Hflags1; exact Hthree) Hitems)
      as (rows & h & Hrows & Hwriter & Hflags & Hwalk).
    exists (row :: rows), h.
    split; [constructor; assumption|].
    split; [rewrite Hwriter, Hwriter1, <- app_assoc; reflexivity|].
    split; [congruence|].
    rewrite valueItems_cons, <- app_assoc.
    change (valueItemsSteps (item :: items))
      with (valueItemSteps item + valueItemsSteps items)%nat.
    rewrite <- Nat.add_assoc, Hwalk1, Hwalk. f_equal.
    rewrite length_app. lia.
Qed.

(** The walk goes through a value list whose scan finds three columns: it
    writes the header, one row for each item, and the end of the table. *)
Lemma value_list_walk items fuel numAtoms g :
  isThreeColumnEnumValueTable env (Atom.make Atom.ListLeft ATOM_LIST_VALUE)
    (valueItems items ++ [Atom.make Atom.ListRight ATOM_LIST_VALUE]) = true ->
  Forall (fun item => Forall (fun atom => isProse (Atom.type atom) = true) item.2)
    items ->
  exists rows h,
    Forall2 (rendersItem env relative) items rows
    /\ writer h = writer g ++ closeParagraph g ++ valueListHeader true
                  ++ List.concat rows
                  ++ [EndElement "informaltable"; Characters newline]
    /\ generateAtomList env (S (valueItemsSteps items + S (S fuel)))
         (valueList items) relative true numAtoms g
       = Done (([], numAtoms + Z.of_nat (List.length (valueList items))), h).
Proof.
  intros Hthree Hprose. unfold valueList.
  set (listLeft := Atom.make Atom.ListLeft ATOM_LIST_VALUE) in *.
  set (listRight := Atom.make Atom.ListRight ATOM_LIST_VALUE) in *.
  pose proof (generateAtom_valueListLeft listLeft (valueItems items ++ [listRight])
                relative g eq_refl eq_refl) as Hleft.
  rewrite Hthree, relative_enum in Hleft. cbn [andb] in Hleft.
  fold (closeParagraph g) in Hleft.
  set (g0 := set_flags _ _) in Hleft.
  assert (Hflags0 : threeColumnEnumValueTable_ (flags g0) = true)
    by (unfold g0; destruct_generator g; reflexivity).
  assert (Hwriter0 : writer g0 = writer g ++ closeParagraph g ++ valueListHeader true)
    by (unfold g0; destruct_generator g; reflexivity).
  destruct (value_items_walk items [listRight] (S (S fuel)) (numAtoms + Z.of_nat (1 + 0))
              g0 Hflags0 Hprose)
    as (rows & h1 & Hrows & Hwriter1 & _ & Hwalk).
  pose proof (generateAtom_valueListRight listRight [] relative h1 eq_refl eq_refl)
    as Hright.
  set (h := set_writer _ h1) in Hright.
  exists rows, h. split; [exact Hrows|].
  split.
  { assert (Hwriter : writer h
                      = writer h1 ++ [EndElement "informaltable"; Characters newline])
      by (unfold h; destruct_generator h1; reflexivity).
    rewrite Hwriter, Hwriter1, Hwriter0, <- !app_assoc. reflexivity. }
  rewrite (walk_step _ listLeft _ (valueItems items ++ [listRight]) _ _ _ _ _
             eq_refl Hleft eq_refl).
  rewrite Hwalk.
  rewrite (walk_step _ listRight _ [] _ _ _ _ _ eq_refl Hright eq_refl).
  rewrite generateAtomList_nil. unfold mret, M_ret. do 3 f_equal.
  cbn [List.length]. rewrite length_app. cbn [List.length]. lia.
Qed.

End EnumValueList.

Lemma valueItemsSteps_length items :
  (valueItemsSteps items <= List.length (valueItems items))%nat.
Proof.
  induction items as [|item items IH]; [reflexivity|].
  rewrite valueItems_cons, length_app.
  change (valueItemsSteps (item :: items))
    with (valueItemSteps item + valueItemsSteps items)%nat.
  unfold valueItemSteps, valueItem. rewrite !length_app. cbn [List.length]. lia.
Qed.

(** The rows of the items have three cells each. *)
Lemma rowCells_rows relative items rows :
  Forall2 (rendersItem env relative) items rows ->
  forall more,
    rowCells None (List.concat rows ++ more)
    = List.repeat 3%nat (List.length items) ++ rowCells None more.
Proof.
  induction 1 as [|item row items rows Hrow _ IH]; intros more; [reflexivity|].
  destruct Hrow as (name & description & Hname & Hdescription & ->).
  cbn [List.concat List.length List.repeat]. rewrite <- app_assoc.
  rewrite rowCells_row by assumption. rewrite IH. reflexivity.
Qed.

End ValueList.



Lemma cellCount_header (valueColumn : bool) :
  cellCount (valueListHeader valueColumn) = if valueColumn then 3%nat else 2%nat.
Proof. destruct valueColumn; reflexivity. Qed.

(** X2.  In a value list, the header cell [Value] is written exactly when
    the scan of the list finds three columns and the context node is an
    enum, whereas the cell of the value in a row is written exactly when
    the context node is an enum, whatever the three-column flag: the tag
    atom of a value writes the cell of the name, and after it the cell of
    the value if and only if the context node is an enum. *)
Theorem value_column_cells (env : Collaborators) (relative : Node.Node) (g : Generator) :
  (forall atom next,
     Atom.type atom = Atom.ListLeft -> Atom.string atom = ATOM_LIST_VALUE ->
     let valueColumn :=
       isThreeColumnEnumValueTable env atom next && Node.isEnumType relative in
     exists h,
       generateAtom env atom next relative g = Done (0%nat, h)
       /\ writer h = writer g ++ closeParagraph g ++ valueListHeader valueColumn
       /\ cellCount (valueListHeader valueColumn)
          = if valueColumn then 3%nat else 2%nat)
  /\ (forall atom n next,
        Atom.type atom = Atom.ListTagLeft -> Atom.string atom = ATOM_LIST_VALUE ->
        (Node.isEnumType relative = true -> Node.parent relative <> None) ->
        exists name h,
          Forall (fun c => rowNeutral c = true) name
          /\ generateAtom env atom (n :: next) relative g
             = Done ((getAtomListValue env atom (n :: next)).2, h)
          /\ writer h
             = writer g ++ nameCellOpen ++ name ++ nameCellClose
               ++ (if Node.isEnumType relative
                   then valueCell (itemValue env relative (Atom.string n))
                   else [])
          /\ cellCount (nameCellOpen ++ name ++ nameCellClose
                        ++ (if Node.isEnumType relative
                            then valueCell (itemValue env relative (Atom.string n))
                            else []))
             = if Node.isEnumType relative then 2%nat else 1%nat).
Proof.
  split.
  - intros atom next Htype Hstring valueColumn.
    eexists. split; [apply generateAtom_valueListLeft; assumption|].
    split; [destruct_generator g; reflexivity | apply cellCount_header].
  - intros atom n next Htype Hstring Hparent.
    destruct (generateAtom_valueTagLeft env atom n next relative g Htype Hstring Hparent)
      as (name & Hname & Hrun).
    exists name. eexists. split; [exact Hname|]. split; [exact Hrun|].
    split; [destruct_generator g; reflexivity|].
    rewrite !cellCount_app, (cellCount_neutral name Hname).
    destruct (Node.isEnumType relative); [|reflexivity].
    unfold valueCell.
    destruct (QString.isEmpty (itemValue env relative (Atom.string n))); reflexivity.
Qed.

Lemma value_column_cells_witness :
  exists name h,
    Forall (fun c => rowNeutral c = true) name
    /\ generateAtom (Sample.env [] colorLiterals)
         (Atom.make Atom.ListTagLeft ATOM_LIST_VALUE)
         (Atom.make Atom.String "Green" :: []) Sample.color Sample.fresh
       = Done (1%nat, h)
    /\ writer h
       = writer Sample.fresh ++ nameCellOpen ++ name ++ nameCellClose
         ++ valueCell EmptyString
    /\ cellCount (nameCellOpen ++ name ++ nameCellClose ++ valueCell EmptyString)
       = 2%nat.
Proof.
  apply (proj2 (value_column_cells (Sample.env [] colorLiterals) Sample.color
                  Sample.fresh)
           (Atom.make Atom.ListTagLeft ATOM_LIST_VALUE)
           (Atom.make Atom.String "Green") []).
  - reflexivity.
  - reflexivity.
  - discriminate.
Defined.

Lemma starts_app (l1 l2 : list WriterCall) :
  starts (l1 ++ l2) = (starts l1 + starts l2)%nat.
Proof. unfold starts. rewrite List.filter_app, length_app. reflexivity. Qed.

Lemma ends_app (l1 l2 : list WriterCall) :
  ends (l1 ++ l2) = (ends l1 + ends l2)%nat.
Proof. unfold ends. rewrite List.filter_app, length_app. reflexivity. Qed.

Lemma nesting_app (l1 l2 : list WriterCall) :
  nesting (l1 ++ l2) = nesting l1 + nesting l2.
Proof. unfold nesting. rewrite starts_app, ends_app. lia. Qed.

Lemma append_nil_r (s : string) : s +:+ EmptyString = s.
Proof.
  induction s as [|c s IH]; [reflexivity|].
  change (String c (s +:+ EmptyString) = String c s). rewrite IH. reflexivity.
Qed.

Lemma append_assoc (s1 s2 s3 : string) : (s1 +:+ s2) +:+ s3 = s1 +:+ (s2 +:+ s3).
Proof.
  induction s1 as [|c s1 IH]; [reflexivity|].
  change (String c ((s1 +:+ s2) +:+ s3) = String c (s1 +:+ (s2 +:+ s3))).
  rewrite IH. reflexivity.
Qed.

Lemma characters_app (l1 l2 : list WriterCall) :
  characters (l1 ++ l2) = characters l1 +:+ characters l2.
Proof.
  induction l1 as [|c l1 IH]; [reflexivity|].
  destruct c; simpl; rewrite ?IH, ?append_assoc; reflexivity.
Qed.

Lemma substring_all (s : string) : String.substring 0 (String.length s) s = s.
Proof. induction s as [|c s IH]; [reflexivity|]. simpl. rewrite IH. reflexivity. Qed.

(** [left(k)] and [mid(k)] cut a string in two. *)
Lemma left_mid (s : string) : forall k, QString.left k s +:+ QString.mid k s = s.
Proof.
  unfold QString.left, QString.mid.
  induction s as [|c s IH]; intros [|k]; try reflexivity.
  - simpl. rewrite substring_all. reflexivity.
  - simpl String.substring. simpl String.length.
    change (String c (String.substring 0 k s
                      +:+ String.substring k (String.length s - k) s) = String c s).
    f_equal. apply IH.
Qed.

Lemma funcLeftParen_cons (c d : ascii) (s : string) :
  funcLeftParen (String c (String d s))
  = if negb (QString.isSpace c) && Ascii.eqb d "("
    then Some 1%nat
    else option_map S (funcLeftParen (String d s)).
Proof. reflexivity. Qed.

Lemma funcLeftParen_positive (s : string) : forall k,
  funcLeftParen s = Some k -> (1 <= k)%nat.
Proof.
  induction s as [|c s IH]; intros k Hk; [discriminate|].
  destruct s as [|d s]; [discriminate|].
  rewrite funcLeftParen_cons in Hk.
  destruct (negb (QString.isSpace c) && Ascii.eqb d "("); [injection Hk as <-; lia|].
  destruct (funcLeftParen (String d s)); [cbv [option_map] in Hk; injection Hk as <-; lia | discriminate].
Qed.

Lemma funcLeftParen_paren (s : string) : forall k,
  funcLeftParen s = Some k ->
  String.get k s = Some "("%char
  /\ exists c, String.get (Nat.pred k) s = Some c /\ QString.isSpace c = false.
Proof.
  induction s as [|c s IH]; intros k Hk; [discriminate|].
  destruct s as [|d s]; [discriminate|].
  rewrite funcLeftParen_cons in Hk.
  destruct (negb (QString.isSpace c) && Ascii.eqb d "(") eqn:Hhere.
  - injection Hk as <-. apply andb_prop in Hhere. destruct Hhere as [Hc Hd].
    apply Ascii.eqb_eq in Hd. subst d. split; [reflexivity|].
    exists c. split; [reflexivity|]. apply negb_true_iff, Hc.
  - destruct (funcLeftParen (String d s)) as [k'|] eqn:Hrest; [|discriminate].
    cbv [option_map] in Hk. injection Hk as <-. destruct (IH k' eq_refl) as (Hparen & c' & Hbefore & Hspace).
    split; [exact Hparen|]. exists c'. split; [|exact Hspace].
    pose proof (funcLeftParen_positive _ _ Hrest) as Hpositive.
    destruct k' as [|k']; [lia | exact Hbefore].
Qed.

Lemma generateLink_run (atom : Atom.Atom) (g : Generator) :
  exists out,
    generateLink atom g
    = Done (tt, set_inLink (match funcLeftParen (Atom.string atom) with
                            | Some _ => false
                            | None => inLink g
                            end)
                  (set_writer (writer g ++ out) g))
    /\ characters out = Atom.string atom
    /\ starts out = 0%nat
    /\ match funcLeftParen (Atom.string atom) with
       | Some k =>
           out = [Characters (QString.left k (Atom.string atom));
                  EndElement "link";
                  Characters (QString.mid k (Atom.string atom))]
           /\ String.get k (Atom.string atom) = Some "("%char
       | None => out = [Characters (Atom.string atom)]
       end.
Proof.
  unfold generateLink.
  destruct (funcLeftParen (Atom.string atom)) as [k|] eqn:Hparen.
  - eexists. split; [destruct_generator g; run; rewrite <- !app_assoc; reflexivity|].
    split; [|split; [reflexivity|split; [reflexivity|]]].
    + simpl. rewrite append_nil_r. apply left_mid.
    + apply (funcLeftParen_paren _ _ Hparen).
  - eexists. split; [destruct_generator g; run; reflexivity|].
    split; [simpl; apply append_nil_r|]. split; reflexivity.
Qed.

(** The attribute that [beginLink] adds to a link to an obsolete node. *)
Lemma beginLink_run (link : string) (node relative : option Node.Node) (g : Generator) :
  exists role,
    beginLink link node relative g
    = Done (tt, set_inLink true
                  (set_writer (writer g ++ StartElement dbNamespace "link"
                                           :: AttributeNS xlinkNamespace "href" link
                                           :: role) g))
    /\ (role = [] \/ role = [Attribute "role" "obsolete"]).
Proof.
  unfold beginLink.
  match goal with
  | |- context [when ?b (writeAttribute _ _)] => destruct b
  end.
  - exists [Attribute "role" "obsolete"]. split; [|right; reflexivity].
    destruct_generator g. run. rewrite <- !app_assoc. reflexivity.
  - exists []. split; [|left; reflexivity].
    destruct_generator g. run. rewrite <- !app_assoc. reflexivity.
Qed.

Lemma endLink_run (g : Generator) :
  endLink g
  = Done (tt, set_inLink false
                (set_writer (writer g ++ if inLink g then [EndElement "link"] else []) g)).
Proof.
  unfold endLink. destruct g as [w d f [] o c s r i p]; run;
    rewrite ?app_nil_r; reflexivity.
Qed.


(** X4.  An auto-link atom that is written as a link opens exactly one
    link element and closes exactly one, whether the link is closed before
    an opening parenthesis of the text or at the end; the character data
    written is the string of the atom, and the link flag is clear
    afterwards. *)
Theorem autolink_closed_once (env : Collaborators) (atom : Atom.Atom)
    (next : list Atom.Atom) (relative : Node.Node) (link : string)
    (node : option Node.Node) (g : Generator) :
  Atom.type atom = Atom.AutoLink \/ Atom.type atom = Atom.NavAutoLink ->
  inLink g = false ->
  inContents_ (flags g) = false ->
  inSectionHeading_ (flags g) = false ->
  getAutoLink env atom relative = (link, node) ->
  QString.isEmpty link = false ->
  autoLinkCleared link node relative = false ->
  exists out,
    generateAtom env atom next relative g = Done (0%nat, set_writer (writer g ++ out) g)
    /\ opens "link" out = 1%nat /\ closes "link" out = 1%nat
    /\ starts out = 1%nat /\ ends out = 1%nat
    /\ characters out = Atom.string atom.
Proof.
  intros Htype HinLink Hcontents Hheading Hlink Hnonempty Hkept.
  assert (Hbody : generateAtom env atom next relative g
                  = (l ← get inLink;
                     f ← get flags;
                     (if negb l && negb (inContents_ f) && negb (inSectionHeading_ f) then
                        let '(link, node) := getAutoLink env atom relative in
                        let link :=
                          if autoLinkCleared link node relative
                          then EmptyString else link in
                        if QString.isEmpty link then writeCharacters (Atom.string atom)
                        else
                          beginLink link node (Some relative);;
                          generateLink atom;;
                          endLink
                      else writeCharacters (Atom.string atom));;
                     mret 0%nat) g).
  { unfold generateAtom. destruct Htype as [-> | ->]; reflexivity. }
  rewrite Hbody. clear Hbody.
  destruct (beginLink_run link node (Some relative) g) as (role & Hbegin & Hrole).
  set (g1 := set_inLink true _) in Hbegin.
  destruct (generateLink_run atom g1) as (text & Htext & Hcharacters & Hstarts & Hshape).
  set (g2 := set_inLink _ _) in Htext.
  pose proof (endLink_run g2) as Hend.
  set (g3 := set_inLink false _) in Hend.
  exists ([StartElement dbNamespace "link"; AttributeNS xlinkNamespace "href" link]
          ++ role ++ text
          ++ match funcLeftParen (Atom.string atom) with
             | Some _ => []
             | None => [EndElement "link"]
             end).
  split.
  { destruct g as [w d [ic ish ith ntr tc] l o c s r i p].
    simpl in HinLink, Hcontents, Hheading. subst l ic ish.
    run. cbn [negb andb]. rewrite Hlink. cbv beta iota. rewrite Hkept, Hnonempty.
    rewrite Hbegin, Htext, Hend. unfold g3, g2, g1.
    destruct (funcLeftParen (Atom.string atom)); run;
      rewrite <- ?app_assoc; cbn [app]; rewrite ?app_nil_r; reflexivity. }
  assert (Hrole' : opens "link" role = 0%nat /\ closes "link" role = 0%nat
                   /\ starts role = 0%nat /\ ends role = 0%nat
                   /\ characters role = EmptyString)
    by (destruct Hrole as [-> | ->]; repeat split; reflexivity).
  destruct Hrole' as (Hr1 & Hr2 & Hr3 & Hr4 & Hr5).
  rewrite !opens_app, !closes_app, !starts_app, !ends_app, !characters_app.
  rewrite Hr1, Hr2, Hr3, Hr4, Hr5, Hcharacters, Hstarts.
  destruct (funcLeftParen (Atom.string atom)) as [k|].
  - destruct Hshape as [-> _]. repeat split; try reflexivity.
    simpl. apply append_nil_r.
  - subst text. repeat split; try reflexivity. simpl. apply append_nil_r.
Qed.

Lemma autolink_closed_once_witness :
  exists out,
    generateAtom (Sample.env callDatabase []) (Atom.make Atom.AutoLink "clear()") []
      Sample.oldWidget Sample.fresh
    = Done (0%nat, set_writer (writer Sample.fresh ++ out) Sample.fresh)
    /\ opens "link" out = 1%nat /\ closes "link" out = 1%nat
    /\ starts out = 1%nat /\ ends out = 1%nat
    /\ characters out = "clear()".
Proof.
  apply (autolink_closed_once (Sample.env callDatabase [])
           (Atom.make Atom.AutoLink "clear()") [] Sample.oldWidget
           "oldMember.xml" (Some Sample.oldMember) Sample.fresh);
    first [reflexivity | left; reflexivity].
Defined.


(** ** Formatting *)

(** X5.  A formatting-begin atom and the formatting-end atom of the same
    formatting, other than the link formatting, open and close the same
    number of elements: one for bold, italic, underline, subscript,
    superscript, teletype and parameter, none for every other
    formatting. *)
Theorem formatting_pair_balanced (env : Collaborators) (left right : Atom.Atom)
    (next next' : list Atom.Atom) (relative : Node.Node) (g : Generator) :
  Atom.type left = Atom.FormattingLeft ->
  Atom.type right = Atom.FormattingRight ->
  Atom.string right = Atom.string left ->
  Atom.string left <> ATOM_FORMATTING_LINK ->
  exists out1 out2,
    generateAtom env left next relative g
    = Done (0%nat, set_writer (writer g ++ out1) g)
    /\ generateAtom env right next' relative (set_writer (writer g ++ out1) g)
       = Done (0%nat, set_writer (writer g ++ out1 ++ out2) g)
    /\ starts out1 = (if isElementFormatting (Atom.string left) then 1 else 0)%nat
    /\ ends out2 = starts out1
    /\ ends out1 = 0%nat /\ starts out2 = 0%nat.
Proof.
  intros Hleft Hright Hstring Hlink.
  unfold generateAtom. rewrite Hleft, Hright, Hstring.
  apply String.eqb_neq in Hlink. rewrite Hlink.
  unfold isElementFormatting.
  destruct g as [w d f l o c s r i p].
  repeat
    match goal with
    | |- context [String.eqb (Atom.string left) ?k] =>
        destruct (String.eqb (Atom.string left) k)
    end;
    cbn [orb]; run;
    eexists; eexists;
    try (split; [first [rewrite <- ?app_assoc; reflexivity | symmetry; apply app_nil_r]|]);
    try ((split; [first [rewrite <- ?app_assoc; reflexivity
                   | rewrite ?app_nil_r; reflexivity]|]);
    repeat split; reflexivity).
Qed.

Lemma formatting_pair_balanced_witness :
  exists out1 out2,
    generateAtom (Sample.env [] []) (Atom.make Atom.FormattingLeft ATOM_FORMATTING_BOLD)
      [] Sample.page Sample.fresh
    = Done (0%nat, set_writer (writer Sample.fresh ++ out1) Sample.fresh)
    /\ generateAtom (Sample.env [] [])
         (Atom.make Atom.FormattingRight ATOM_FORMATTING_BOLD) [] Sample.page
         (set_writer (writer Sample.fresh ++ out1) Sample.fresh)
       = Done (0%nat, set_writer (writer Sample.fresh ++ out1 ++ out2) Sample.fresh)
    /\ starts out1 = 1%nat
    /\ ends out2 = starts out1
    /\ ends out1 = 0%nat /\ starts out2 = 0%nat.
Proof.
  apply (formatting_pair_balanced (Sample.env [] [])
           (Atom.make Atom.FormattingLeft ATOM_FORMATTING_BOLD)
           (Atom.make Atom.FormattingRight ATOM_FORMATTING_BOLD)
           [] [] Sample.page Sample.fresh);
    first [reflexivity | discriminate].
Defined.

(** ** The walk *)

Section Walk.

Variable env : Collaborators.

(** A walk that does not generate returns, with the generator as it was. *)
Lemma generateAtomList_silent fuel :
  forall atoms relative numAtoms g,
    (List.length atoms < fuel)%nat ->
    exists stop numAtoms',
      generateAtomList env fuel atoms relative false numAtoms g
      = Done ((stop, numAtoms'), g)
      /\ (List.length stop <= List.length atoms)%nat.
Proof.
  induction fuel as [|fuel IH]; intros atoms relative numAtoms g Hfuel; [lia|].
  destruct atoms as [|atom next].
  { exists [], numAtoms. split; [reflexivity | simpl; lia]. }
  simpl in Hfuel.
  destruct (atom_kind (Atom.type atom)) as [[Hif|Hend]|Hother].
  - rewrite generateAtomList_formatIf by exact Hif. unfold formatIfCase.
    destruct (IH next relative numAtoms g ltac:(lia)) as (r1 & n1 & H1 & Hr1).
    rewrite (bind_Done _ _ _ _ _ H1).
    destruct r1 as [|atom1 next1].
    { exists [], n1. split; [reflexivity | simpl; lia]. }
    simpl in Hr1.
    assert (Htail : forall atom2 next2 n2,
               (List.length (atom2 :: next2) <= List.length next)%nat ->
               exists stop numAtoms',
                 (if bool_decide (Atom.type atom2 = Atom.FormatEndif) then
                    numAtoms3 ←
                      (if false && (numAtoms =? n2) then
                         report (Warning (NodeLocation relative)
                                   (OutputFormatNotHandled format (outFileName env)));;
                         r ← generateAtomList env fuel
                               [Atom.make Atom.UnhandledFormat format] relative false n2;
                         mret r.2
                       else mret n2);
                    generateAtomList env fuel next2 relative false numAtoms3
                  else generateAtomList env fuel (atom2 :: next2) relative false n2) g
                 = Done ((stop, numAtoms'), g)
                 /\ (List.length stop <= List.length (atom :: next))%nat).
    { intros atom2 next2 n2 Hlen. simpl in Hlen.
      destruct (bool_decide (Atom.type atom2 = Atom.FormatEndif)).
      - cbn [andb]. rewrite (bind_Done (mret n2) _ g n2 g eq_refl).
        destruct (IH next2 relative n2 g ltac:(lia)) as (stop & n' & Hrun & Hstop).
        exists stop, n'. split; [exact Hrun | simpl; lia].
      - destruct (IH (atom2 :: next2) relative n2 g ltac:(simpl; lia))
          as (stop & n' & Hrun & Hstop).
        exists stop, n'. split; [exact Hrun | simpl in *; lia]. }
    destruct (bool_decide (Atom.type atom1 = Atom.FormatElse)).
    + destruct (IH next1 relative (n1 + 1) g ltac:(lia)) as (r2 & n2 & H2 & Hr2).
      rewrite (bind_Done _ _ _ _ _ H2).
      destruct r2 as [|atom2 next2].
      { exists [], n2. split; [reflexivity | simpl; lia]. }
      apply Htail. simpl in *. lia.
    + rewrite (bind_Done (mret (atom1 :: next1, n1)) _ g _ g eq_refl).
      apply Htail. simpl. lia.
  - rewrite generateAtomList_branchEnd by exact Hend.
    exists (atom :: next), numAtoms. split; [reflexivity | lia].
  - rewrite generateAtomList_other by exact Hother. unfold otherAtomCase.
    rewrite (bind_Done (mret 1%nat) _ g 1%nat g eq_refl).
    change (advance 1 (atom :: next)) with (Some next). cbv beta iota.
    destruct (IH next relative numAtoms g ltac:(lia)) as (stop & n' & Hrun & Hstop).
    exists stop, n'. split; [exact Hrun | simpl; lia].
Qed.

Lemma advance_suffix n : forall (atoms rest : list Atom.Atom),
  advance n atoms = Some rest -> exists prefix, atoms = prefix ++ rest.
Proof.
  induction n as [|n IH]; intros atoms rest H; simpl in H.
  - injection H as <-. exists []. reflexivity.
  - destruct atoms as [|atom next]; [discriminate|].
    destruct (IH _ _ H) as (prefix & ->). exists (atom :: prefix). reflexivity.
Qed.

(** The chain that a walk returns is the end of the chain it was given. *)
Lemma generateAtomList_suffix fuel :
  forall atoms relative generate numAtoms g stop numAtoms' g',
    generateAtomList env fuel atoms relative generate numAtoms g
    = Done ((stop, numAtoms'), g') ->
    exists prefix, atoms = prefix ++ stop.
Proof.
  induction fuel as [|fuel IH];
    intros atoms relative generate numAtoms g stop numAtoms' g' Hrun; [discriminate|].
  destruct atoms as [|atom next].
  { injection Hrun as <- _ _. exists []. reflexivity. }
  destruct (atom_kind (Atom.type atom)) as [[Hif|Hend]|Hother].
  - rewrite generateAtomList_formatIf in Hrun by exact Hif.
    unfold formatIfCase in Hrun.
    cbv beta iota delta [mbind M_bind mret M_ret] in Hrun.
    destruct (generateAtomList env fuel next relative generate numAtoms g)
      as [[[r1 n1] g1]| |] eqn:H1; try discriminate Hrun.
    apply IH in H1. destruct H1 as (p1 & ->).
    destruct r1 as [|atom1 next1].
    { injection Hrun as <- _ _. eexists. symmetry. apply app_nil_r. }
    assert (Htail : forall atom2 next2 n2 g2,
               (if bool_decide (Atom.type atom2 = Atom.FormatEndif) then
                  fun g0 =>
                    match
                      (if generate && (numAtoms =? n2) then
                         fun g3 =>
                           match report (Warning (NodeLocation relative)
                                     (OutputFormatNotHandled format (outFileName env))) g3 with
                           | Done (_, g4) =>
                               match generateAtomList env fuel
                                       [Atom.make Atom.UnhandledFormat format]
                                       relative generate n2 g4 with
                               | Done (r, g5) => Done (r.2, g5)
                               | NullDeref => NullDeref
                               | OutOfFuel => OutOfFuel
                               end
                           | NullDeref => NullDeref
                           | OutOfFuel => OutOfFuel
                           end
                       else fun g3 => Done (n2, g3)) g0 with
                    | Done (n3, g3) => generateAtomList env fuel next2 relative generate n3 g3
                    | NullDeref => NullDeref
                    | OutOfFuel => OutOfFuel
                    end
                else generateAtomList env fuel (atom2 :: next2) relative generate n2) g2
               = Done ((stop, numAtoms'), g') ->
               exists prefix, atom2 :: next2 = prefix ++ stop).
    { intros atom2 next2 n2 g2 Htail.
      destruct (bool_decide (Atom.type atom2 = Atom.FormatEndif)).
      - match type of Htail with
        | match ?m with _ => _ end = _ =>
            destruct m as [[n3 g3]| |]; try discriminate Htail
        end.
        apply IH in Htail. destruct Htail as (p3 & ->).
        exists (atom2 :: p3). reflexivity.
      - apply IH in Htail. exact Htail. }
    destruct (bool_decide (Atom.type atom1 = Atom.FormatElse)).
    + destruct (generateAtomList env fuel next1 relative false (n1 + 1) g1)
        as [[[r2 n2] g2]| |] eqn:H2; try discriminate Hrun.
      apply IH in H2. destruct H2 as (p2 & ->).
      destruct r2 as [|atom2 next2].
      { injection Hrun as <- _ _. eexists. symmetry. apply app_nil_r. }
      destruct (Htail atom2 next2 n2 g2 Hrun) as (p3 & Hp3).
      exists (atom :: p1 ++ atom1 :: p2 ++ p3). rewrite Hp3.
      repeat (rewrite <- app_assoc || cbn [app]). reflexivity.
    + destruct (Htail atom1 next1 n1 g1 Hrun) as (p3 & Hp3).
      exists (atom :: p1 ++ p3). rewrite Hp3.
      repeat (rewrite <- app_assoc || cbn [app]). reflexivity.
  - rewrite generateAtomList_branchEnd in Hrun by exact Hend.
    injection Hrun as <- _ _. exists []. reflexivity.
  - rewrite generateAtomList_other in Hrun by exact Hother.
    unfold otherAtomCase in Hrun.
    cbv beta iota delta [mbind M_bind mret M_ret] in Hrun.
    match type of Hrun with
    | match ?m with _ => _ end = _ =>
        destruct m as [[n g1]| |]; try discriminate Hrun
    end.
    destruct (advance n (atom :: next)) as [atoms'|] eqn:Hadvance;
      [|discriminate Hrun].
    apply IH in Hrun. destruct Hrun as (p2 & ->).
    destruct (advance_suffix _ _ _ Hadvance) as (p1 & ->).
    exists (p1 ++ p2). rewrite app_assoc. reflexivity.
Qed.

End Walk.

(** X6.  With [generate] unset, the walk returns and leaves the generator
    as it was: nothing is written, no diagnostic is reported, not even
    for a conditional block that this format does not handle, and no
    state is changed.  The counter does not decrease, and the chain
    returned is the end of the chain given. *)
Theorem walk_without_generating_is_silent (env : Collaborators) (fuel : nat)
    (atoms : list Atom.Atom) (relative : Node.Node) (numAtoms : Z) (g : Generator) :
  (List.length atoms < fuel)%nat ->
  exists stop numAtoms',
    generateAtomList env fuel atoms relative false numAtoms g
    = Done ((stop, numAtoms'), g)
    /\ numAtoms <= numAtoms'
    /\ exists prefix, atoms = prefix ++ stop.
Proof.
  intros Hfuel.
  destruct (generateAtomList_silent env fuel atoms relative numAtoms g Hfuel)
    as (stop & n' & Hrun & _).
  exists stop, n'. split; [exact Hrun|].
  split.
  - apply (generateAtomList_counted env fuel _ _ _ _ _ _ _ _ Hrun).
  - apply (generateAtomList_suffix env fuel _ _ _ _ _ _ _ _ Hrun).
Qed.

Lemma walk_without_generating_is_silent_witness :
  exists stop numAtoms',
    generateAtomList (Sample.env [] []) 4
      [Atom.make Atom.FormatIf "html"; Atom.make Atom.String "x";
       Atom.make Atom.FormatEndif EmptyString]
      Sample.page false 0 Sample.fresh
    = Done ((stop, numAtoms'), Sample.fresh)
    /\ 0 <= numAtoms'
    /\ exists prefix,
         [Atom.make Atom.FormatIf "html"; Atom.make Atom.String "x";
          Atom.make Atom.FormatEndif EmptyString] = prefix ++ stop.
Proof.
  apply (walk_without_generating_is_silent (Sample.env [] []) 4
           [Atom.make Atom.FormatIf "html"; Atom.make Atom.String "x";
            Atom.make Atom.FormatEndif EmptyString]
           Sample.page 0 Sample.fresh).
  simpl. lia.
Defined.

(** X7.  When the walk returns, the atom it returns is null or an else or
    endif marker, and it is an atom of the chain that was given: the chain
    returned is the end of that chain.  The counter does not decrease. *)
Theorem walk_returns_branch_end (env : Collaborators) (fuel : nat)
    (atoms : list Atom.Atom) (relative : Node.Node) (generate : bool)
    (numAtoms : Z) (g : Generator) (stop : list Atom.Atom) (numAtoms' : Z)
    (g' : Generator) :
  generateAtomList env fuel atoms relative generate numAtoms g
  = Done ((stop, numAtoms'), g') ->
  match stop with
  | [] => True
  | atom :: _ => isBranchEnd (Atom.type atom) = true
  end
  /\ (exists prefix, atoms = prefix ++ stop)
  /\ numAtoms <= numAtoms'.
Proof.
  intros Hrun.
  destruct (generateAtomList_counted env fuel _ _ _ _ _ _ _ _ Hrun) as (Hle & Hstop & _).
  split; [|split; [exact (generateAtomList_suffix env fuel _ _ _ _ _ _ _ _ Hrun) | exact Hle]].
  destruct stop as [|atom rest]; [exact Logic.I | exact (Hstop atom rest eq_refl)].
Qed.

Lemma walk_returns_branch_end_witness :
  isBranchEnd (Atom.type (Atom.make Atom.FormatElse EmptyString)) = true
  /\ (exists prefix,
        [Atom.make Atom.String "a"; Atom.make Atom.FormatElse EmptyString;
         Atom.make Atom.String "b"]
        = prefix ++ [Atom.make Atom.FormatElse EmptyString; Atom.make Atom.String "b"])
  /\ 0 <= 1.
Proof.
  apply (walk_returns_branch_end (Sample.env [] []) 4
           [Atom.make Atom.String "a"; Atom.make Atom.FormatElse EmptyString;
            Atom.make Atom.String "b"]
           Sample.page true 0 Sample.fresh
           [Atom.make Atom.FormatElse EmptyString; Atom.make Atom.String "b"] 1
           (set_writer [Characters "a"] Sample.fresh)).
  vm_compute. reflexivity.
Defined.

Lemma advance_past_end n : forall (atoms : list Atom.Atom),
  (List.length atoms < n)%nat -> advance n atoms = None.
Proof.
  induction n as [|n IH]; intros atoms Hlen; [lia|].
  destruct atoms as [|atom next]; [reflexivity|].
  simpl. apply IH. simpl in Hlen. lia.
Qed.

(** X8.  When the handler of an atom asks to skip more atoms than the
    chain still has, the walk dereferences a null pointer: it advances one
    atom more than the handler asks, without a test of the atom it has
    reached.  Such is a link atom that is the last of its chain. *)
Theorem skip_past_end_dereferences_null (env : Collaborators) (fuel : nat)
    (atom : Atom.Atom) (next : list Atom.Atom) (relative : Node.Node)
    (numAtoms : Z) (g : Generator) (skipAhead : nat) (g' : Generator) :
  isControl (Atom.type atom) = false ->
  generateAtom env atom next relative g = Done (skipAhead, g') ->
  (List.length next < skipAhead)%nat ->
  generateAtomList env (S fuel) (atom :: next) relative true numAtoms g = NullDeref.
Proof.
  intros Hkind Hrun Hskip.
  rewrite generateAtomList_other by exact Hkind. unfold otherAtomCase.
  cbv beta iota delta [mbind M_bind mret M_ret]. rewrite Hrun. cbv beta iota.
  change (advance (1 + skipAhead) (atom :: next)) with (advance skipAhead next).
  rewrite (advance_past_end _ _ Hskip). reflexivity.
Qed.

Lemma skip_past_end_dereferences_null_witness :
  generateAtomList (Sample.env Sample.database []) 3
    [Atom.make Atom.Link "OldWidget"] Sample.page true 0 Sample.fresh
  = NullDeref.
Proof.
  apply (skip_past_end_dereferences_null (Sample.env Sample.database []) 2
           (Atom.make Atom.Link "OldWidget") [] Sample.page 0 Sample.fresh 1%nat
           (set_inLink true
              (set_writer [StartElement dbNamespace "link";
                           AttributeNS xlinkNamespace "href" "OldWidget.xml";
                           Attribute "role" "obsolete"] Sample.fresh))).
  - reflexivity.
  - vm_compute. reflexivity.
  - simpl. lia.
Defined.

(** ** The section stack is nested *)

Lemma strictlyNested_suffix (popped remaining : list Z) :
  strictlyNested (popped ++ remaining) = true -> strictlyNested remaining = true.
Proof.
  induction popped as [|top popped IH]; intros H; [exact H|].
  apply IH. cbn [app strictlyNested] in H.
  apply andb_prop in H. destruct H as [_ H]. exact H.
Qed.

Section Nested.

Variable env : Collaborators.

Let nested (g : Generator) : Prop := strictlyNested (sectionLevels g) = true.

Lemma generateAtom_nested atom next relative :
  preserves nested (generateAtom env atom next relative).
Proof.
  destruct (decide (Atom.type atom = Atom.SectionLeft)) as [Hsection|Hother].
  - intros g Hg.
    destruct (Z_lt_le_dec 1 (effectiveLevel env atom relative)) as [Hdeep|Hheader].
    + destruct (generateAtom_sectionLeft env atom next relative g Hsection Hdeep)
        as (popped & remaining & Hsplit & _ & Hremaining & Hrun).
      rewrite Hrun. unfold nested in *. rewrite Hsplit in Hg.
      apply strictlyNested_suffix in Hg.
      destruct_generator g. run. cbn [strictlyNested].
      rewrite Hg, andb_true_r. apply andb_true_intro. split.
      * apply Z.ltb_lt. exact Hdeep.
      * destruct remaining as [|top below]; [reflexivity|].
        apply Z.ltb_lt. exact (Hremaining top below eq_refl).
    + rewrite (generateAtom_sectionLeft_header env atom next relative g Hsection Hheader).
      unfold nested in *. destruct_generator g. exact Hg.
  - unfold generateAtom.
    destruct (Atom.type atom); try contradiction;
      preserves_with ltac:(intros ? Hnested; exact Hnested).
Qed.

Lemma report_nested d : preserves nested (report d).
Proof. apply preserves_modify. intros ? Hnested. exact Hnested. Qed.

End Nested.



(** ** Tables, images, quotations *)

(** X10.  The end of a table header row that is directly followed by the
    begin of another header row closes the row and opens the next one in
    the same [thead] element: the header-begin atom is skipped, so that no
    second [thead] is opened and the header flag stays as it is.
    Otherwise the end of a header row closes the row and the [thead]
    element and clears the header flag. *)
Theorem header_rows_share_thead (env : Collaborators) (headerRight : Atom.Atom)
    (relative : Node.Node) (g : Generator) :
  Atom.type headerRight = Atom.TableHeaderRight ->
  (forall headerLeft rest fuel numAtoms,
     Atom.type headerLeft = Atom.TableHeaderLeft ->
     generateAtomList env (S fuel) (headerRight :: headerLeft :: rest) relative true
       numAtoms g
     = generateAtomList env fuel rest relative true (numAtoms + 2)
         (set_writer (writer g ++ [EndElement "tr"; Characters newline;
                                   StartElement dbNamespace "tr"; Characters newline])
            g))
  /\ (forall next,
        matchAhead next Atom.TableHeaderLeft = false ->
        generateAtom env headerRight next relative g
        = Done (0%nat,
                set_flags (set_inTableHeader_ false (flags g))
                  (set_writer (writer g ++ [EndElement "tr"; Characters newline;
                                            EndElement "thead"; Characters newline])
                     g))).
Proof.
  intros Htype. split.
  - intros headerLeft rest fuel numAtoms Hleft.
    assert (Hrun : generateAtom env headerRight (headerLeft :: rest) relative g
                   = Done (1%nat,
                           set_writer (writer g ++ [EndElement "tr"; Characters newline;
                                                    StartElement dbNamespace "tr";
                                                    Characters newline]) g)).
    { unfold generateAtom. rewrite Htype. cbn [matchAhead].
      rewrite bool_decide_eq_true_2 by exact Hleft.
      destruct_generator g. run. rewrite <- !app_assoc. reflexivity. }
    rewrite (walk_step env fuel headerRight (headerLeft :: rest) rest relative numAtoms
               g 1%nat _ ltac:(rewrite Htype; reflexivity) Hrun eq_refl).
    f_equal.
  - intros next Hnext. unfold generateAtom. rewrite Htype, Hnext.
    destruct_generator g. run. rewrite <- !app_assoc. reflexivity.
Qed.

Lemma header_rows_share_thead_witness :
  generateAtomList (Sample.env [] []) 3
    [Atom.make Atom.TableHeaderRight EmptyString;
     Atom.make Atom.TableHeaderLeft EmptyString] Sample.page true 0 Sample.fresh
  = generateAtomList (Sample.env [] []) 2 [] Sample.page true (0 + 2)
      (set_writer (writer Sample.fresh
                   ++ [EndElement "tr"; Characters newline;
                       StartElement dbNamespace "tr"; Characters newline])
         Sample.fresh).
Proof.
  apply (proj1 (header_rows_share_thead (Sample.env [] [])
                  (Atom.make Atom.TableHeaderRight EmptyString) Sample.page
                  Sample.fresh eq_refl)
           (Atom.make Atom.TableHeaderLeft EmptyString) [] 2%nat 0).
  reflexivity.
Defined.

(** X11.  An image atom closes every element that it opens.  When the
    image file is not found, it writes the text [Missing image] with the
    name asked for, writes no file reference and records no file name;
    when the file is found, it writes the reference to the file and
    records the file name for the context node. *)
Theorem image_elements_balanced (env : Collaborators) (atom : Atom.Atom)
    (next : list Atom.Atom) (relative : Node.Node) (g : Generator) :
  Atom.type atom = Atom.Image \/ Atom.type atom = Atom.InlineImage ->
  let fileName := imageFileName env relative (Atom.string atom) in
  exists out,
    generateAtom env atom next relative g
    = Done (0%nat,
            set_imageFileNames
              (if QString.isEmpty fileName then imageFileNames g
               else imageFileNames g ++ [(relative, fileName)])
              (set_writer (writer g ++ out) g))
    /\ nesting out = 0
    /\ (if QString.isEmpty fileName
        then In (TextElement dbNamespace "emphasis"
                   ("[Missing image " +:+ Atom.string atom +:+ "]")) out
             /\ ~ In (EmptyElement dbNamespace "imagedata") out
        else In (EmptyElement dbNamespace "imagedata") out
             /\ In (Attribute "fileref" fileName) out).
Proof.
  intros Htype fileName.
  assert (Hbody : exists isImage,
             generateAtom env atom next relative
             = (let tag := if isImage : bool then "mediaobject" else "inlinemediaobject" in
                writeStartElement dbNamespace tag;;
                newLine;;
                (if QString.isEmpty fileName then
                   writeStartElement dbNamespace "textobject";;
                   newLine;;
                   writeStartElement dbNamespace "para";;
                   writeTextElement dbNamespace "emphasis"
                     ("[Missing image " +:+ Atom.string atom +:+ "]");;
                   writeEndElement "para";;
                   newLine;;
                   writeEndElement "textobject";;
                   newLine
                 else
                   match next with
                   | n :: _ =>
                       when (negb (QString.isEmpty (Atom.string n)))
                         (writeTextElement dbNamespace "alt" (Atom.string n))
                   | [] => mret tt
                   end;;
                   writeStartElement dbNamespace "imageobject";;
                   newLine;;
                   writeEmptyElement dbNamespace "imagedata";;
                   writeAttribute "fileref" fileName;;
                   newLine;;
                   writeEndElement "imageobject";;
                   newLine;;
                   setImageFileName relative fileName);;
                writeEndElement "[inline]mediaobject";;
                when isImage newLine;;
                mret 0%nat)).
  { unfold generateAtom, fileName.
    destruct Htype as [Htype | Htype]; rewrite Htype; eexists; reflexivity. }
  destruct Hbody as (isImage & ->).
  destruct g as [w d f l o c s r i p].
  destruct (QString.isEmpty fileName) eqn:Hfile.
  - destruct isImage; run; (eexists; split;
      [rewrite <- !app_assoc; reflexivity|]);
      (split; [reflexivity|]); (split; [cbn; tauto|]);
      cbn; intros H; repeat (destruct H as [H|H]; [discriminate H|]); exact H.
  - destruct next as [|n next'];
      [|destruct (negb (QString.isEmpty (Atom.string n)))];
      destruct isImage; run; (eexists; split;
        [rewrite <- !app_assoc; reflexivity|]);
      (split; [reflexivity|]); split; cbn; tauto.
Qed.

Lemma image_elements_balanced_witness :
  exists out,
    generateAtom (Sample.env [] []) (Atom.make Atom.Image "logo.png") [] Sample.page
      Sample.fresh
    = Done (0%nat,
            set_imageFileNames (imageFileNames Sample.fresh)
              (set_writer (writer Sample.fresh ++ out) Sample.fresh))
    /\ nesting out = 0
    /\ In (TextElement dbNamespace "emphasis" "[Missing image logo.png]") out
    /\ ~ In (EmptyElement dbNamespace "imagedata") out.
Proof.
  apply (image_elements_balanced (Sample.env [] []) (Atom.make Atom.Image "logo.png") []
           Sample.page Sample.fresh).
  left. reflexivity.
Defined.

(** X12.  A quotation-end atom does not clear the paragraph flag that the
    quotation-begin atom sets.  After a quotation that holds no paragraph
    the flag is therefore set, and a table that follows first writes an
    end-element call for a paragraph that is not open: the calls written
    before the table is opened close one element more than they open. *)
Theorem quotation_leaves_paragraph_flag (env : Collaborators)
    (quotationLeft quotationRight tableLeft : Atom.Atom) (rest : list Atom.Atom)
    (relative : Node.Node) (fuel : nat) (numAtoms : Z) (g : Generator) :
  Atom.type quotationLeft = Atom.QuotationLeft ->
  Atom.type quotationRight = Atom.QuotationRight ->
  Atom.type tableLeft = Atom.TableLeft ->
  let before := [StartElement dbNamespace "blockquote"; EndElement "blockquote";
                 Characters newline; EndElement "para or blockquote";
                 Characters newline] in
  exists attributes,
    generateAtomList env (S (S (S fuel)))
      (quotationLeft :: quotationRight :: tableLeft :: rest) relative true numAtoms g
    = generateAtomList env fuel rest relative true (numAtoms + 3)
        (set_flags (set_numTableRows_ 0 (flags g))
           (set_inPara false
              (set_writer (writer g ++ before
                           ++ StartElement dbNamespace "informaltable" :: attributes
                           ++ [Characters newline]) g)))
    /\ Forall (fun c => isAttribute c = true) attributes
    /\ nesting before = -1.
Proof.
  intros Hleft Hright Htable before.
  set (g1 := set_inPara true (set_writer (writer g ++ [StartElement dbNamespace "blockquote"]) g)).
  assert (H1 : generateAtom env quotationLeft (quotationRight :: tableLeft :: rest)
                 relative g = Done (0%nat, g1)).
  { unfold generateAtom. rewrite Hleft. destruct_generator g. reflexivity. }
  set (g2 := set_writer (writer g1 ++ [EndElement "blockquote"; Characters newline]) g1).
  assert (H2 : generateAtom env quotationRight (tableLeft :: rest) relative g1
               = Done (0%nat, g2)).
  { unfold generateAtom. rewrite Hright. unfold g2, g1. destruct_generator g. run.
    rewrite <- !app_assoc. reflexivity. }
  set (attributes :=
         Attribute "style" (getTableWidthAttr env tableLeft).2
         :: if negb (QString.isEmpty (getTableWidthAttr env tableLeft).1)
            then [Attribute "width" (getTableWidthAttr env tableLeft).1] else []).
  exists attributes.
  assert (H3 : generateAtom env tableLeft rest relative g2
               = Done (0%nat,
                       set_flags (set_numTableRows_ 0 (flags g))
                         (set_inPara false
                            (set_writer (writer g ++ before
                                         ++ StartElement dbNamespace "informaltable"
                                         :: attributes ++ [Characters newline]) g)))).
  { unfold generateAtom. rewrite Htable. unfold g2, g1, attributes, before.
    destruct g as [w d [ic ish ith ntr tc] l o c s r i p].
    destruct (negb (QString.isEmpty (getTableWidthAttr env tableLeft).1));
      run; repeat (rewrite <- app_assoc || cbn [app]); reflexivity. }
  split; [|split].
  - rewrite (walk_step env _ quotationLeft _ (quotationRight :: tableLeft :: rest) _ _ _ _ _
               ltac:(rewrite Hleft; reflexivity) H1 eq_refl).
    rewrite (walk_step env _ quotationRight _ (tableLeft :: rest) _ _ _ _ _
               ltac:(rewrite Hright; reflexivity) H2 eq_refl).
    rewrite (walk_step env _ tableLeft _ rest _ _ _ _ _
               ltac:(rewrite Htable; reflexivity) H3 eq_refl).
    f_equal. lia.
  - unfold attributes.
    destruct (negb (QString.isEmpty (getTableWidthAttr env tableLeft).1));
      repeat constructor.
  - reflexivity.
Qed.

Lemma quotation_leaves_paragraph_flag_witness :
  exists attributes,
    generateAtomList (Sample.env [] []) 4
      [Atom.make Atom.QuotationLeft EmptyString; Atom.make Atom.QuotationRight EmptyString;
       Atom.make Atom.TableLeft EmptyString] Sample.page true 0 Sample.fresh
    = generateAtomList (Sample.env [] []) 1 [] Sample.page true (0 + 3)
        (set_flags (set_numTableRows_ 0 (flags Sample.fresh))
           (set_inPara false
              (set_writer (writer Sample.fresh
                           ++ [StartElement dbNamespace "blockquote";
                               EndElement "blockquote"; Characters newline;
                               EndElement "para or blockquote"; Characters newline]
                           ++ StartElement dbNamespace "informaltable" :: attributes
                           ++ [Characters newline]) Sample.fresh)))
    /\ Forall (fun c => isAttribute c = true) attributes
    /\ nesting [StartElement dbNamespace "blockquote"; EndElement "blockquote";
                Characters newline; EndElement "para or blockquote";
                Characters newline] = -1.
Proof.
  apply (quotation_leaves_paragraph_flag (Sample.env [] [])
           (Atom.make Atom.QuotationLeft EmptyString)
           (Atom.make Atom.QuotationRight EmptyString)
           (Atom.make Atom.TableLeft EmptyString) [] Sample.page 1 0 Sample.fresh);
    reflexivity.
Defined.

(** ** The end of a page *)

Lemma nesting_sectionCloses n : nesting (sectionCloses n) = - Z.of_nat n.
Proof.
  induction n as [|n IH]; [reflexivity|].
  change (sectionCloses (S n))
    with ([EndElement "section"; Characters newline] ++ sectionCloses n).
  rewrite nesting_app, IH.
  change (nesting [EndElement "section"; Characters newline]) with (-1). lia.
Qed.

(** X13.  [generateFooter] closes one section for each level on the
    stack, closes the article, and leaves the stack empty: with [n] open
    sections it closes [n + 1] elements and opens none.  A second flush of
    the sections writes nothing. *)
Theorem generateFooter_closes_sections (g : Generator) :
  let closing := sectionCloses (List.length (sectionLevels g))
                 ++ [EndElement "article"] in
  let h := set_writer (writer g ++ closing) (set_sectionLevels [] g) in
  generateFooter g = Done (tt, h)
  /\ nesting closing = - Z.of_nat (List.length (sectionLevels g)) - 1
  /\ starts closing = 0%nat
  /\ closeTextSections h = Done (tt, h).
Proof.
  intros closing h. split; [|split; [|split]].
  - unfold generateFooter. rewrite (bind_Done _ _ _ _ _ (closeTextSections_run g)).
    unfold h, closing. destruct_generator g. run. rewrite <- app_assoc. reflexivity.
  - unfold closing. rewrite nesting_app, nesting_sectionCloses. 
    change (nesting [EndElement "article"]) with (-1). lia.
  - unfold closing. rewrite starts_app.
    assert (Hnone : forall n, starts (sectionCloses n) = 0%nat).
    { induction n as [|n IH]; [reflexivity|].
      change (sectionCloses (S n))
        with ([EndElement "section"; Characters newline] ++ sectionCloses n).
      rewrite starts_app, IH. reflexivity. }
    rewrite Hnone. reflexivity.
  - rewrite closeTextSections_run. unfold h. destruct_generator g. run.
    change (sectionCloses 0) with (@nil WriterCall). rewrite app_nil_r. reflexivity.
Qed.

(** ** What a handler leaves alone *)

Section Frame.

Variable env : Collaborators.
Variable g : Generator.

Lemma generateAtom_keeps_sections atom next relative :
  Atom.type atom <> Atom.SectionLeft ->
  preserves (fun h => sectionLevels h = sectionLevels g
                      /\ currentSectionLevel h = currentSectionLevel g)
    (generateAtom env atom next relative).
Proof.
  intros Hother. unfold generateAtom.
  destruct (Atom.type atom); try contradiction;
    preserves_with ltac:(intros ? Hkept; exact Hkept).
Qed.

Lemma generateAtom_keeps_diagnostics atom next relative :
  Atom.type atom <> Atom.TableRowLeft ->
  Atom.type atom <> Atom.Unlisted ->
  preserves (fun h => diagnostics h = diagnostics g)
    (generateAtom env atom next relative).
Proof.
  intros Hrow Hunlisted.
  pose proof (fun levels level =>
    preserves_closeDeeperSections (fun h => diagnostics h = diagnostics g) levels level
      ltac:(intros c; apply preserves_modify; intros ? Hkept; exact Hkept)
      ltac:(intros l h Hkept; exact Hkept)) as Hclose.
  unfold generateAtom.
  destruct (Atom.type atom); try contradiction;
    preserves_with ltac:(intros ? Hkept; exact Hkept).
Qed.

Lemma generateAtom_keeps_images atom next relative :
  Atom.type atom <> Atom.Image ->
  Atom.type atom <> Atom.InlineImage ->
  preserves (fun h => imageFileNames h = imageFileNames g)
    (generateAtom env atom next relative).
Proof.
  intros Himage Hinline.
  pose proof (fun levels level =>
    preserves_closeDeeperSections (fun h => imageFileNames h = imageFileNames g)
      levels level
      ltac:(intros c; apply preserves_modify; intros ? Hkept; exact Hkept)
      ltac:(intros l h Hkept; exact Hkept)) as Hclose.
  unfold generateAtom.
  destruct (Atom.type atom); try contradiction;
    preserves_with ltac:(intros ? Hkept; exact Hkept).
Qed.

End Frame.


(** ** The qualified name of an enum value *)

Section EnumValue.

Variable env : Collaborators.

Lemma forEach_run_scopes (relative : Node.Node) (scopes : list Node.Node) :
  forall g, exists out,
    forEach scopes (fun parent =>
      generateSynopsisName env parent relative true;; writeCharacters "::") g
    = Done (tt, set_writer (writer g ++ out) g)
    /\ nesting out = 0
    /\ characters out = qualification env scopes.
Proof.
  induction scopes as [|scope scopes IH]; intros g.
  - exists []. split; [destruct_generator g; run; rewrite app_nil_r; reflexivity|].
    split; reflexivity.
  - set (name := [StartElement dbNamespace "emphasis"; Attribute "role" "bold";
                  StartElement dbNamespace "link";
                  AttributeNS xlinkNamespace "href"
                    (linkForNode env (Some scope) (Some relative));
                  Characters (taggedNode env scope); EndElement "link";
                  EndElement "emphasis"; Characters "::"]).
    destruct (IH (set_writer (writer g ++ name) g)) as (out & Hrun & Hnesting & Htext).
    exists (name ++ out). split; [|split].
    + cbn [forEach].
      assert (Hname : (generateSynopsisName env scope relative true;;
                       writeCharacters "::") g
                      = Done (tt, set_writer (writer g ++ name) g)).
      { unfold generateSynopsisName, generateSimpleLink, name. cbn [negb].
        destruct_generator g. run. rewrite <- !app_assoc. reflexivity. }
      rewrite (bind_Done _ _ _ _ _ Hname), Hrun.
      destruct_generator g. run. rewrite <- app_assoc. reflexivity.
    + rewrite nesting_app, Hnesting. reflexivity.
    + rewrite characters_app, Htext. unfold qualification. cbn [List.map].
      unfold name. cbn [characters].
      change (String.concat EmptyString
                ((taggedNode env scope +:+ "::")
                 :: List.map (fun scope0 => taggedNode env scope0 +:+ "::") scopes))
        with (match List.map (fun scope0 => taggedNode env scope0 +:+ "::") scopes with
              | [] => taggedNode env scope +:+ "::"
              | _ :: _ =>
                  (taggedNode env scope +:+ "::") +:+ EmptyString
                  +:+ String.concat EmptyString
                        (List.map (fun scope0 => taggedNode env scope0 +:+ "::") scopes)
              end).
      destruct scopes as [|scope' scopes'].
      * cbn [List.map String.concat]. rewrite !append_nil_r. reflexivity.
      * cbn [List.map]. rewrite !append_assoc. reflexivity.
Qed.

Lemma enumValueParents_chain (relative : Node.Node) (d : nat) :
  forall node scopes,
    depth node = d ->
    isScopeChain scopes ->
    match scopes with
    | [] => True
    | inner :: _ => Node.parent inner = Some node
    end ->
    Forall (fun scope => Node.parent scope <> None) scopes ->
    isScopeChain (enumValueParents relative node scopes)
    /\ Forall (fun scope => Node.parent scope <> None)
         (enumValueParents relative node scopes).
Proof.
  induction d as [|d IH]; intros [i n t s [p|]] scopes Hdepth Hchain Hhead Hparents;
    try discriminate Hdepth; cbn [enumValueParents].
  - split; assumption.
  - assert (Hnext : isScopeChain (Node.mk i n t s (Some p) :: scopes)
                    /\ Forall (fun scope => Node.parent scope <> None)
                         (Node.mk i n t s (Some p) :: scopes)).
    { split.
      - destruct scopes as [|inner rest]; [exact Logic.I|]. split; assumption.
      - constructor; [discriminate | exact Hparents]. }
    destruct (Node.same (Some p) (Some relative) || QString.isEmpty (Node.name p));
      [exact Hnext|].
    apply IH; [injection Hdepth as ->; reflexivity | apply Hnext | reflexivity
              | apply Hnext].
Qed.

End EnumValue.

(** X15.  The name of an enum value.  For a context node that is no enum
    the value is written as it is.  For an enum it is written in a [code]
    element, qualified with the names of the enclosing scopes, outermost
    first and each followed by two colons; every scope named has a parent
    itself, so that the root of the tree is never named; the element and
    the links of the scopes are closed.  An enum that has no parent makes
    the function dereference a null pointer. *)
Theorem enum_value_is_qualified (env : Collaborators) (enumValue : string)
    (relative : Node.Node) (g : Generator) :
  if Node.isEnumType relative then
    match Node.parent relative with
    | Some node =>
        let scopes := enumValueParents relative node [] in
        exists out,
          generateEnumValue env enumValue relative g
          = Done (tt, set_writer (writer g ++ [StartElement dbNamespace "code"] ++ out
                                  ++ [Characters enumValue; EndElement "code"]) g)
          /\ nesting out = 0
          /\ characters out = qualification env scopes
          /\ isScopeChain scopes
          /\ Forall (fun scope => Node.parent scope <> None) scopes
    | None => generateEnumValue env enumValue relative g = NullDeref
    end
  else
    generateEnumValue env enumValue relative g
    = Done (tt, set_writer (writer g ++ [Characters enumValue]) g).
Proof.
  unfold generateEnumValue.
  destruct (Node.isEnumType relative); cbn [negb].
  - destruct (Node.parent relative) as [node|]; [|reflexivity].
    set (scopes := enumValueParents relative node []).
    destruct (forEach_run_scopes env relative scopes
                (set_writer (writer g ++ [StartElement dbNamespace "code"]) g))
      as (out & Hrun & Hnesting & Htext).
    exists out. split; [|split; [exact Hnesting|split; [exact Htext|]]].
    + assert (Hopen : writeStartElement dbNamespace "code" g
                      = Done (tt, set_writer (writer g
                                              ++ [StartElement dbNamespace "code"]) g))
        by (destruct_generator g; reflexivity).
      rewrite (bind_Done _ _ _ _ _ Hopen). fold scopes.
      rewrite (bind_Done _ _ _ _ _ Hrun).
      destruct_generator g. run. repeat (rewrite <- app_assoc || cbn [app]).
      reflexivity.
    + apply (enumValueParents_chain relative (depth node) node []);
        [reflexivity | exact Logic.I | exact Logic.I | constructor].
  - destruct_generator g. reflexivity.
Qed.

(** ** Type names in synopses *)

Section TypifiedProperties.

Variable env : Collaborators.
Variable t : Typifier.
Variable relative : option Node.Node.
Variable generateType : bool.

Lemma typeContents_word (pre word : string) (rest : list WriterCall) :
  typeContents None (Characters pre :: StartElement dbNamespace "type"
                     :: Characters word :: EndElement "type" :: rest)
  = word :: typeContents None rest.
Proof.
  cbn [typeContents opensElement closesElement String.eqb Ascii.eqb Bool.eqb characters].
  change (EmptyString +:+ word +:+ EmptyString) with (word +:+ EmptyString).
  rewrite append_nil_r. reflexivity.
Qed.

Lemma typeContents_link (pre href word : string) (rest : list WriterCall) :
  typeContents None (Characters pre :: StartElement dbNamespace "type"
                     :: StartElement dbNamespace "link"
                     :: AttributeNS xlinkNamespace "href" href
                     :: Characters word :: EndElement "link" :: EndElement "type" :: rest)
  = word :: typeContents None rest.
Proof.
  cbn [typeContents opensElement closesElement String.eqb Ascii.eqb Bool.eqb characters].
  change (((EmptyString +:+ EmptyString) +:+ EmptyString) +:+ word +:+ EmptyString)
    with (word +:+ EmptyString).
  rewrite !append_nil_r. reflexivity.
Qed.

(** What the end of a word writes. *)
Lemma typifiedWord_run (pendingWord result : string) (g : Generator) :
  exists out result',
    typifiedWord env t pendingWord relative generateType result g
    = Done (result', set_writer (writer g ++ out) g)
    /\ characters out +:+ result' = result +:+ pendingWord
    /\ nesting out = 0
    /\ (generateType = false -> out = [])
    /\ (forall rest,
          typeContents None (out ++ rest)
          = (if generateType && negb (QString.isEmpty pendingWord)
                && negb (String.eqb pendingWord "const")
             then [pendingWord] else [])
            ++ typeContents None rest).
Proof.
  unfold typifiedWord.
  destruct (QString.isEmpty pendingWord) eqn:Hempty; cbn [negb].
  - exists [], result. split; [destruct_generator g; run; rewrite app_nil_r; reflexivity|].
    destruct pendingWord; [|discriminate Hempty].
    rewrite andb_false_r. cbn [andb].
    split; [cbn [characters append]; rewrite append_nil_r; reflexivity|].
    split; [reflexivity|]. split; [reflexivity|]. intros rest. reflexivity.
  - destruct generateType; cbn [andb].
    + destruct (String.eqb pendingWord "const"); cbn [negb].
      * exists [], (result +:+ pendingWord).
        split; [destruct_generator g; run; rewrite app_nil_r; reflexivity|].
        split; [reflexivity|]. split; [reflexivity|]. split; [discriminate|].
        intros rest. reflexivity.
      * destruct (QString.isEmpty (typeHref env t pendingWord relative)).
        -- exists [Characters result; StartElement dbNamespace "type";
                   Characters pendingWord; EndElement "type"], EmptyString.
           split; [destruct_generator g; run; rewrite <- !app_assoc; reflexivity|].
           split; [cbn [characters]; rewrite !append_nil_r; reflexivity|].
           split; [reflexivity|]. split; [discriminate|].
           intros rest. apply typeContents_word.
        -- exists [Characters result; StartElement dbNamespace "type";
                   StartElement dbNamespace "link";
                   AttributeNS xlinkNamespace "href" (typeHref env t pendingWord relative);
                   Characters pendingWord; EndElement "link"; EndElement "type"],
                  EmptyString.
           split; [unfold generateSimpleLink; destruct_generator g; run;
                   rewrite <- !app_assoc; reflexivity|].
           split; [cbn [characters]; rewrite !append_nil_r; reflexivity|].
           split; [reflexivity|]. split; [discriminate|].
           intros rest. apply typeContents_link.
    + exists [], (result +:+ pendingWord).
      split; [destruct_generator g; run; rewrite app_nil_r; reflexivity|].
      split; [reflexivity|]. split; [reflexivity|]. split; [reflexivity|].
      intros rest. reflexivity.
Qed.

Hypothesis null_ends_word : isWordChar t "000" = false.

Lemma escapeChar_null : escapeChar "000" = EmptyString.
Proof. reflexivity. Qed.

(** The loop, from any buffer and pending word. *)
Lemma typifiedLoop_run (chars : string) :
  forall result pendingWord g,
  exists out result',
    typifiedLoop env t relative generateType chars (result, pendingWord) g
    = Done ((result', EmptyString), set_writer (writer g ++ out) g)
    /\ characters out +:+ result' = result +:+ pendingWord +:+ escapedText t chars
    /\ nesting out = 0
    /\ (generateType = false -> out = [])
    /\ (forall rest,
          typeContents None (out ++ rest)
          = (if generateType
             then List.filter (fun word => negb (String.eqb word "const"))
                    (wordsFrom t chars pendingWord)
             else [])
            ++ typeContents None rest).
Proof.
  induction chars as [|ch chars IH]; intros result pendingWord g.
  - cbn [typifiedLoop]. unfold typifiedStep. rewrite null_ends_word.
    destruct (typifiedWord_run pendingWord result g)
      as (out & result' & Hrun & Htext & Hnesting & Hplain & Htypes).
    exists out, result'. rewrite (bind_Done _ _ _ _ _ Hrun).
    split; [rewrite escapeChar_null, append_nil_r; reflexivity|].
    split; [cbn [escapedText]; rewrite append_nil_r; exact Htext|].
    split; [exact Hnesting|]. split; [exact Hplain|].
    intros rest. rewrite Htypes. f_equal. cbn [wordsFrom].
    destruct generateType; [|reflexivity]. cbn [andb].
    destruct (QString.isEmpty pendingWord); [reflexivity|]. cbn [negb List.filter].
    destruct (String.eqb pendingWord "const"); reflexivity.
  - cbn [typifiedLoop]. unfold typifiedStep at 1.
    destruct (isWordChar t ch) eqn:Hword.
    + rewrite (bind_Done (mret (result, pendingWord +:+ String ch EmptyString)) _ g _ g eq_refl).
      destruct (IH result (pendingWord +:+ String ch EmptyString) g)
        as (out & result' & Hrun & Htext & Hnesting & Hplain & Htypes).
      exists out, result'. split; [exact Hrun|].
      split; [rewrite Htext; cbn [escapedText]; rewrite Hword, !append_assoc; reflexivity|].
      split; [exact Hnesting|]. split; [exact Hplain|].
      intros rest. rewrite Htypes. cbn [wordsFrom]. rewrite Hword. reflexivity.
    + destruct (typifiedWord_run pendingWord result g)
        as (out1 & result1 & Hrun1 & Htext1 & Hnesting1 & Hplain1 & Htypes1).
      destruct (IH (result1 +:+ escapeChar ch) EmptyString
                  (set_writer (writer g ++ out1) g))
        as (out2 & result2 & Hrun2 & Htext2 & Hnesting2 & Hplain2 & Htypes2).
      exists (out1 ++ out2), result2.
      split.
      { rewrite (bind_Done _ _ g (result1 +:+ escapeChar ch, EmptyString)
                   (set_writer (writer g ++ out1) g)).
        - rewrite Hrun2. destruct_generator g. run. rewrite <- app_assoc. reflexivity.
        - rewrite (bind_Done _ _ _ _ _ Hrun1). reflexivity. }
      split.
      { rewrite characters_app, append_assoc, Htext2. cbn [escapedText].
        rewrite Hword.
        change (EmptyString +:+ escapedText t chars) with (escapedText t chars).
        rewrite (append_assoc result1), <- (append_assoc (characters out1)), Htext1.
        rewrite !append_assoc. reflexivity. }
      split; [rewrite nesting_app, Hnesting1, Hnesting2; reflexivity|].
      split; [intros Hgen; rewrite (Hplain1 Hgen), (Hplain2 Hgen); reflexivity|].
      intros rest. rewrite <- app_assoc, Htypes1, Htypes2. cbn [wordsFrom].
      rewrite Hword, app_assoc. f_equal.
      destruct generateType; [|reflexivity]. cbn [andb].
      rewrite List.filter_app. f_equal.
      destruct (QString.isEmpty pendingWord); [reflexivity|]. cbn [negb List.filter].
      destruct (String.eqb pendingWord "const"); reflexivity.
Qed.

Lemma typified_run (s : string) (trailingSpace : bool) (g : Generator) :
  exists out,
    typified env t s relative trailingSpace generateType g
    = Done (tt, set_writer (writer g ++ out) g)
    /\ characters out = escapedText t s +:+ trailing trailingSpace s
    /\ nesting out = 0
    /\ (generateType = false ->
        out = [Characters (escapedText t s +:+ trailing trailingSpace s)])
    /\ typeContents None out = if generateType then typeWords t s else [].
Proof.
  destruct (typifiedLoop_run s EmptyString EmptyString g)
    as (out & result & Hrun & Htext & Hnesting & Hplain & Htypes).
  change (EmptyString +:+ EmptyString +:+ escapedText t s)
    with (escapedText t s) in Htext.
  assert (Hresult : (if trailingSpace && negb (QString.isEmpty s)
                     then if negb (endsWith "*" s) && negb (endsWith "&" s)
                          then result +:+ " " else result
                     else result)
                    = result +:+ trailing trailingSpace s).
  { unfold trailing.
    destruct (trailingSpace && negb (QString.isEmpty s)); cbn [andb];
      [destruct (negb (endsWith "*" s)); cbn [andb];
       [destruct (negb (endsWith "&" s))|]|];
      rewrite ?append_nil_r; reflexivity. }
  exists (out ++ [Characters (result +:+ trailing trailingSpace s)]).
  split.
  { unfold typified. rewrite (bind_Done _ _ _ _ _ Hrun). cbn [fst]. rewrite Hresult.
    destruct_generator g. run. rewrite <- app_assoc. reflexivity. }
  split.
  { rewrite characters_app. cbn [characters]. rewrite append_nil_r, <- append_assoc, Htext.
    reflexivity. }
  split; [rewrite nesting_app, Hnesting; reflexivity|].
  split.
  { intros Hgen. rewrite (Hplain Hgen) in *.
    change (characters [] +:+ result) with result in Htext.
    rewrite Htext. reflexivity. }
  rewrite Htypes. unfold typeWords. cbn [typeContents opensElement].
  rewrite app_nil_r. reflexivity.
Qed.

End TypifiedProperties.

(** X16.  [typified] loses no text: the character data that it writes is
    the string itself, with the characters that end a word rewritten by
    the switch ([&], [<], [>] and the quotes as entities), followed by one
    space when a trailing space is asked for and the string is not empty
    and ends with neither [*] nor [&].  Every element that it opens is
    closed.  Without type generation it makes a single call with this
    text.  The null character is taken not to be a word character. *)
Theorem typified_keeps_text (env : Collaborators) (t : Typifier) (s : string)
    (relative : option Node.Node) (trailingSpace generateType : bool) (g : Generator) :
  isWordChar t "000" = false ->
  exists out,
    typified env t s relative trailingSpace generateType g
    = Done (tt, set_writer (writer g ++ out) g)
    /\ characters out = escapedText t s +:+ trailing trailingSpace s
    /\ nesting out = 0
    /\ (generateType = false ->
        out = [Characters (escapedText t s +:+ trailing trailingSpace s)]).
Proof.
  intros Hnull.
  destruct (typified_run env t relative generateType Hnull s trailingSpace g)
    as (out & Hrun & Htext & Hnesting & Hplain & _).
  exists out. repeat split; assumption.
Qed.

Lemma typified_keeps_text_witness :
  exists out,
    typified (Sample.env [] []) asciiTypifier "const Widget<T> &" (Some Sample.page)
      true true Sample.fresh
    = Done (tt, set_writer (writer Sample.fresh ++ out) Sample.fresh)
    /\ characters out
       = escapedText asciiTypifier "const Widget<T> &" +:+ trailing true "const Widget<T> &"
    /\ nesting out = 0
    /\ (true = false ->
        out = [Characters (escapedText asciiTypifier "const Widget<T> &"
                           +:+ trailing true "const Widget<T> &")]).
Proof.
  apply (typified_keeps_text (Sample.env [] []) asciiTypifier "const Widget<T> &"
           (Some Sample.page) true true Sample.fresh).
  reflexivity.
Defined.

(** X17.  With type generation, [typified] writes one [type] element for
    each word of the string other than [const], in the order of the words,
    and the element holds the word; a word is a maximal run of letters,
    digits, underscores and colons.  Without type generation it writes no
    [type] element. *)
Theorem typified_types_words (env : Collaborators) (t : Typifier) (s : string)
    (relative : option Node.Node) (trailingSpace generateType : bool) (g : Generator) :
  isWordChar t "000" = false ->
  exists out,
    typified env t s relative trailingSpace generateType g
    = Done (tt, set_writer (writer g ++ out) g)
    /\ typeContents None out = if generateType then typeWords t s else [].
Proof.
  intros Hnull.
  destruct (typified_run env t relative generateType Hnull s trailingSpace g)
    as (out & Hrun & _ & _ & _ & Htypes).
  exists out. split; assumption.
Qed.

Lemma typified_types_words_witness :
  exists out,
    typified (Sample.env [] []) asciiTypifier "const Widget<T> &" (Some Sample.page)
      true true Sample.fresh
    = Done (tt, set_writer (writer Sample.fresh ++ out) Sample.fresh)
    /\ typeContents None out = ["Widget"; "T"].
Proof.
  apply (typified_types_words (Sample.env [] []) asciiTypifier "const Widget<T> &"
           (Some Sample.page) true true Sample.fresh).
  reflexivity.
Defined.

(** ** QML text *)

Section QmlTextProperties.

Variable env : Collaborators.
Variable relative : Node.Node.

Lemma qmlTextLoop_outside (atoms : list Atom.Atom) : forall fuel g,
  Forall (fun atom => Atom.type atom <> Atom.QmlText) atoms ->
  (List.length atoms < fuel)%nat ->
  qmlTextLoop env fuel false atoms relative g = Done (tt, g).
Proof.
  induction atoms as [|atom next IH]; intros fuel g Hatoms Hfuel;
    (destruct fuel as [|fuel]; [simpl in Hfuel; lia|]); [reflexivity|].
  inversion Hatoms as [|? ? Hatom Hnext]; subst.
  cbn [qmlTextLoop]. rewrite bool_decide_eq_false_2 by exact Hatom.
  apply IH; [exact Hnext | simpl in Hfuel; lia].
Qed.

Lemma concat_cons (x : string) (l : list string) :
  String.concat EmptyString (x :: l) = x +:+ String.concat EmptyString l.
Proof.
  destruct l as [|y l]; [symmetry; apply append_nil_r | reflexivity].
Qed.

Lemma qmlTextLoop_inside_step fuel atom next :
  Atom.type atom <> Atom.EndQmlText ->
  qmlTextLoop env (S fuel) true (atom :: next) relative
  = (skipAhead ← generateAtom env atom next relative;
     match advance (1 + skipAhead) (atom :: next) with
     | None => nullDeref
     | Some atoms => qmlTextLoop env fuel true atoms relative
     end).
Proof.
  intros Hend. cbn [qmlTextLoop]. rewrite bool_decide_eq_false_2 by exact Hend.
  reflexivity.
Qed.

(** Inside a block, a marker of a conditional is an atom like any other,
    on which the dispatcher does nothing; a string is written. *)
Lemma qmlTextLoop_inside (body rest : list Atom.Atom) : forall fuel g,
  Forall (fun atom => isControl (Atom.type atom) = true
                      \/ Atom.type atom = Atom.String) body ->
  inLink g = false ->
  exists out,
    qmlTextLoop env (List.length body + fuel) true (body ++ rest) relative g
    = qmlTextLoop env fuel true rest relative (set_writer (writer g ++ out) g)
    /\ characters out = stringsOf body.
Proof.
  induction body as [|atom next IH]; intros fuel g Hbody HinLink.
  - exists []. split; [destruct_generator g; run; rewrite app_nil_r; reflexivity|].
    reflexivity.
  - inversion Hbody as [|? ? Hatom Hnext]; subst.
    assert (Hrun : exists out1,
               generateAtom env atom (next ++ rest) relative g
               = Done (0%nat, set_writer (writer g ++ out1) g)
               /\ characters out1
                  = (if bool_decide (Atom.type atom = Atom.String)
                     then Atom.string atom else EmptyString)
               /\ Atom.type atom <> Atom.EndQmlText).
    { destruct Hatom as [Hcontrol | Hstring].
      - exists []. unfold generateAtom.
        destruct (Atom.type atom); try discriminate Hcontrol;
          (split; [destruct_generator g; run; rewrite app_nil_r; reflexivity|]);
          split; (reflexivity || discriminate).
      - exists [Characters (Atom.string atom)]. unfold generateAtom. rewrite Hstring.
        destruct g as [w d f l o c s r i p]. simpl in HinLink. subst l.
        split; [reflexivity|]. split; [|discriminate].
        cbn [characters]. apply append_nil_r. }
    destruct Hrun as (out1 & Hrun & Htext1 & Hend).
    destruct (IH fuel (set_writer (writer g ++ out1) g) Hnext
                ltac:(destruct_generator g; exact HinLink))
      as (out2 & Hwalk & Htext2).
    exists (out1 ++ out2). split.
    + change (List.length (atom :: next) + fuel)%nat with (S (List.length next + fuel)).
      change ((atom :: next) ++ rest) with (atom :: (next ++ rest)).
      rewrite (qmlTextLoop_inside_step _ _ _ Hend).
      rewrite (bind_Done _ _ _ _ _ Hrun).
      change (advance (1 + 0) (atom :: next ++ rest)) with (Some (next ++ rest)).
      cbv beta iota. rewrite Hwalk. destruct_generator g. run.
      rewrite <- app_assoc. reflexivity.
    + rewrite characters_app, Htext1, Htext2. unfold stringsOf. cbn [List.filter].
      destruct (bool_decide (Atom.type atom = Atom.String)); [|reflexivity].
      cbn [List.map]. rewrite concat_cons. reflexivity.
Qed.

End QmlTextProperties.





(** ** The class hierarchy *)

Lemma imbalance_app (l1 l2 : list WriterCall) :
  imbalance (l1 ++ l2) = imbalance l1 + imbalance l2.
Proof. unfold imbalance. rewrite nesting_app, !opens_app. lia. Qed.

Section ClassHierarchyProperties.

Variable graph : ClassGraph.
Variable relative : Node.Node.

Lemma classHierarchyLoop_nil fuel :
  classHierarchyLoop graph (S fuel) relative [] = mret tt.
Proof. reflexivity. Qed.

Lemma classHierarchyLoop_pop fuel below g :
  classHierarchyLoop graph (S fuel) relative ([] :: below) g
  = classHierarchyLoop graph fuel relative below (set_writer (writer g ++ popCalls) g).
Proof.
  cbn [classHierarchyLoop]. destruct_generator g. run.
  unfold popCalls. rewrite <- !app_assoc. reflexivity.
Qed.

Lemma classHierarchyLoop_item fuel key child others below g :
  classHierarchyLoop graph (S fuel) relative (((key, child) :: others) :: below) g
  = if negb (isEmptyList (listedDerivedClasses graph child))
    then classHierarchyLoop graph fuel relative
           (listedDerivedClasses graph child :: others :: below)
           (set_writer (writer g ++ itemCalls graph relative child
                        ++ [StartElement dbNamespace "itemizedlist"; Characters newline])
              g)
    else classHierarchyLoop graph fuel relative (others :: below)
           (set_writer (writer g ++ itemCalls graph relative child) g).
Proof.
  cbn [classHierarchyLoop]. unfold generateFullName, itemCalls.
  destruct (negb (isEmptyList (listedDerivedClasses graph child)));
    destruct_generator g; run; rewrite <- !app_assoc; reflexivity.
Qed.

(** When the loop returns, it has closed two elements for each list of
    the stack, beyond what the items and lists that it opened account
    for. *)
Lemma classHierarchyLoop_balance fuel : forall stack g h,
  classHierarchyLoop graph fuel relative stack g = Done (tt, h) ->
  exists out,
    h = set_writer (writer g ++ out) g
    /\ imbalance out = - 2 * Z.of_nat (List.length stack).
Proof.
  induction fuel as [|fuel IH]; intros stack g h Hrun; [discriminate|].
  destruct stack as [|[|[key child] others] below].
  - injection Hrun as <-. exists []. split; [|reflexivity].
    destruct_generator g. run. rewrite app_nil_r. reflexivity.
  - rewrite classHierarchyLoop_pop in Hrun. apply IH in Hrun.
    destruct Hrun as (out & -> & Hout).
    exists (popCalls ++ out). split.
    + destruct_generator g. run. rewrite <- app_assoc. reflexivity.
    + rewrite imbalance_app, Hout.
      change (imbalance popCalls) with (-2). cbn [List.length]. lia.
  - rewrite classHierarchyLoop_item in Hrun.
    destruct (negb (isEmptyList (listedDerivedClasses graph child)));
      apply IH in Hrun; destruct Hrun as (out & -> & Hout).
    + exists ((itemCalls graph relative child
               ++ [StartElement dbNamespace "itemizedlist"; Characters newline]) ++ out).
      split.
      * destruct_generator g. run. rewrite <- !app_assoc. reflexivity.
      * rewrite !imbalance_app, Hout.
        change (imbalance (itemCalls graph relative child)) with 0.
        change (imbalance [StartElement dbNamespace "itemizedlist"; Characters newline])
          with 2.
        cbn [List.length]. lia.
    + exists (itemCalls graph relative child ++ out). split.
      * destruct_generator g. run. rewrite <- !app_assoc. reflexivity.
      * rewrite imbalance_app, Hout. change (imbalance (itemCalls graph relative child)) with 0.
        cbn [List.length]. lia.
Qed.

(** A list of classes none of which has a listed derived class. *)
Lemma classHierarchyLoop_flat (top : NodeMap) : forall g,
  (forall node, listedDerivedClasses graph node = []) ->
  exists out,
    classHierarchyLoop graph (List.length top + 2) relative [top] g
    = Done (tt, set_writer (writer g ++ out) g)
    /\ opens "listitem" out = List.length top
    /\ opens "itemizedlist" out = 0%nat
    /\ nesting out = Z.of_nat (List.length top) - 2.
Proof.
  intros g Hflat. revert g.
  induction top as [|[key child] others IH]; intros g.
  - exists popCalls. split; [|repeat split].
    change (List.length (@nil (string * Node.Node)) + 2)%nat with 2%nat.
    rewrite classHierarchyLoop_pop, classHierarchyLoop_nil. reflexivity.
  - destruct (IH (set_writer (writer g ++ itemCalls graph relative child) g))
      as (out & Hrun & Hitems & Hlists & Hnesting).
    exists (itemCalls graph relative child ++ out). split; [|split; [|split]].
    + change (List.length ((key, child) :: others) + 2)%nat
        with (S (List.length others + 2)).
      rewrite classHierarchyLoop_item, Hflat. cbn [isEmptyList negb].
      etransitivity; [exact Hrun|].
      destruct_generator g. run. rewrite <- app_assoc. reflexivity.
    + rewrite opens_app, Hitems. reflexivity.
    + rewrite opens_app, Hlists. reflexivity.
    + rewrite nesting_app, Hnesting. change (nesting (itemCalls graph relative child)) with 1.
      cbn [List.length]. lia.
Qed.

End ClassHierarchyProperties.

(** X20.  When [generateClassHierarchy] returns for a class map that is
    not empty, the number of elements that its calls leave open is the
    number of list items that it opened minus the number of lists that it
    opened: a list item is closed only when the list that holds it ends,
    so that the output is balanced only if every list holds exactly one
    class.  For an empty class map nothing is written. *)
Theorem class_hierarchy_nesting (graph : ClassGraph) (fuel : nat)
    (relative : Node.Node) (classMap : NodeMap) (g h : Generator) :
  generateClassHierarchy graph fuel relative classMap g = Done (tt, h) ->
  exists out,
    h = set_writer (writer g ++ out) g
    /\ match classMap with
       | [] => out = []
       | _ :: _ =>
           nesting out
           = Z.of_nat (opens "listitem" out) - Z.of_nat (opens "itemizedlist" out)
       end.
Proof.
  unfold generateClassHierarchy. destruct classMap as [|entry classMap].
  - intros [= <-]. exists []. split; [|reflexivity].
    destruct_generator g. run. rewrite app_nil_r. reflexivity.
  - cbn [isEmptyList]. set (topLevel := topLevelClasses graph (entry :: classMap)).
    intros Hrun.
    assert (Hloop : classHierarchyLoop graph fuel relative [topLevel]
                      (set_writer (writer g ++ [StartElement dbNamespace "itemizedlist";
                                                Characters newline]) g)
                    = Done (tt, h)).
    { rewrite <- Hrun. destruct_generator g. run. rewrite <- !app_assoc. reflexivity. }
    apply classHierarchyLoop_balance in Hloop. destruct Hloop as (out & -> & Hout).
    exists ([StartElement dbNamespace "itemizedlist"; Characters newline] ++ out).
    split; [destruct_generator g; run; rewrite <- !app_assoc; reflexivity|].
    unfold imbalance in Hout. cbn [List.length] in Hout.
    rewrite nesting_app, !opens_app.
    change (nesting [StartElement dbNamespace "itemizedlist"; Characters newline]) with 1.
    change (opens "listitem" [StartElement dbNamespace "itemizedlist"; Characters newline])
      with 0%nat.
    change (opens "itemizedlist"
              [StartElement dbNamespace "itemizedlist"; Characters newline])
      with 1%nat.
    lia.
Qed.

Lemma class_hierarchy_nesting_witness :
  exists out,
    set_writer
      ([StartElement dbNamespace "itemizedlist"; Characters newline]
       ++ itemCalls flatGraph Sample.page Sample.oldWidget
       ++ itemCalls flatGraph Sample.page Sample.widget
       ++ popCalls) Sample.fresh
    = set_writer (writer Sample.fresh ++ out) Sample.fresh
    /\ nesting out
       = Z.of_nat (opens "listitem" out) - Z.of_nat (opens "itemizedlist" out).
Proof.
  apply (class_hierarchy_nesting flatGraph 4 Sample.page twoClasses Sample.fresh
           (set_writer
              ([StartElement dbNamespace "itemizedlist"; Characters newline]
               ++ itemCalls flatGraph Sample.page Sample.oldWidget
               ++ itemCalls flatGraph Sample.page Sample.widget
               ++ popCalls) Sample.fresh)).
  vm_compute. reflexivity.
Defined.

(** X21.  For classes none of which has a derived class to list,
    [generateClassHierarchy] returns after opening one list and one list
    item for each class without base class, and it leaves as many
    elements open as there are such classes, less one: with two classes
    or more the list is never closed, and with no such class an element
    is closed that was not opened. *)
Theorem flat_class_hierarchy (graph : ClassGraph) (relative : Node.Node)
    (classMap : NodeMap) (g : Generator) :
  classMap <> [] ->
  (forall node, listedDerivedClasses graph node = []) ->
  let classes := List.length (topLevelClasses graph classMap) in
  exists out,
    generateClassHierarchy graph (classes + 2) relative classMap g
    = Done (tt, set_writer (writer g ++ out) g)
    /\ opens "listitem" out = classes
    /\ opens "itemizedlist" out = 1%nat
    /\ nesting out = Z.of_nat classes - 1.
Proof.
  intros Hclasses Hflat classes.
  destruct (classHierarchyLoop_flat graph relative (topLevelClasses graph classMap)
              (set_writer (writer g ++ [StartElement dbNamespace "itemizedlist";
                                        Characters newline]) g) Hflat)
    as (out & Hrun & Hitems & Hlists & Hnesting).
  exists ([StartElement dbNamespace "itemizedlist"; Characters newline] ++ out).
  split; [|split; [|split]].
  - unfold generateClassHierarchy.
    destruct classMap as [|entry classMap]; [contradiction|]. cbn [isEmptyList].
    fold classes in Hrun.
    transitivity (classHierarchyLoop graph (classes + 2) relative
                    [topLevelClasses graph (entry :: classMap)]
                    (set_writer (writer g ++ [StartElement dbNamespace "itemizedlist";
                                              Characters newline]) g)).
    + destruct_generator g. run. rewrite <- !app_assoc. reflexivity.
    + etransitivity; [exact Hrun|].
      destruct_generator g. run. rewrite <- !app_assoc. reflexivity.
  - rewrite opens_app, Hitems. reflexivity.
  - rewrite opens_app, Hlists. reflexivity.
  - rewrite nesting_app, Hnesting.
    change (nesting [StartElement dbNamespace "itemizedlist"; Characters newline]) with 1.
    fold classes. lia.
Qed.

Lemma flat_class_hierarchy_witness :
  exists out,
    generateClassHierarchy flatGraph (2 + 2) Sample.page twoClasses Sample.fresh
    = Done (tt, set_writer (writer Sample.fresh ++ out) Sample.fresh)
    /\ opens "listitem" out = 2%nat
    /\ opens "itemizedlist" out = 1%nat
    /\ nesting out = 2 - 1.
Proof.
  apply (flat_class_hierarchy flatGraph Sample.page twoClasses Sample.fresh).
  - discriminate.
  - reflexivity.
Defined.

(** ** Notes on a node *)

Lemma writes_ret {A : Type} (a : A) : writes (mret a) a [].
Proof. intros g. destruct_generator g. cbn. rewrite app_nil_r. reflexivity. Qed.

Lemma writes_emit (c : WriterCall) : writes (emit c) tt [c].
Proof. intros g. reflexivity. Qed.

Lemma writes_bind {A B : Type} (m : M A) (f : A -> M B) a b out1 out2 :
  writes m a out1 -> writes (f a) b out2 -> writes (m ≫= f) b (out1 ++ out2).
Proof.
  intros Hm Hf g. rewrite (bind_Done _ _ _ _ _ (Hm g)), Hf.
  destruct_generator g. cbn. rewrite <- app_assoc. reflexivity.
Qed.

Lemma writes_forEach {A : Type} (body : A -> M unit) (calls : A -> list WriterCall)
    (l : list A) :
  (forall x, writes (body x) tt (calls x)) ->
  writes (forEach l body) tt (List.concat (List.map calls l)).
Proof.
  intros Hbody. induction l as [|x l IH]; [apply writes_ret|].
  cbn [forEach List.map List.concat]. eapply writes_bind; [apply Hbody|exact IH].
Qed.

Lemma closesWithin_app (a b : list WriterCall) : forall open,
  closesWithin open (a ++ b)
  = match closesWithin open a with
    | Some between => closesWithin between b
    | None => None
    end.
Proof.
  induction a as [|c a IH]; intros open; [reflexivity|].
  destruct c; cbn [closesWithin app]; try apply IH.
  destruct open; [reflexivity|apply IH].
Qed.

Lemma closed_app (a b : list WriterCall) : closed a -> closed b -> closed (a ++ b).
Proof. intros Ha Hb open. rewrite closesWithin_app, Ha. apply Hb. Qed.

Lemma closed_concat (l : list (list WriterCall)) :
  Forall closed l -> closed (List.concat l).
Proof.
  induction 1 as [|a l Ha _ IH]; [intros open; reflexivity|].
  cbn [List.concat]. apply closed_app; assumption.
Qed.

Lemma writes_eq {A : Type} (m : M A) (a : A) (out out' : list WriterCall) :
  writes m a out -> out = out' -> writes m a out'.
Proof. intros H <-. exact H. Qed.

Ltac writes_step :=
  lazymatch goal with
  | |- writes (mret _) _ _ => apply writes_ret
  | |- writes (emit _) _ _ => apply writes_emit
  | |- writes (_ ≫= _) _ _ => eapply writes_bind; [|cbv beta]
  end.

Ltac unfold_writer :=
  unfold generateSimpleLink, newLine, writeStartElement, writeEmptyElement,
    writeTextElement, writeAttribute, writeAttributeNS, writeCharacters,
    writeEndElement.

Section NotesProperties.

Variable env : Collaborators.
Variable graph : ClassGraph.
Variable facts : NodeFacts.

(** The calls of [generateSignatureList] for one node. *)
Lemma generateSignatureList_writes (nodes : list Node.Node) :
  exists items,
    writes (generateSignatureList graph facts nodes) tt
      ([StartElement dbNamespace "itemizedlist"; Characters newline]
       ++ List.concat items ++ [EndElement "itemizedlist"; Characters newline])
    /\ List.length items = List.length nodes
    /\ Forall (fun item => closed item /\ opens "listitem" item = 1%nat) items.
Proof.
  exists (List.map (fun n =>
     [StartElement dbNamespace "listitem"; Characters newline;
      StartElement dbNamespace "para"; StartElement dbNamespace "link";
      AttributeNS xlinkNamespace "href" (fullDocumentLocation graph n);
      Characters (signature facts n); EndElement "link"; EndElement "para";
      Characters newline; EndElement "itemizedlist"; Characters newline]) nodes).
  split; [|split].
  - unfold generateSignatureList. unfold_writer.
    eapply writes_eq.
    + do 2 (eapply writes_bind; [apply writes_emit|cbv beta]).
      eapply writes_bind; [|cbv beta; repeat writes_step].
      apply writes_forEach with
        (calls := fun n =>
           [StartElement dbNamespace "listitem"; Characters newline;
            StartElement dbNamespace "para"; StartElement dbNamespace "link";
            AttributeNS xlinkNamespace "href" (fullDocumentLocation graph n);
            Characters (signature facts n); EndElement "link"; EndElement "para";
            Characters newline; EndElement "itemizedlist"; Characters newline]).
      intros n. eapply writes_eq; [repeat writes_step|reflexivity].
    + reflexivity.
  - apply length_map.
  - apply Forall_map. apply Forall_forall. intros n _.
    split; [intros open; reflexivity|reflexivity].
Qed.

Lemma opens_concat (name : string) (items : list (list WriterCall)) :
  Forall (fun item => opens name item = 1%nat) items ->
  opens name (List.concat items) = List.length items.
Proof.
  induction 1 as [|item items Hitem _ IH]; [reflexivity|].
  cbn [List.concat List.length]. rewrite opens_app, Hitem, IH. reflexivity.
Qed.

(** X22.  [generateSignatureList] closes every element that it opens, and
    never an element of its caller, whatever the nodes are; it writes one
    [listitem] for each node, and an empty [itemizedlist] when there is no
    node. *)
Theorem signature_list_is_closed (nodes : list Node.Node) :
  exists out,
    writes (generateSignatureList graph facts nodes) tt out
    /\ closed out
    /\ opens "listitem" out = List.length nodes.
Proof.
  destruct (generateSignatureList_writes nodes) as (items & Hwrites & Hlength & Hitems).
  eexists. split; [exact Hwrites|]. split.
  - intros open. rewrite closesWithin_app. cbn [closesWithin].
    rewrite closesWithin_app, closed_concat; [reflexivity|].
    eapply Forall_impl; [exact Hitems|]. intros item [H _]. exact H.
  - rewrite !opens_app, opens_concat, Hlength; [cbn; lia|].
    eapply Forall_impl; [exact Hitems|]. intros item [_ H]. exact H.
Qed.

Lemma exceptionList_writes (nodes : list Node.Node) (intro link text : string) :
  exists out,
    writes (exceptionList graph facts nodes intro link text) tt out
    /\ forall open,
         closesWithin open out
         = if isEmptyList nodes then Some open
           else match open with
                | O => None
                | S below => Some below
                end.
Proof.
  unfold exceptionList, when.
  destruct (isEmptyList nodes); cbn [negb].
  - exists []. split; [apply writes_ret|reflexivity].
  - destruct (generateSignatureList_writes nodes) as (items & Hwrites & _ & Hitems).
    eexists. split.
    + unfold_writer. repeat writes_step. exact Hwrites.
    + intros open. cbn [app closesWithin].
      destruct open as [|below]; [reflexivity|].
      rewrite closesWithin_app, closed_concat; [reflexivity|].
      eapply Forall_impl; [exact Hitems|]. intros item [H _]. exact H.
Qed.

(** X23.  [generateThreadSafeness] returns whether the node states its
    thread safeness.  Its note closes what it opens, except where it lists
    exceptions: there it opens a paragraph that each list closes, so that
    one element is left open without a list, and with two lists the end of
    the note closes an element that the caller opened, or is written with
    no element open. *)
Theorem thread_safeness_note (node : Node.Node) :
  exists out,
    writes (generateThreadSafeness env graph facts node)
      (match threadSafeness facts node with
       | UnspecifiedSafeness => false
       | _ => true
       end) out
    /\ forall open,
         closesWithin open out
         = if listsExceptions facts node
           then if (exceptionLists facts node <=? S open)%nat
                then Some (S open - exceptionLists facts node)%nat
                else None
           else Some open.
Proof.
  unfold generateThreadSafeness, listsExceptions, exceptionLists.
  destruct (hasExceptions facts node) as [exceptions [[reentrant threadsafe] nonreentrant]].
  destruct (threadSafeness facts node).
  - exists []. split; [apply writes_ret|reflexivity].
  - eexists. split; [unfold_writer; repeat writes_step|]. intros open. reflexivity.
  - destruct (exceptionList_writes nonreentrant "These functions are not "
                (getAutoLink env (Atom.make Atom.Link "reentrant") node).1 "reentrant")
      as (first & Hfirst & Cfirst).
    destruct (exceptionList_writes threadsafe "These functions are also "
                (getAutoLink env (Atom.make Atom.Link "thread-safe") node).1 "thread-safe")
      as (second & Hsecond & Csecond).
    destruct (isAggregate facts node); destruct exceptions;
      destruct (isEmptyList threadsafe) eqn:Hthreadsafe; cbn [negb andb orb];
      eexists; (split; [unfold_writer; repeat writes_step; eassumption|]);
      intros open; cbn [app closesWithin]; try reflexivity.
    rewrite !closesWithin_app, Cfirst.
    destruct (isEmptyList nonreentrant); rewrite Csecond; destruct open; reflexivity.
  - destruct (exceptionList_writes reentrant "These functions are only "
                (getAutoLink env (Atom.make Atom.Link "reentrant") node).1 "reentrant")
      as (first & Hfirst & Cfirst).
    destruct (exceptionList_writes nonreentrant "These functions are not "
                (getAutoLink env (Atom.make Atom.Link "reentrant") node).1 "reentrant")
      as (second & Hsecond & Csecond).
    destruct (isAggregate facts node); destruct exceptions; cbn [negb andb orb];
      eexists; (split; [unfold_writer; repeat writes_step; eassumption|]);
      intros open; cbn [app closesWithin]; try reflexivity.
    rewrite !closesWithin_app, Cfirst.
    destruct (isEmptyList reentrant); rewrite Csecond;
      destruct (isEmptyList nonreentrant); destruct open; cbn;
      rewrite ?Nat.sub_0_r; reflexivity.
Qed.

Lemma writes_nullDeref {A B : Type} (m : M A) (a : A) (out : list WriterCall)
    (f : A -> M B) :
  writes m a out -> (forall g, f a g = NullDeref) -> forall g, (m ≫= f) g = NullDeref.
Proof. intros Hm Hf g. rewrite (bind_Done _ _ _ _ _ (Hm g)). apply Hf. Qed.

Lemma generateReimplementsClause_cases (fn : Node.Node) :
  clauseCases (generateReimplementsClause graph facts fn).
Proof.
  unfold generateReimplementsClause.
  destruct (QString.isEmpty (overridesThis facts fn)); cbn [negb];
    [left; apply writes_ret|].
  destruct (Node.parent fn) as [cn|]; [|right; left; reflexivity].
  destruct (isClassNode facts cn); [|left; apply writes_ret].
  assert (Hsame : forall overrides,
    clauseCases
      match findOverriddenProperty facts cn fn with
      | Some sameName =>
          if hasDoc graph sameName
          then
            writeStartElement dbNamespace "para";;
            writeCharacters "Reimplements an access function for property: ";;
            match Node.parent sameName with
            | Some owner =>
                generateFullNameAs graph owner
                  (Node.name owner +:+ "::" +:+ Node.name sameName) overrides;;
                writeCharacters "."
            | None => nullDeref
            end
          else mret tt
      | None => mret tt
      end).
  { intros overrides.
    destruct (findOverriddenProperty facts cn fn) as [sameName|];
      [|left; apply writes_ret].
    destruct (hasDoc graph sameName); [|left; apply writes_ret].
    destruct (Node.parent sameName) as [owner|].
    - right. right. eexists. split.
      + unfold generateFullNameAs. unfold_writer. repeat writes_step.
      + split; [reflexivity|]. intros open. reflexivity.
    - right. left. unfold_writer.
      eapply writes_nullDeref; [apply writes_emit|]. cbv beta.
      eapply writes_nullDeref; [apply writes_emit|]. reflexivity. }
  destruct (findOverriddenFunction facts cn fn) as [overridden|]; [|apply Hsame].
  destruct (isPrivateNode facts overridden); cbn [negb]; [apply Hsame|].
  destruct (Node.parent overridden) as [owner|]; [|right; left; reflexivity].
  destruct (isPrivateNode facts owner); cbn [negb]; [apply Hsame|].
  destruct (hasDoc graph overridden); [|apply Hsame].
  right. right. eexists. split.
  - unfold generateFullNameAs. unfold_writer. repeat writes_step.
  - split; [reflexivity|]. intros open. reflexivity.
Qed.

(** X24.  When [generateReimplementsClause] writes anything, it begins a
    paragraph that it does not end: its calls leave one element open. *)
Theorem reimplements_clause_leaves_para_open (fn : Node.Node) (g h : Generator) :
  generateReimplementsClause graph facts fn g = Done (tt, h) ->
  writer h <> writer g ->
  exists out,
    h = set_writer (writer g ++ out) g
    /\ head out = Some (StartElement dbNamespace "para")
    /\ forall open, closesWithin open out = Some (S open).
Proof.
  intros Hrun Hwritten.
  destruct (generateReimplementsClause_cases fn) as [Hnone|[Hnull|(out & Hout & Hopen)]].
  - rewrite Hnone in Hrun. injection Hrun as <-. exfalso. apply Hwritten.
    destruct_generator g. cbn. apply app_nil_r.
  - rewrite Hnull in Hrun. discriminate.
  - rewrite Hout in Hrun. injection Hrun as <-. exists out. split; [reflexivity|exact Hopen].
Qed.

End NotesProperties.

Lemma reimplements_clause_leaves_para_open_witness :
  exists out,
    set_writer
      [StartElement dbNamespace "para"; Characters "Reimplements: ";
       StartElement dbNamespace "link"; AttributeNS xlinkNamespace "href" "member.xml";
       Attribute "type" "class"; Characters "OldWidget::member()"; EndElement "link";
       Characters "."] Sample.fresh
    = set_writer (writer Sample.fresh ++ out) Sample.fresh
    /\ head out = Some (StartElement dbNamespace "para")
    /\ forall open, closesWithin open out = Some (S open).
Proof.
  apply (reimplements_clause_leaves_para_open flatGraph overriding Sample.oldMember
           Sample.fresh); [reflexivity|discriminate].
Defined.

(** ** Lists of members *)

(** X25.  [generateSectionInheritedList] opens a [listitem] for each class
    from which members are inherited and closes none of them: every entry
    leaves one more element open. *)
Theorem inherited_list_items_stay_open (countText : Z -> string)
    (fileName : Node.Node -> string) (cleanRef lower : string -> string)
    (plainFullName : Node.Node -> Node.Node -> string)
    (section : DocSection) (relative : Node.Node) :
  exists out,
    writes (generateSectionInheritedList countText fileName cleanRef lower
              plainFullName section relative) tt out
    /\ opens "listitem" out = List.length (inheritedMembers section)
    /\ forall open,
         closesWithin open out
         = Some (open + List.length (inheritedMembers section))%nat.
Proof.
  unfold generateSectionInheritedList.
  induction (inheritedMembers section) as [|p members IH].
  - exists []. split; [apply writes_ret|]. split; [reflexivity|].
    intros open. cbn. f_equal. lia.
  - destruct IH as (out & Hwrites & Hitems & Hopen).
    eexists. split; [|split].
    + cbn [forEach]. eapply writes_bind; [|exact Hwrites].
      replace (if p.2 =? 1 then writeCharacters (singular section)
               else writeCharacters (plural section))
        with (writeCharacters (if p.2 =? 1 then singular section else plural section))
        by (destruct (p.2 =? 1); reflexivity).
      unfold_writer. repeat writes_step.
    + rewrite opens_app, Hitems. reflexivity.
    + intros open. rewrite closesWithin_app. cbn [app closesWithin].
      rewrite Hopen. cbn [List.length]. f_equal. lia.
Qed.

(** ** Annotated lists *)

Lemma opens_concat_none (name : string) (items : list (list WriterCall)) :
  Forall (fun item => opens name item = 0%nat) items ->
  opens name (List.concat items) = 0%nat.
Proof.
  induction 1 as [|item items Hitem _ IH]; [reflexivity|].
  cbn [List.concat]. rewrite opens_app, Hitem, IH. reflexivity.
Qed.

Lemma forEach_emits {A : Type} (body : A -> M unit)
    (P : A -> list WriterCall -> Prop) (l : list A) :
  (forall x g, exists out g',
      body x g = Done (tt, g') /\ writer g' = writer g ++ out /\ P x out) ->
  forall g, exists outs g',
    forEach l body g = Done (tt, g')
    /\ writer g' = writer g ++ List.concat outs
    /\ Forall2 P l outs.
Proof.
  intros Hbody. induction l as [|x l IH]; intros g.
  - exists [], g. split; [reflexivity|]. split; [|constructor].
    cbn. rewrite app_nil_r. reflexivity.
  - destruct (Hbody x g) as (out & g1 & Hrun & Hout & HP).
    destruct (IH g1) as (outs & g2 & Hrest & Houts & HPs).
    exists (out :: outs), g2. split; [|split].
    + cbn [forEach]. rewrite (bind_Done _ _ _ _ _ Hrun). exact Hrest.
    + rewrite Houts, Hout. cbn [List.concat]. rewrite <- app_assoc. reflexivity.
    + constructor; assumption.
Qed.

(** Each entry of a multimap is a value of one of the unique keys. *)
Lemma count_key (key : string) (keys : list string) :
  NoDup keys -> In key keys ->
  List.length (List.filter (fun k => String.eqb key k) keys) = 1%nat.
Proof.
  induction 1 as [|k keys Hk Hkeys IH]; intros Hin; [contradiction|].
  cbn [List.filter]. destruct (String.eqb key k) eqn:Heq.
  - apply String.eqb_eq in Heq. subst k. cbn [List.length]. f_equal.
    clear -Hk. induction keys as [|k keys IH]; [reflexivity|].
    cbn [List.filter]. destruct (String.eqb key k) eqn:Heq.
    + apply String.eqb_eq in Heq. subst k. exfalso. apply Hk. now left.
    + apply IH. intros Hin. apply Hk. right. exact Hin.
  - apply IH. destruct Hin as [->|Hin]; [|exact Hin].
    rewrite String.eqb_refl in Heq. discriminate.
Qed.

Lemma valuesOf_cons (entry : string * Node.Node) (nmm : NodeMultiMap) (key : string) :
  valuesOf (entry :: nmm) key
  = if String.eqb entry.1 key then entry.2 :: valuesOf nmm key else valuesOf nmm key.
Proof.
  unfold valuesOf. cbn [List.filter]. destruct (String.eqb entry.1 key); reflexivity.
Qed.

Lemma valuesOf_count (entry : string * Node.Node) (nmm : NodeMultiMap)
    (keys : list string) :
  list_sum (List.map (fun key => List.length (valuesOf (entry :: nmm) key)) keys)
  = (List.length (List.filter (fun key => String.eqb entry.1 key) keys)
     + list_sum (List.map (fun key => List.length (valuesOf nmm key)) keys))%nat.
Proof.
  induction keys as [|key keys IH]; [reflexivity|].
  cbn [List.map List.filter].
  change (list_sum (?a :: ?l)) with (a + list_sum l)%nat.
  rewrite IH, valuesOf_cons.
  destruct (String.eqb entry.1 key); cbn [List.length]; lia.
Qed.

Lemma valuesOf_partition (nmm : NodeMultiMap) : forall keys,
  NoDup keys -> (forall entry, In entry nmm -> In entry.1 keys) ->
  list_sum (List.map (fun key => List.length (valuesOf nmm key)) keys)
  = List.length nmm.
Proof.
  induction nmm as [|entry nmm IH]; intros keys Hkeys Hin.
  - clear. induction keys as [|key keys IH]; [reflexivity|]. exact IH.
  - rewrite valuesOf_count, count_key, IH; try assumption.
    + reflexivity.
    + intros e He. apply Hin. right. exact He.
    + apply Hin. now left.
Qed.

Lemma uniqueKeys_partition (nmm : NodeMultiMap) :
  list_sum (List.map (fun key => List.length (valuesOf nmm key)) (uniqueKeys nmm))
  = List.length nmm.
Proof.
  apply valuesOf_partition; [apply NoDup_ListNoDup, NoDup_nodup|].
  intros entry Hin. apply nodup_In. apply in_map. exact Hin.
Qed.

Section AnnotatedListsProperties.

Variable graph : ClassGraph.
Variable briefText : Node.Node -> string.
Variable lower : string -> string.
Variable registerRef : string -> gmap string string -> string * gmap string string.

Lemma generateAnnotatedList_writes (relative : Node.Node) (nodes : list Node.Node)
    (selector : string) :
  exists out,
    writes (generateAnnotatedList graph briefText relative nodes selector) tt out
    /\ closed out
    /\ opens "varlistentry" out = List.length nodes
    /\ opens "section" out = 0%nat.
Proof.
  pose (entry := fun node =>
    [StartElement dbNamespace "varlistentry"; Characters newline;
     StartElement dbNamespace "term"; StartElement dbNamespace "link";
     AttributeNS xlinkNamespace "href" (fullDocumentLocation graph node);
     AttributeNS xlinkNamespace "role" (targetType graph node);
     Characters (fullName graph node relative); EndElement "link";
     EndElement "term"; Characters newline;
     StartElement dbNamespace "listitem"; Characters newline;
     StartElement dbNamespace "para"; Characters (briefText node);
     EndElement "para"; Characters newline; EndElement "listitem";
     Characters newline; EndElement "varlistentry"; Characters newline]).
  exists ([StartElement dbNamespace "variablelist"; Attribute "role" selector;
           Characters newline]
          ++ List.concat (List.map entry nodes)
          ++ [EndElement "variablelist"; Characters newline]).
  split; [|split; [|split]].
  - unfold generateAnnotatedList, generateFullName. unfold_writer.
    eapply writes_eq.
    + do 3 (eapply writes_bind; [apply writes_emit|cbv beta]).
      eapply writes_bind; [|cbv beta; repeat writes_step].
      apply writes_forEach with (calls := entry).
      intros node. eapply writes_eq; [repeat writes_step|reflexivity].
    + reflexivity.
  - intros open. rewrite closesWithin_app. cbn [closesWithin].
    rewrite closesWithin_app, closed_concat; [reflexivity|].
    apply Forall_map, Forall_forall. intros node _ depth. reflexivity.
  - rewrite !opens_app, opens_concat, length_map; [cbn; lia|].
    apply Forall_map, Forall_forall. intros node _. reflexivity.
  - rewrite !opens_app, opens_concat_none; [reflexivity|].
    apply Forall_map, Forall_forall. intros node _. reflexivity.
Qed.

(** What one key of the multimap contributes to [generateAnnotatedLists]. *)
Let listed (nmm : NodeMultiMap) (name : string) (out : list WriterCall) : Prop :=
  closed out
  /\ opens "varlistentry" out = List.length (valuesOf nmm name)
  /\ opens "section" out = if QString.isEmpty name then 0%nat else 1%nat.

Lemma listed_sum (nmm : NodeMultiMap) (keys : list string)
    (outs : list (list WriterCall)) :
  Forall2 (listed nmm) keys outs ->
  closed (List.concat outs)
  /\ opens "varlistentry" (List.concat outs)
     = list_sum (List.map (fun key => List.length (valuesOf nmm key)) keys)
  /\ opens "section" (List.concat outs)
     = List.length (List.filter (fun name => negb (QString.isEmpty name)) keys).
Proof.
  induction 1 as [|name out keys outs (Hclosed & Hentries & Hsections) _ IH].
  - split; [intros open; reflexivity|split; reflexivity].
  - destruct IH as (IHclosed & IHentries & IHsections).
    cbn [List.concat List.map List.filter].
    change (list_sum (?a :: ?l)) with (a + list_sum l)%nat.
    split; [apply closed_app; assumption|].
    rewrite !opens_app, Hentries, Hsections, IHentries, IHsections.
    split; [reflexivity|].
    destruct (QString.isEmpty name); reflexivity.
Qed.


End AnnotatedListsProperties.

(** ** Links to examples *)

Lemma append_cons (a : ascii) (s t : string) :
  String a s +:+ t = String a (s +:+ t).
Proof. reflexivity. Qed.

Lemma replace_append (c : ascii) (after s : string) :
  QString.contains c s = false ->
  replace c after (s +:+ String c EmptyString) = s +:+ after.
Proof.
  induction s as [|a s IH]; intros Hnone.
  - change (EmptyString +:+ ?x) with x. cbn [replace]. rewrite Ascii.eqb_refl.
    apply append_nil_r.
  - cbn [QString.contains] in Hnone. apply orb_false_iff in Hnone as [Ha Hs].
    rewrite !append_cons. cbn [replace]. rewrite Ha, IH by exact Hs. reflexivity.
Qed.

Lemma contains_append (c : ascii) (s t : string) :
  QString.contains c (s +:+ t) = QString.contains c s || QString.contains c t.
Proof.
  induction s as [|a s IH]; [reflexivity|].
  rewrite append_cons. cbn [QString.contains]. rewrite IH. apply orb_assoc.
Qed.

(** X27.  When the base address of the examples holds no placeholder,
    [generateLinkToExample] links to the base address followed by the path
    to the example, with one separator added between them unless the base
    address ends in a separator. *)
Theorem example_link_appends_path (host : string -> string)
    (examplesInstallPath : string) (en : Node.Node) (baseUrl : string) :
  QString.contains placeholder baseUrl = false ->
  exists text,
    writes (generateLinkToExample host examplesInstallPath en baseUrl) tt
      [StartElement dbNamespace "para"; StartElement dbNamespace "link";
       AttributeNS xlinkNamespace "href"
         (appendedPath baseUrl
            (String.concat (String separator EmptyString)
               (examplePath examplesInstallPath en)));
       Characters text; EndElement "link"; EndElement "para"; Characters newline].
Proof.
  intros Hnone. eexists. unfold generateLinkToExample, appendedPath.
  rewrite Hnone. cbn [negb]. rewrite replace_append.
  - destruct (endsWith separator baseUrl); cbn [negb]; unfold_writer;
      (eapply writes_eq; [repeat writes_step|reflexivity]).
  - destruct (endsWith separator baseUrl); cbn [negb]; [exact Hnone|].
    rewrite contains_append, Hnone. reflexivity.
Qed.

Lemma example_link_appends_path_witness :
  exists text,
    writes (generateLinkToExample (fun _ => "code.qt.io") "widgets" Sample.widget
              "https://code.qt.io/examples") tt
      [StartElement dbNamespace "para"; StartElement dbNamespace "link";
       AttributeNS xlinkNamespace "href" "https://code.qt.io/examples/widgets/Widget";
       Characters text; EndElement "link"; EndElement "para"; Characters newline].
Proof.
  apply (example_link_appends_path (fun _ => "code.qt.io") "widgets" Sample.widget
           "https://code.qt.io/examples").
  reflexivity.
Defined.

(** ** Status, version and related classes *)

(** X28.  [generateStatus] and [generateSince] return [true] exactly when
    they write something, and what they write closes every element that it
    opens. *)
Theorem status_and_since_report_output (facts : NodeFacts)
    (since formatSince : Node.Node -> string) (node : Node.Node) :
  (exists out result,
      writes (generateStatus facts node) result out
      /\ result = negb (isEmptyList out) /\ closed out)
  /\ (exists out result,
        writes (generateSince facts since formatSince node) result out
        /\ result = negb (isEmptyList out) /\ closed out).
Proof.
  split.
  - unfold generateStatus, when.
    destruct (Node.status node); destruct (isAggregate facts node);
      eexists; eexists;
      (split; [unfold_writer; eapply writes_eq;
               [repeat writes_step|cbn [app]; reflexivity]
              |split; [reflexivity|intros open; reflexivity]]).
  - unfold generateSince, when.
    destruct (QString.isEmpty (since node)); destruct (Node.isEnumType node);
      cbn [negb]; eexists; eexists;
      (split; [unfold_writer; eapply writes_eq;
               [repeat writes_step|cbn [app]; reflexivity]
              |split; [reflexivity|intros open; reflexivity]]).
Qed.

Lemma insertName_In (name x : string) (names : list string) :
  In x (insertName name names) <-> x = name \/ In x names.
Proof.
  induction names as [|first rest IH]; cbn [insertName].
  - cbn. intuition congruence.
  - destruct (String.compare name first); cbn [In] in *; try rewrite IH;
      intuition congruence.
Qed.

Lemma insertName_length (name : string) (names : list string) :
  List.length (insertName name names) = S (List.length names).
Proof.
  induction names as [|first rest IH]; [reflexivity|].
  cbn [insertName]. destruct (String.compare name first); cbn [List.length];
    rewrite ?IH; reflexivity.
Qed.

Lemma sortNames_In (x : string) (names : list string) :
  In x (sortNames names) -> In x names.
Proof.
  induction names as [|name names IH]; [intros []|].
  cbn [sortNames fold_right]. intros Hin. apply insertName_In in Hin as [->|Hin].
  - now left.
  - right. apply IH. exact Hin.
Qed.

Lemma sortNames_length (names : list string) :
  List.length (sortNames names) = List.length names.
Proof.
  induction names as [|name names IH]; [reflexivity|].
  cbn [sortNames fold_right List.length]. rewrite insertName_length. f_equal. exact IH.
Qed.

Lemma valueOf_key (m : NodeMap) (key : string) :
  In key (List.map fst m) -> exists node, valueOf m key = Some node.
Proof.
  induction m as [|[k v] m IH]; [intros []|].
  cbn [List.map fst In valueOf]. intros Hin.
  destruct (String.eqb k key) eqn:Heq; [exists v; reflexivity|].
  destruct Hin as [->|Hin]; [|apply IH; exact Hin].
  rewrite String.eqb_refl in Heq. discriminate.
Qed.

Lemma insertNode_length (key : string) (node : Node.Node) (m : NodeMap) :
  (List.length (insertNode key node m) <= S (List.length m))%nat.
Proof.
  induction m as [|[k v] m IH]; [cbn; lia|].
  cbn [insertNode]. destruct (String.compare key k); cbn [List.length] in *; lia.
Qed.

Section SortedNamesProperties.

Variable graph : ClassGraph.
Variable isPublic : Node.Node -> bool.
Variable docIsEmpty : Node.Node -> bool.
Variable plainFullName : Node.Node -> Node.Node -> string.
Variable lower : string -> string.
Variable comma : Z -> Z -> string.

Lemma sortedNamesLoop_writes (cn : Node.Node) (classMap : NodeMap) (count : Z) :
  forall classNames index,
    (forall name, In name classNames -> In name (List.map fst classMap)) ->
    exists out,
      writes (sortedNamesLoop graph comma cn classMap count classNames index) tt out
      /\ closed out
      /\ opens "link" out = List.length classNames.
Proof.
  induction classNames as [|className rest IH]; intros index Hkeys.
  - exists []. split; [apply writes_ret|]. split; [intros open|]; reflexivity.
  - destruct (valueOf_key classMap className (Hkeys _ (or_introl eq_refl)))
      as [node Hnode].
    destruct (IH (index + 1) (fun name Hin => Hkeys name (or_intror Hin)))
      as (out & Hout & Hclosed & Hlinks).
    eexists. cbn [sortedNamesLoop]. rewrite Hnode. split; [|split].
    + unfold generateFullName. unfold_writer. repeat writes_step. exact Hout.
    + intros open. cbn [app closesWithin]. apply Hclosed.
    + cbn [app]. change (opens "link" (StartElement dbNamespace "link" :: ?l))
        with (S (opens "link" l)).
      cbn [List.length]. f_equal. exact Hlinks.
Qed.

Lemma sortedClassMap_length (cn : Node.Node) (rc : list RelatedClass) :
  (List.length (sortedClassMap isPublic docIsEmpty plainFullName lower cn rc)
   <= List.length rc)%nat.
Proof.
  unfold sortedClassMap.
  assert (Hfold : forall classMap,
    (List.length (List.fold_left
       (fun classMap r =>
          match node_ r with
          | Some rcn =>
              if isPublic rcn
                 && negb (Node.status_eqb (Node.status rcn) Node.Internal)
                 && negb (docIsEmpty rcn)
              then insertNode (lower (plainFullName rcn cn)) rcn classMap
              else classMap
          | None => classMap
          end) rc classMap)
     <= List.length classMap + List.length rc)%nat).
  { induction rc as [|r rc IH]; intros classMap; [cbn; lia|].
    cbn [List.fold_left List.length]. etransitivity; [apply IH|].
    destruct (node_ r) as [rcn|]; [|lia].
    destruct (isPublic rcn && negb (Node.status_eqb (Node.status rcn) Node.Internal)
              && negb (docIsEmpty rcn)); [|lia].
    pose proof (insertNode_length (lower (plainFullName rcn cn)) rcn classMap). lia. }
  apply (Hfold []).
Qed.

(** X29.  [generateSortedNames] finds a node for every name that it looks
    up, so that it never dereferences a null pointer; it writes one link
    for each name under which a related class is kept, which are at most
    as many as the related classes, and closes every link. *)
Theorem sorted_names_are_linked (cn : Node.Node) (rc : list RelatedClass) :
  exists out,
    writes (generateSortedNames graph isPublic docIsEmpty plainFullName lower comma
              cn rc) tt out
    /\ closed out
    /\ opens "link" out
       = List.length (sortedClassMap isPublic docIsEmpty plainFullName lower cn rc)
    /\ (opens "link" out <= List.length rc)%nat.
Proof.
  unfold generateSortedNames.
  destruct (sortedNamesLoop_writes cn
              (sortedClassMap isPublic docIsEmpty plainFullName lower cn rc)
              (Z.of_nat (List.length (sortNames (List.map fst
                 (sortedClassMap isPublic docIsEmpty plainFullName lower cn rc)))))
              (sortNames (List.map fst
                 (sortedClassMap isPublic docIsEmpty plainFullName lower cn rc))) 0)
    as (out & Hout & Hclosed & Hlinks).
  - intros name. apply sortNames_In.
  - rewrite sortNames_length, length_map in Hlinks.
    exists out. split; [exact Hout|]. split; [exact Hclosed|]. split; [exact Hlinks|].
    rewrite Hlinks. apply sortedClassMap_length.
Qed.

End SortedNamesProperties.

(** ** The index of functions *)

Lemma anchorIds_app (a b : list WriterCall) :
  anchorIds (a ++ b) = anchorIds a ++ anchorIds b.
Proof.
  induction a as [|c a IH]; [reflexivity|].
  destruct c; cbn [app anchorIds]; try exact IH.
  destruct (String.eqb _ _); cbn [app]; rewrite IH; reflexivity.
Qed.

Lemma lettersBetween_nil (first : Z) : lettersBetween first first = [].
Proof. unfold lettersBetween. rewrite Z.sub_diag. reflexivity. Qed.

Lemma lettersBetween_cons (first next : Z) :
  first < next ->
  lettersBetween first next = letter first :: lettersBetween (first + 1) next.
Proof.
  intros Hlt. unfold lettersBetween.
  replace (Z.to_nat (next - first)) with (S (Z.to_nat (next - (first + 1)))) by lia.
  cbn [seq List.map]. rewrite Z.add_0_r. f_equal.
  rewrite <- seq_shift, map_map. apply map_ext. intros i. f_equal. lia.
Qed.

Section FunctionIndexProperties.

Variable graph : ClassGraph.

(** The loop of the anchors writes the letters from [nextLetter] to
    [currentLetter], when that is a lower-case letter, and stops after
    it. *)
Lemma anchorLoop_writes (currentLetter : Z) : forall fuel nextLetter,
  (0 < fuel)%nat ->
  (islower currentLetter = true ->
   (Z.to_nat (currentLetter + 1 - nextLetter) < fuel)%nat) ->
  exists out,
    writes (anchorLoop fuel currentLetter nextLetter)
      (if islower currentLetter then Z.max nextLetter (currentLetter + 1)
       else nextLetter) out
    /\ closed out
    /\ anchorIds out
       = lettersBetween nextLetter
           (if islower currentLetter then Z.max nextLetter (currentLetter + 1)
            else nextLetter).
Proof.
  induction fuel as [|fuel IH]; intros nextLetter Hpositive Hfuel; [lia|].
  cbn [anchorLoop]. destruct (islower currentLetter) eqn:Hlower; cbn [andb].
  - specialize (Hfuel eq_refl). destruct (nextLetter <=? currentLetter) eqn:Hle.
    + apply Z.leb_le in Hle.
      destruct (IH (nextLetter + 1)) as (out & Hout & Hclosed & Hids); [lia|lia|].
      replace (Z.max (nextLetter + 1) (currentLetter + 1))
        with (Z.max nextLetter (currentLetter + 1)) in * by lia.
      eexists. split; [|split].
      * unfold writeAnchor. unfold_writer. repeat writes_step. exact Hout.
      * intros open. cbn [app closesWithin]. apply Hclosed.
      * cbn [app].
        change (anchorIds (?a :: ?b :: ?c :: out))
          with (anchorIds [a; b; c] ++ anchorIds out).
        rewrite Hids. rewrite (lettersBetween_cons nextLetter) by lia. reflexivity.
    + apply Z.leb_gt in Hle. exists []. rewrite Z.max_l by lia.
      split; [apply writes_ret|]. split; [intros open; reflexivity|].
      rewrite lettersBetween_nil. reflexivity.
  - exists []. split; [apply writes_ret|]. split; [intros open; reflexivity|].
    rewrite lettersBetween_nil. reflexivity.
Qed.

Lemma lettersBetween_app (first middle next : Z) :
  first <= middle <= next ->
  lettersBetween first middle ++ lettersBetween middle next
  = lettersBetween first next.
Proof.
  intros [Hfirst Hnext].
  remember (Z.to_nat (middle - first)) as n eqn:Hn.
  revert first Hfirst Hn. induction n as [|n IH]; intros first Hfirst Hn.
  - replace middle with first by lia. rewrite lettersBetween_nil. reflexivity.
  - rewrite (lettersBetween_cons first middle), (lettersBetween_cons first next) by lia.
    cbn [app]. f_equal. apply IH; lia.
Qed.

Lemma functions_write (relative : Node.Node) (functions : NodeMap) :
  Forall (fun s => Node.parent s.2 <> None) functions ->
  exists out,
    writes (forEach functions (fun s =>
              writeCharacters " ";;
              match Node.parent s.2 with
              | Some parent => generateFullName graph parent relative
              | None => nullDeref
              end)) tt out
    /\ closed out
    /\ anchorIds out = [].
Proof.
  induction 1 as [|s functions Hparent _ (out & Hout & Hclosed & Hids)].
  - exists []. split; [apply writes_ret|]. split; [intros open|]; reflexivity.
  - destruct (Node.parent s.2) as [parent|] eqn:Hs; [|contradiction].
    eexists. cbn [forEach]. rewrite Hs. split; [|split].
    + unfold generateFullName. unfold_writer. repeat writes_step. exact Hout.
    + intros open. cbn [app closesWithin]. apply Hclosed.
    + cbn [app]. exact Hids.
Qed.

Lemma functionIndexLoop_writes (fuel : nat) (relative : Node.Node) :
  (26 < fuel)%nat ->
  forall funcIndex nextLetter,
    97 <= nextLetter <= 123 ->
    Forall (fun entry => Forall (fun s => Node.parent s.2 <> None) entry.2) funcIndex ->
    exists out,
      writes (functionIndexLoop graph fuel funcIndex nextLetter relative) tt out
      /\ closed out
      /\ anchorIds out
         = lettersBetween nextLetter (Z.max nextLetter (greatestInitial funcIndex + 1)).
Proof.
  intros Hfuel. induction funcIndex as [|[key functions] rest IH];
    intros nextLetter Hrange Hparents.
  - exists []. split; [apply writes_ret|]. split; [intros open; reflexivity|].
    cbn [greatestInitial fold_right]. rewrite Z.max_l by lia.
    rewrite lettersBetween_nil. reflexivity.
  - inversion Hparents as [|? ? Hfunctions Hrest]; subst.
    assert (Hlower : islower (initial key) = true -> 97 <= initial key <= 122)
      by (unfold islower; lia).
    destruct (anchorLoop_writes (initial key) fuel nextLetter)
      as (anchors & Hanchors & Hanchors_closed & Hanchor_ids);
      [lia|intros Hkey; specialize (Hlower Hkey); lia|].
    set (next := if islower (initial key) then Z.max nextLetter (initial key + 1)
                 else nextLetter) in *.
    assert (Hnext : nextLetter <= next <= 123)
      by (unfold next; destruct (islower (initial key)); [specialize (Hlower eq_refl)|];
          lia).
    destruct (functions_write relative functions Hfunctions)
      as (links & Hlinks & Hlinks_closed & Hlink_ids).
    destruct (IH next) as (out & Hout & Hclosed & Hids); [lia|exact Hrest|].
    eexists. split; [|split].
    + cbn [functionIndexLoop]. unfold_writer.
      repeat writes_step; [exact Hanchors|exact Hlinks|exact Hout].
    + intros open. cbn [app closesWithin].
      rewrite closesWithin_app, Hanchors_closed, closesWithin_app, Hlinks_closed.
      cbn [app closesWithin]. apply Hclosed.
    + cbn [app].
      change (anchorIds (?a :: ?b :: ?c :: ?d :: ?l)) with (anchorIds l).
      rewrite !anchorIds_app, Hanchor_ids, Hlink_ids.
      change (anchorIds (?a :: ?b :: ?c :: ?d :: out)) with (anchorIds out).
      rewrite Hids. cbn [app].
      replace (Z.max nextLetter (greatestInitial ((key, functions) :: rest) + 1))
        with (Z.max next (greatestInitial rest + 1)).
      * apply lettersBetween_app. lia.
      * cbn [greatestInitial fold_right fst]. fold (greatestInitial rest).
        unfold next. destruct (islower (initial key)); lia.
Qed.

Lemma greatestInitial_least (funcIndex : list (string * NodeMap)) :
  96 <= greatestInitial funcIndex.
Proof.
  induction funcIndex as [|entry rest IH]; [reflexivity|].
  cbn [greatestInitial fold_right]. fold (greatestInitial rest).
  destruct (islower (initial entry.1)); lia.
Qed.

(** X30.  [generateFunctionIndex] links to an anchor for each of the 26
    letters, but writes the anchors only for the letters up to the greatest
    lower-case letter that begins a name of the index, each of them once
    and in order; it closes every element that it opens. *)
Theorem function_index_anchors (fuel : nat) (funcIndex : list (string * NodeMap))
    (relative : Node.Node) :
  (26 < fuel)%nat ->
  Forall (fun entry => Forall (fun s => Node.parent s.2 <> None) entry.2) funcIndex ->
  exists header body,
    writes (generateFunctionIndex graph fuel funcIndex relative) tt (header ++ body)
    /\ closed header
    /\ linkedIds header = lettersBetween 97 123
    /\ closed body
    /\ anchorIds (header ++ body) = lettersBetween 97 (greatestInitial funcIndex + 1).
Proof.
  intros Hfuel Hparents.
  destruct (functionIndexLoop_writes fuel relative Hfuel funcIndex 97)
    as (out & Hout & Hclosed & Hids); [lia|exact Hparents|].
  rewrite Z.max_r in Hids by (pose proof (greatestInitial_least funcIndex); lia).
  pose (member := fun i =>
    [StartElement dbNamespace "member";
     AttributeNS xlinkNamespace "href" ("#" +:+ letter (97 + i));
     Characters (letter (97 + i - 32)); EndElement "member"; Characters newline]).
  exists ([StartElement dbNamespace "simplelist"; Attribute "role" "functionIndex";
           Characters newline]
          ++ List.concat (List.map member (List.map Z.of_nat (seq 0 26)))
          ++ [EndElement "simplelist"; Characters newline]),
    ([StartElement dbNamespace "itemizedlist"; Characters newline]
     ++ out ++ [EndElement "itemizedlist"; Characters newline]).
  split; [|split; [|split; [|split]]].
  - unfold generateFunctionIndex. unfold_writer. eapply writes_eq.
    + do 3 (eapply writes_bind; [apply writes_emit|cbv beta]).
      eapply writes_bind; [apply writes_forEach with (calls := member)|cbv beta].
      * intros i. eapply writes_eq; [repeat writes_step|reflexivity].
      * repeat writes_step. exact Hout.
    + cbn [app]. rewrite <- !app_assoc. reflexivity.
  - intros open. reflexivity.
  - reflexivity.
  - intros open. cbn [app closesWithin]. rewrite closesWithin_app, Hclosed. reflexivity.
  - rewrite !anchorIds_app, Hids.
    replace (anchorIds (List.concat (List.map member (List.map Z.of_nat (seq 0 26)))))
      with (@nil string) by reflexivity.
    cbn [anchorIds app]. apply app_nil_r.
Qed.

End FunctionIndexProperties.

Lemma function_index_anchors_witness :
  exists header body,
    writes (generateFunctionIndex flatGraph 27 twoFunctions Sample.widget) tt
      (header ++ body)
    /\ closed header
    /\ linkedIds header = lettersBetween 97 123
    /\ closed body
    /\ anchorIds (header ++ body) = lettersBetween 97 (greatestInitial twoFunctions + 1).
Proof.
  apply (function_index_anchors flatGraph 27 twoFunctions Sample.widget); [lia|].
  repeat constructor; discriminate.
Defined.
